(** * graph-vis: from the introspection document to the diagram

    A shallow embedding of the introspection parser
    ([parser/parseIntrospection.ts]), the type-node factory
    ([nodes/createTypeNode.ts]), the breadth-first graph extractor
    ([graph/extractGraph.ts]), the diagram projection and its two
    layouts ([visualization/toReactFlow.ts], [visualization/layout.ts])
    and the diagram filter and connection counts of the application
    ([app/hooks/useFilteredGraph.ts],
    [app/components/SchemaVisualizer.tsx]), followed by the properties
    the specification states about them and further properties of the
    code. *)

From stdpp Require Import gmap strings list fin_maps relations pretty sorting.
From Stdlib Require Import Ascii QArith Qabs.
#[global] Close Scope Q_scope.


(** ** Data model *)

(** [parser/types.ts]: the [TypeKind] string union. *)
Inductive TypeKind : Type :=
  | SCALAR | OBJECT | INTERFACE | UNION | ENUM | INPUT_OBJECT | LIST | NON_NULL.

#[global] Instance TypeKind_eq_dec : EqDecision TypeKind.
Proof. solve_decision. Defined.

(** [IntrospectionTypeRef]: [name] and [ofType] are nullable. *)
#[local] Unset Elimination Schemes.
Inductive IntrospectionTypeRef : Type :=
  mkTypeRef {
    ref_kind : TypeKind;
    ref_name : option string;
    ref_ofType : option IntrospectionTypeRef
  }.
#[local] Set Elimination Schemes.

(** [IntrospectionField]; the optional description is kept, the
    deprecation attributes are never read by the core. *)
Record IntrospectionField : Type :=
  mkField {
    field_name : string;
    field_description : option string;
    field_type : IntrospectionTypeRef
  }.

(** [IntrospectionType]: an optional attribute that is [undefined] or
    [null] in the document is [None] here (the code only ever tests
    these attributes for truthiness or through [?.]). *)
Record IntrospectionType : Type :=
  mkType {
    type_kind : TypeKind;
    type_name : string;
    type_description : option string;
    type_fields : option (list IntrospectionField);
    type_interfaces : option (list IntrospectionTypeRef);
    type_possibleTypes : option (list IntrospectionTypeRef)
  }.

(** [IntrospectionSchema], with [types] possibly missing, as in the
    document [{ data: { __schema: {} } }]. *)
Record IntrospectionSchema : Type :=
  mkSchema {
    schema_queryType : option string;
    schema_types : option (list IntrospectionType)
  }.

(** [IntrospectionResult], the object under [data]: [{ __schema }],
    with [__schema] possibly missing, as in the document [{ data: {} }]. *)
Record IntrospectionResult : Type :=
  mkResult { result_schema : option IntrospectionSchema }.

(** The argument of [parseIntrospection] and of [extractGraph]:
    [{ data }].  [extractGraph] declares [data: any], so [data] may be
    [null] or [undefined], which is [None] here.  (A primitive under
    [data] has no [__schema] and behaves as an object without it.) *)
Record IntrospectionData : Type :=
  mkInput { data : option IntrospectionResult }.

(** The document [{ data: { __schema: schema } }], whose [data] is an
    object. *)
Definition mkData (schema : option IntrospectionSchema) : IntrospectionData :=
  mkInput (Some (mkResult schema)).

(** The schema of a document, if its [data] is an object that has
    one. *)
Definition data_schema (d : IntrospectionData) : option IntrospectionSchema :=
  match data d with
  | Some result => result_schema result
  | None => None
  end.

Record ParsedIntrospection : Type :=
  mkParsed {
    parsed_types : list IntrospectionType;
    parsed_queryTypeName : option string
  }.

(** [nodes/types.ts] *)
Record FieldInfo : Type :=
  mkFieldInfo {
    fi_name : string;
    fi_typeName : string;
    fi_description : option string
  }.

Record TypeNode : Type :=
  mkNode {
    node_name : string;
    node_kind : TypeKind;
    isComposite : bool;
    isRelay : bool;
    isBuiltIn : bool;
    node_fields : option (list FieldInfo);
    node_interfaces : option (list string);
    node_possibleTypes : option (list string);
    node_description : option string
  }.

(** [graph/types.ts] *)
Inductive EdgeType : Type := FIELD | IMPLEMENTS | UNION_MEMBER.

Record Edge : Type :=
  mkEdge {
    source : string;
    target : string;
    edgeType : EdgeType;
    fieldName : option string
  }.

(** A JavaScript [Map] keeps its entries in insertion order; the node
    mapping is the list of its entries in that order. *)
Definition NodeMap : Type := list (string * TypeNode).

Record TypeGraph : Type :=
  mkGraph {
    nodes : NodeMap;
    edges : list Edge;
    rootType : TypeNode
  }.

(** The failures of the core.  The three first ones are the [Error]s
    thrown explicitly (told apart by their message); [UndefinedNode] is
    the [TypeError] that reading [currentNode.fields] would raise if the
    unchecked lookup [nodes.get(currentTypeName)!] returned [undefined];
    [DataTypeError] is the [TypeError] that reading
    [introspectionData.data.__schema] raises when [data] is [null] or
    [undefined]. *)
Inductive CoreError : Type :=
  | InvalidInputError
  | NoRootTypeError
  | RootTypeNotFoundError
  | UndefinedNode
  | DataTypeError.

(** ** Strings *)

(** [s.startsWith(p)] *)
Definition startsWith (s p : string) : bool := String.prefix p s.

(** [s.endsWith(p)] *)
Definition endsWith (s p : string) : bool :=
  let n := String.length s in
  let m := String.length p in
  if decide (m ≤ n) then String.eqb (String.substring (n - m) m s) p else false.

(** ** The parser *)

(** [parseIntrospection].  Its first statement reads
    [introspectionData.data.__schema] before any test, which throws when
    [data] is [null] or [undefined]; then it fails when [__schema] or
    [__schema.types] is missing; [schema.queryType?.name || null] turns
    an empty name into [null] as well. *)
Definition parseIntrospection (d : IntrospectionData)
  : CoreError + ParsedIntrospection :=
  match data d with
  | None => inl DataTypeError
  | Some result =>
    match result_schema result with
    | None => inl InvalidInputError
    | Some schema =>
      match schema_types schema with
      | None => inl InvalidInputError
      | Some ts =>
        inr {| parsed_types :=
                 List.filter (λ t, negb (startsWith (type_name t) "__")) ts;
               parsed_queryTypeName :=
                 match schema_queryType schema with
                 | Some n => if decide (n = EmptyString) then None else Some n
                 | None => None
                 end |}
      end
    end
  end.

Definition isWrapper (k : TypeKind) : bool :=
  match k with LIST | NON_NULL => true | _ => false end.

(** [unwrapType] on a reference that is not [null]. *)
Fixpoint unwrapRef (r : IntrospectionTypeRef) : option string :=
  if isWrapper (ref_kind r) then
    match ref_ofType r with
    | Some inner => unwrapRef inner
    | None => None
    end
  else ref_name r.

(** [unwrapType(typeRef)] *)
Definition unwrapType (r : option IntrospectionTypeRef) : option string :=
  match r with
  | None => None
  | Some r => unwrapRef r
  end.

(** ** The type-node factory *)

Definition BUILT_IN_SCALARS : list string :=
  ["String"; "Int"; "Float"; "Boolean"; "ID"].

(** [x || 'Unknown'] on a [string | null]: the empty string is falsy. *)
Definition orUnknown (o : option string) : string :=
  match o with
  | Some s => if decide (s = EmptyString) then "Unknown" else s
  | None => "Unknown"
  end.

Definition extractFields (t : IntrospectionType) : option (list FieldInfo) :=
  match type_fields t with
  | None => None
  | Some [] => None
  | Some fs =>
    Some (map (λ f, {| fi_name := field_name f;
                       fi_typeName := orUnknown (unwrapType (Some (field_type f)));
                       fi_description := field_description f |}) fs)
  end.

(** [refs?.map(unwrapType).filter(n => n !== null) || undefined]: an
    array, even an empty one, is truthy. *)
Definition unwrapAll (rs : option (list IntrospectionTypeRef))
  : option (list string) :=
  match rs with
  | None => None
  | Some l => Some (omap (λ r, unwrapType (Some r)) l)
  end.

Definition createTypeNode (t : IntrospectionType) : TypeNode :=
  let name := type_name t in
  let kind := type_kind t in
  {| node_name := name;
     node_kind := kind;
     isComposite :=
       bool_decide (kind = OBJECT) || bool_decide (kind = INTERFACE)
       || bool_decide (kind = UNION);
     isRelay :=
       endsWith name "Connection" || endsWith name "Edge"
       || bool_decide (name = "PageInfo");
     isBuiltIn :=
       startsWith name "__" || bool_decide (name ∈ BUILT_IN_SCALARS);
     node_fields := extractFields t;
     node_interfaces := unwrapAll (type_interfaces t);
     node_possibleTypes := unwrapAll (type_possibleTypes t);
     node_description := type_description t |}.

(** ** The graph extractor *)

(** [typeMap]: [parsed.types.forEach(t => typeMap.set(t.name, t))]; a
    later record replaces an earlier one of the same name. *)
Definition buildTypeMap (ts : list IntrospectionType)
  : gmap string IntrospectionType :=
  foldl (λ m t, <[type_name t := t]> m) ∅ ts.

(** [Map.prototype.get] and [Map.prototype.set] on the entries of the
    node mapping: [set] on a key already present replaces its value in
    place, on a new key it appends an entry. *)
Fixpoint map_get (k : string) (m : NodeMap) : option TypeNode :=
  match m with
  | [] => None
  | (k', v) :: m' => if decide (k = k') then Some v else map_get k m'
  end.

Fixpoint map_set (k : string) (v : TypeNode) (m : NodeMap) : NodeMap :=
  match m with
  | [] => [(k, v)]
  | (k', v') :: m' =>
    if decide (k = k') then (k, v) :: m' else (k', v') :: map_set k v m'
  end.

Definition map_keys (m : NodeMap) : list string := m.*1.

(** The four mutable locals of [extractGraph]. *)
Record State : Type :=
  mkState {
    st_nodes : NodeMap;
    st_edges : list Edge;
    st_visited : gset string;
    st_queue : list string
  }.

(** [edges.push(e)] *)
Definition pushEdge (e : Edge) (st : State) : State :=
  {| st_nodes := st_nodes st;
     st_edges := st_edges st ++ [e];
     st_visited := st_visited st;
     st_queue := st_queue st |}.

(** The block guarded by [if (!visited.has(name))]: create the node,
    mark it visited and enqueue it, provided [typeMap] has a record. *)
Definition discover (typeMap : gmap string IntrospectionType)
    (name : string) (st : State) : State :=
  if decide (name ∈ st_visited st) then st
  else
    match typeMap !! name with
    | Some typeData =>
      {| st_nodes := map_set name (createTypeNode typeData) (st_nodes st);
         st_edges := st_edges st;
         st_visited := {[name]} ∪ st_visited st;
         st_queue := st_queue st ++ [name] |}
    | None => st
    end.

(** One turn of any of the three [for] loops: push the edge, then
    discover its target. *)
Definition visit (typeMap : gmap string IntrospectionType)
    (st : State) (e : Edge) : State :=
  discover typeMap (target e) (pushEdge e st).

Definition fieldEdge (cur : string) (f : FieldInfo) : Edge :=
  {| source := cur; target := fi_typeName f;
     edgeType := FIELD; fieldName := Some (fi_name f) |}.

Definition implementsEdge (cur interfaceName : string) : Edge :=
  {| source := cur; target := interfaceName;
     edgeType := IMPLEMENTS; fieldName := None |}.

Definition unionEdge (cur memberName : string) : Edge :=
  {| source := cur; target := memberName;
     edgeType := UNION_MEMBER; fieldName := None |}.

(** The body of the [while] loop after the dequeue: the three guarded
    [for] loops, in the order of the source. *)
Definition expand (typeMap : gmap string IntrospectionType)
    (cur : string) (node : TypeNode) (st : State) : State :=
  let st1 :=
    match node_fields node with
    | Some fs => foldl (λ s f, visit typeMap s (fieldEdge cur f)) st fs
    | None => st
    end in
  let st2 :=
    match node_interfaces node with
    | Some ifaces =>
      foldl (λ s i, visit typeMap s (implementsEdge cur i)) st1 ifaces
    | None => st1
    end in
  match node_possibleTypes node with
  | Some ms => foldl (λ s m, visit typeMap s (unionEdge cur m)) st2 ms
  | None => st2
  end.

(** One test of the loop condition and, if it holds, one iteration. *)
Inductive Step : Type :=
  | Exit
  | Crash
  | Next (cur : string) (st : State).

Definition dequeue (st : State) (rest : list string) : State :=
  {| st_nodes := st_nodes st;
     st_edges := st_edges st;
     st_visited := st_visited st;
     st_queue := rest |}.

Definition loopStep (typeMap : gmap string IntrospectionType) (st : State)
  : Step :=
  match st_queue st with
  | [] => Exit
  | cur :: rest =>
    match map_get cur (st_nodes st) with
    | None => Crash
    | Some node => Next cur (expand typeMap cur node (dequeue st rest))
    end
  end.

(** The [while (queue.length > 0)] loop, run for at most [fuel] tests
    of its condition; [None] when it is still running after them. *)
Fixpoint bfs (fuel : nat) (typeMap : gmap string IntrospectionType)
    (st : State) : option (CoreError + State) :=
  match fuel with
  | 0 => None
  | S fuel' =>
    match loopStep typeMap st with
    | Exit => Some (inr st)
    | Crash => Some (inl UndefinedNode)
    | Next _ st' => bfs fuel' typeMap st'
    end
  end.

(** The names taken off the queue, in the order they are taken. *)
Fixpoint dequeued (fuel : nat) (typeMap : gmap string IntrospectionType)
    (st : State) : list string :=
  match fuel with
  | 0 => []
  | S fuel' =>
    match loopStep typeMap st with
    | Next cur st' => cur :: dequeued fuel' typeMap st'
    | _ => []
    end
  end.

(** The state built from the root node before the loop. *)
Definition initState (rootNode : TypeNode) : State :=
  {| st_nodes := map_set (node_name rootNode) rootNode [];
     st_edges := [];
     st_visited := {[node_name rootNode]} ∪ ∅;
     st_queue := [] ++ [node_name rootNode] |}.

(** What [extractGraph] has done up to the loop: the lookup table and
    the root record, or the error thrown. *)
Definition findRoot (d : IntrospectionData)
  : CoreError + (gmap string IntrospectionType * IntrospectionType) :=
  match parseIntrospection d with
  | inl e => inl e
  | inr parsed =>
    match parsed_queryTypeName parsed with
    | None => inl NoRootTypeError
    | Some q =>
      if decide (q = EmptyString) then inl NoRootTypeError
      else
        let typeMap := buildTypeMap (parsed_types parsed) in
        match typeMap !! q with
        | None => inl RootTypeNotFoundError
        | Some rootTypeData => inr (typeMap, rootTypeData)
        end
    end
  end.

(** [extractGraph], its loop bounded by [fuel]. *)
Definition extractGraph (fuel : nat) (d : IntrospectionData)
  : option (CoreError + TypeGraph) :=
  match findRoot d with
  | inl e => Some (inl e)
  | inr (typeMap, rootTypeData) =>
    let rootNode := createTypeNode rootTypeData in
    match bfs fuel typeMap (initState rootNode) with
    | None => None
    | Some (inl e) => Some (inl e)
    | Some (inr st) =>
      Some (inr {| nodes := st_nodes st;
                   edges := st_edges st;
                   rootType := rootNode |})
    end
  end.

(** [extractGraph] returns [r] (a graph or a thrown error) when some
    number of loop turns is enough for it. *)
Definition returns (d : IntrospectionData) (r : CoreError + TypeGraph) : Prop :=
  ∃ fuel, extractGraph fuel d = Some r.

(** ** Example documents *)

Definition named (k : TypeKind) (n : string) : IntrospectionTypeRef :=
  mkTypeRef k (Some n) None.

Definition objectType (n : string) (fs : list IntrospectionField)
  : IntrospectionType :=
  mkType OBJECT n None (Some fs) None None.

Definition document (ts : list IntrospectionType) : IntrospectionData :=
  mkData (Some (mkSchema (Some "Query") (Some ts))).

(** The graph returned within [fuel] turns, for the examples. *)
Definition graphWithin (fuel : nat) (d : IntrospectionData) : TypeGraph :=
  match extractGraph fuel d with
  | Some (inr g) => g
  | _ => mkGraph [] [] (createTypeNode (objectType EmptyString []))
  end.

(** The end-to-end scenario, without and with the ID scalar declared. *)
Definition scenarioTypes : list IntrospectionType :=
  [ objectType "Query" [mkField "device" None (named OBJECT "DeviceType")];
    objectType "DeviceType"
      [mkField "id" None (named SCALAR "ID");
       mkField "cable" None (named OBJECT "CableType")];
    objectType "CableType" [mkField "id" None (named SCALAR "ID")] ].

Definition scalarID : IntrospectionType :=
  mkType SCALAR "ID" None None None None.

Definition scenario : IntrospectionData := document scenarioTypes.
Definition scenarioWithID : IntrospectionData :=
  document (scenarioTypes ++ [scalarID]).

Definition scenarioGraph : TypeGraph :=
  Eval vm_compute in graphWithin 4 scenario.
Definition scenarioWithIDGraph : TypeGraph :=
  Eval vm_compute in graphWithin 5 scenarioWithID.

(** A cyclic schema: A refers to B, which refers to A. *)
Definition cyclicTypes : list IntrospectionType :=
  [ objectType "Query" [mkField "a" None (named OBJECT "A")];
    objectType "A" [mkField "b" None (named OBJECT "B")];
    objectType "B" [mkField "a" None (named OBJECT "A")] ].

Definition cyclic : IntrospectionData := document cyclicTypes.
Definition cyclicGraph : TypeGraph := Eval vm_compute in graphWithin 4 cyclic.

(** Two fields of one type that refer to the same target. *)
Definition twinTypes : list IntrospectionType :=
  [ objectType "Query"
      [mkField "first" None (named OBJECT "Item");
       mkField "second" None (named OBJECT "Item")];
    objectType "Item" [] ].

Definition twin : IntrospectionData := document twinTypes.
Definition twinGraph : TypeGraph := Eval vm_compute in graphWithin 3 twin.



(** A schema that refers to an introspection meta-type. *)
Definition metaTypes : list IntrospectionType :=
  [ objectType "Query" [mkField "schema" None (named OBJECT "__Schema")];
    objectType "__Schema" [] ].

Definition withMeta : IntrospectionData := document metaTypes.
Definition withMetaGraph : TypeGraph :=
  Eval vm_compute in graphWithin 2 withMeta.

(** A field whose type is a leaf named by the empty string. *)
Definition emptyNamedField : IntrospectionField :=
  mkField "f" None (mkTypeRef SCALAR (Some EmptyString) None).

Definition emptyNamedType : IntrospectionType :=
  objectType "T" [emptyNamedField].

(** A schema with an interface and a union: [Tagged] is referred to
    only as an interface of [Device], [Cable] only as a member of
    [SearchResult], and [Device] only as an implementer of [Node] and a
    member of [SearchResult]. *)
Definition polyTypes : list IntrospectionType :=
  [ objectType "Query"
      [mkField "node" None
         (mkTypeRef NON_NULL None (Some (named INTERFACE "Node")));
       mkField "search" None
         (mkTypeRef LIST None (Some (named UNION "SearchResult")))];
    mkType INTERFACE "Node" None
      (Some [mkField "id" None (named SCALAR "ID")])
      None (Some [named OBJECT "Device"]);
    mkType OBJECT "Device" None
      (Some [mkField "name" None (named SCALAR "String")])
      (Some [named INTERFACE "Node"; named INTERFACE "Tagged"]) None;
    mkType UNION "SearchResult" None None None
      (Some [named OBJECT "Device"; named OBJECT "Cable"]);
    objectType "Cable" [];
    mkType INTERFACE "Tagged" None None None None;
    objectType "Unused" [] ].

Definition poly : IntrospectionData := document polyTypes.
Definition polyGraph : TypeGraph := Eval vm_compute in graphWithin 7 poly.

(** A schema whose query type has a field of the type named by the
    empty string, which has a record. *)
Definition emptyRefTypes : list IntrospectionType :=
  [ objectType "Query" [emptyNamedField]; objectType EmptyString [] ].

Definition emptyRef : IntrospectionData := document emptyRefTypes.
Definition emptyRefGraph : TypeGraph :=
  Eval vm_compute in graphWithin 2 emptyRef.

(** ** Notions used to state the properties *)

(** The edges one dequeued node contributes, in the order the three
    loops of [expand] push them. *)
Definition nodeEdges (cur : string) (node : TypeNode) : list Edge :=
  map (fieldEdge cur) (default [] (node_fields node))
  ++ map (implementsEdge cur) (default [] (node_interfaces node))
  ++ map (unionEdge cur) (default [] (node_possibleTypes node)).

(** The edges of the node that the lookup table gives for a name. *)
Definition edgesOf (typeMap : gmap string IntrospectionType) (k : string)
  : list Edge :=
  match typeMap !! k with
  | Some typeData => nodeEdges k (createTypeNode typeData)
  | None => []
  end.

(** One step along an edge of a sequence of edges. *)
Definition edgeRel (es : list Edge) (a b : string) : Prop :=
  ∃ e, e ∈ es ∧ source e = a ∧ target e = b.

(** One step of the type-reference graph of the schema: the record of
    [a] in the lookup table has a field, an interface or a union member
    whose resolved name is [b], and [b] has a record too. *)
Definition refersTo (typeMap : gmap string IntrospectionType)
    (a b : string) : Prop :=
  b ∈ map target (edgesOf typeMap a) ∧ is_Some (typeMap !! b).

(** The quantity that every loop turn decreases: the names waiting in
    the queue plus the names of the lookup table not yet visited. *)
Definition measure (typeMap : gmap string IntrospectionType) (st : State)
  : nat :=
  length (st_queue st) + size (dom typeMap ∖ st_visited st).

(** The state after [n] turns of the loop, while it runs. *)
Fixpoint stateAfter (n : nat) (typeMap : gmap string IntrospectionType)
    (st : State) : option State :=
  match n with
  | 0 => Some st
  | S n' =>
    match loopStep typeMap st with
    | Next _ st' => stateAfter n' typeMap st'
    | _ => None
    end
  end.

(** The facts that hold of the four locals between two loop turns and
    between two turns of the inner loops; [front] lists the names
    already taken off the queue. *)
Record consistent (typeMap : gmap string IntrospectionType) (root : string)
    (front : list string) (st : State) : Prop :=
  mkConsistent {
    c_root : root ∈ map_keys (st_nodes st);
    c_keys : map_keys (st_nodes st) = front ++ st_queue st;
    c_nodup : NoDup (map_keys (st_nodes st));
    c_visited : st_visited st = list_to_set (map_keys (st_nodes st));
    c_nodes :
      Forall (λ kn, createTypeNode <$> typeMap !! kn.1 = Some kn.2)
             (st_nodes st);
    c_sources :
      Forall (λ e, source e ∈ map_keys (st_nodes st)) (st_edges st);
    c_targets :
      Forall (λ e, is_Some (typeMap !! target e)
                   → target e ∈ map_keys (st_nodes st)) (st_edges st);
    c_reach :
      Forall (λ k, rtc (edgeRel (st_edges st)) root k)
             (map_keys (st_nodes st))
  }.

(** The loop invariant: the state is consistent and the edges are those
    of the names dequeued so far, group after group. *)
Definition loopInv (typeMap : gmap string IntrospectionType) (root : string)
    (seen : list string) (st : State) : Prop :=
  consistent typeMap root seen st
  ∧ st_edges st = seen ≫= edgesOf typeMap.

(** A chain of wrapper layers, outermost first, around a reference. *)
Fixpoint wrapRef (ws : list TypeKind) (leaf : IntrospectionTypeRef)
  : IntrospectionTypeRef :=
  match ws with
  | [] => leaf
  | k :: ws' => mkTypeRef k None (Some (wrapRef ws' leaf))
  end.

(** *** The references between raw records *)

(** In the words of the specification: stripping the LIST and NON_NULL
    wrappers of the reference [r] leaves a type named [n]. *)
Inductive resolvesTo : IntrospectionTypeRef → string → Prop :=
  | resolves_named (r : IntrospectionTypeRef) (n : string) :
      ref_kind r ≠ LIST → ref_kind r ≠ NON_NULL → ref_name r = Some n →
      resolvesTo r n
  | resolves_wrapped (r inner : IntrospectionTypeRef) (n : string) :
      ref_kind r = LIST ∨ ref_kind r = NON_NULL →
      ref_ofType r = Some inner → resolvesTo inner n →
      resolvesTo r n.

(** The record [t] has a field of type [b], implements the interface
    [b], has the union member [b]. *)
Definition fieldRef (t : IntrospectionType) (b : string) : Prop :=
  ∃ fs f, type_fields t = Some fs ∧ f ∈ fs ∧ resolvesTo (field_type f) b.

Definition interfaceRef (t : IntrospectionType) (b : string) : Prop :=
  ∃ rs r, type_interfaces t = Some rs ∧ r ∈ rs ∧ resolvesTo r b.

Definition memberRef (t : IntrospectionType) (b : string) : Prop :=
  ∃ rs r, type_possibleTypes t = Some rs ∧ r ∈ rs ∧ resolvesTo r b.

(** The record of a name among the parsed records: the last one that
    bears it. *)
Definition recordOf (types : list IntrospectionType) (a : string)
    (t : IntrospectionType) : Prop :=
  last (List.filter (λ t, bool_decide (type_name t = a)) types) = Some t.

Definition hasRecord (types : list IntrospectionType) (b : string) : Prop :=
  ∃ t, t ∈ types ∧ type_name t = b.

(** One step of reachability as the specification states it: the
    record of [a] refers to [b] through a field, an interface or a union
    member, and [b] has a record. *)
Definition specRefersTo (types : list IntrospectionType) (a b : string)
  : Prop :=
  ∃ t, recordOf types a t
    ∧ (fieldRef t b ∨ interfaceRef t b ∨ memberRef t b)
    ∧ hasRecord types b.

(** The same step without the one reference the extractor does not
    follow: a field whose type resolves to the empty name, which the
    node factory stores as "Unknown". *)
Definition followedRefersTo (types : list IntrospectionType) (a b : string)
  : Prop :=
  ∃ t, recordOf types a t
    ∧ (fieldRef t b ∧ b ≠ EmptyString ∨ interfaceRef t b ∨ memberRef t b)
    ∧ hasRecord types b.

(** ** Further example documents *)

(** A document that declares the type A twice. *)
Definition repeatedTypes : list IntrospectionType :=
  [ objectType "Query" [mkField "a" None (named OBJECT "A")];
    objectType "A" [mkField "x" None (named SCALAR "ID")];
    objectType "A" [mkField "y" None (named OBJECT "B")];
    objectType "B" [] ].

Definition repeated : IntrospectionData := document repeatedTypes.
Definition repeatedGraph : TypeGraph :=
  Eval vm_compute in graphWithin 4 repeated.

(** The second record of the scenario. *)
Definition deviceType : IntrospectionType :=
  objectType "DeviceType"
    [mkField "id" None (named SCALAR "ID");
     mkField "cable" None (named OBJECT "CableType")].

(** A type that no other type refers to. *)
Definition orphanType : IntrospectionType :=
  mkType SCALAR "Orphan" None None None None.

(** ** The diagram projection *)

(** [visualization/types.ts]; the style objects that [getEdgeStyle]
    builds have a stroke, a stroke width and sometimes a dash pattern. *)
Record EdgeStyle : Type :=
  mkStyle {
    stroke : string;
    strokeWidth : nat;
    strokeDasharray : option string
  }.

Record ReactFlowEdge : Type :=
  mkReactFlowEdge {
    rfe_id : string;
    rfe_source : string;
    rfe_target : string;
    rfe_type : option string;
    rfe_label : option string;
    rfe_animated : option bool;
    rfe_style : option EdgeStyle
  }.

Record NodeData : Type :=
  mkNodeData {
    nd_label : string;
    nd_kind : TypeKind;
    nd_fields : option (list FieldInfo);
    nd_isRelay : option bool;
    nd_isBuiltIn : option bool;
    nd_description : option string
  }.

(** A position is a pair [(x, y)] of numbers.  The layouts compute
    them from array lengths and indices with sums, products and one
    halving, which are exact on doubles of this size; they are modelled
    as rationals. *)
Record ReactFlowNode : Type :=
  mkReactFlowNode {
    rfn_id : string;
    rfn_type : string;
    rfn_data : NodeData;
    rfn_position : Q * Q
  }.

Record ReactFlowData : Type :=
  mkReactFlowData {
    rf_nodes : list ReactFlowNode;
    rf_edges : list ReactFlowEdge
  }.

#[global] Instance EdgeType_eq_dec : EqDecision EdgeType.
Proof. solve_decision. Defined.

(** [cleanTypeName]: [name.slice(0, -4)] keeps all but the last four
    characters. *)
Definition cleanTypeName (name : string) : string :=
  if endsWith name "Type" && negb (bool_decide (name = "Type"))
  then String.substring 0 (String.length name - 4) name
  else name.

(** The truthiness of an optional string: [undefined] and the empty
    string are falsy. *)
Definition truthy (o : option string) : bool :=
  match o with
  | Some s => negb (bool_decide (s = EmptyString))
  | None => false
  end.

Definition getEdgeLabel (edge : Edge) : option string :=
  if bool_decide (edgeType edge = FIELD) && truthy (fieldName edge)
  then fieldName edge
  else if bool_decide (edgeType edge = IMPLEMENTS) then Some "implements"
  else if bool_decide (edgeType edge = UNION_MEMBER) then Some "member"
  else None.

(** [getEdgeStyle]; the [default] branch of the [switch] cannot be
    taken on the three members of [EdgeType]. *)
Definition getEdgeStyle (t : EdgeType) : EdgeStyle :=
  match t with
  | FIELD => mkStyle "#2563eb" 2 None
  | IMPLEMENTS => mkStyle "#16a34a" 2 (Some "5,5")
  | UNION_MEMBER => mkStyle "#dc2626" 2 (Some "3,3")
  end.

(** [simpleGridLayout].  [COLS] is [Math.ceil(Math.sqrt(nodes.length))]:
    on an array length the double-precision square root is exact enough
    for its ceiling to be the integer ceiling square root, and
    [Math.floor(index / COLS)] is the integer quotient.  With no node
    the callback is never run, so [COLS = 0] divides nothing. *)
Definition simpleGridLayout (nodes : list ReactFlowNode)
  : list ReactFlowNode :=
  let NODE_WIDTH := 250 in
  let NODE_HEIGHT := 150 in
  let COLS := Nat.sqrt_up (length nodes) in
  imap (λ index node,
          let col := index `mod` COLS in
          let row := index `div` COLS in
          {| rfn_id := rfn_id node;
             rfn_type := rfn_type node;
             rfn_data := rfn_data node;
             rfn_position :=
               (inject_Z (Z.of_nat (col * NODE_WIDTH)),
                inject_Z (Z.of_nat (row * NODE_HEIGHT))) |})
       nodes.

(** [layoutNodes] ignores the edges. *)
Definition layoutNodes (nodes : list ReactFlowNode)
    (edges : list ReactFlowEdge) : list ReactFlowNode :=
  simpleGridLayout nodes.

(** The two callbacks of [toReactFlow]; the index of an edge is
    rendered in decimal in its identifier. *)
Definition toReactFlowNode (typeNode : TypeNode) : ReactFlowNode :=
  {| rfn_id := node_name typeNode;
     rfn_type := "default";
     rfn_data :=
       {| nd_label := cleanTypeName (node_name typeNode);
          nd_kind := node_kind typeNode;
          nd_fields := node_fields typeNode;
          nd_isRelay := Some (isRelay typeNode);
          nd_isBuiltIn := Some (isBuiltIn typeNode);
          nd_description := node_description typeNode |};
     rfn_position := (0, 0)%Q |}.

Definition toReactFlowEdge (index : nat) (edge : Edge) : ReactFlowEdge :=
  {| rfe_id :=
       "e-" +:+ source edge +:+ "-" +:+ target edge +:+ "-" +:+ pretty index;
     rfe_source := source edge;
     rfe_target := target edge;
     rfe_type := Some "smoothstep";
     rfe_label := getEdgeLabel edge;
     rfe_animated := Some (bool_decide (edgeType edge = FIELD));
     rfe_style := Some (getEdgeStyle (edgeType edge)) |}.

Definition toReactFlow (graph : TypeGraph) : ReactFlowData :=
  let reactFlowNodes := map toReactFlowNode (map snd (nodes graph)) in
  let reactFlowEdges := imap toReactFlowEdge (edges graph) in
  let nodesWithLayout := layoutNodes reactFlowNodes reactFlowEdges in
  {| rf_nodes := nodesWithLayout; rf_edges := reactFlowEdges |}.

(** ** Filtering the diagram *)

Record FilterState : Type :=
  mkFilterState {
    showFields : bool;
    showImplements : bool;
    showUnions : bool;
    hideBuiltIns : bool;
    hideRelay : bool
  }.

(** The callback of [nodes.filter] in [useFilteredGraph]; an absent
    flag is falsy. *)
Definition nodeShown (filters : FilterState) (node : ReactFlowNode) : bool :=
  if hideBuiltIns filters && default false (nd_isBuiltIn (rfn_data node))
  then false
  else if hideRelay filters && default false (nd_isRelay (rfn_data node))
  then false
  else true.

(** The callback of [edges.filter]: the kind of an edge is read off
    its animation flag and its dash pattern. *)
Definition edgeShown (filters : FilterState) (visibleNodeIds : gset string)
    (edge : ReactFlowEdge) : bool :=
  if negb (bool_decide (rfe_source edge ∈ visibleNodeIds))
     || negb (bool_decide (rfe_target edge ∈ visibleNodeIds))
  then false
  else
    let isFieldEdge := bool_decide (rfe_animated edge = Some true) in
    let isImplementsEdge :=
      bool_decide (rfe_style edge ≫= strokeDasharray = Some "5,5") in
    let isUnionEdge :=
      bool_decide (rfe_style edge ≫= strokeDasharray = Some "3,3") in
    if isFieldEdge && negb (showFields filters) then false
    else if isImplementsEdge && negb (showImplements filters) then false
    else if isUnionEdge && negb (showUnions filters) then false
    else true.

(** The function memoised by [useFilteredGraph]. *)
Definition useFilteredGraph (nodes : list ReactFlowNode)
    (edges : list ReactFlowEdge) (filters : FilterState)
  : list ReactFlowNode * list ReactFlowEdge :=
  let filteredNodes := List.filter (nodeShown filters) nodes in
  let visibleNodeIds : gset string := list_to_set (map rfn_id filteredNodes) in
  let filteredEdges := List.filter (edgeShown filters visibleNodeIds) edges in
  (filteredNodes, filteredEdges).

(** [connectionCounts] of [SchemaVisualizer]: incoming and outgoing
    edges of the selected node, counted over all edges. *)
Definition connectionCounts (selectedNode : option ReactFlowNode)
    (edges : list ReactFlowEdge) : nat * nat :=
  match selectedNode with
  | None => (0, 0)
  | Some node =>
    (length (List.filter (λ e, bool_decide (rfe_target e = rfn_id node)) edges),
     length (List.filter (λ e, bool_decide (rfe_source e = rfn_id node)) edges))
  end.

(** The filters with which [SchemaVisualizer] starts, and the filters
    that show everything. *)
Definition initialFilters : FilterState := mkFilterState true true true true true.
Definition showAll : FilterState := mkFilterState true true true false false.

(** Whether the filters show edges of a kind. *)
Definition shows (filters : FilterState) (t : EdgeType) : bool :=
  match t with
  | FIELD => showFields filters
  | IMPLEMENTS => showImplements filters
  | UNION_MEMBER => showUnions filters
  end.

(** Whether a character occurs in a string. *)
Fixpoint occurs (c : Ascii.ascii) (s : string) : Prop :=
  match s with
  | EmptyString => False
  | String a s' => a = c ∨ occurs c s'
  end.

(** ** Distance from the root *)

(** [reachIn typeMap root n k]: a path of [n] steps of the
    type-reference graph leads from the root to [k]. *)
Inductive reachIn (typeMap : gmap string IntrospectionType) (root : string)
  : nat → string → Prop :=
  | reachIn_root : reachIn typeMap root 0 root
  | reachIn_step (n : nat) (a b : string) :
      reachIn typeMap root n a → refersTo typeMap a b →
      reachIn typeMap root (S n) b.

(** [n] is the length of a shortest path from the root to [k]. *)
Definition distance (typeMap : gmap string IntrospectionType) (root : string)
    (k : string) (n : nat) : Prop :=
  reachIn typeMap root n k ∧ ∀ m, reachIn typeMap root m k → n ≤ m.

(** The layering of the traversal between two loop turns: [lvF] gives
    the names already dequeued and [lvQ] those waiting in the queue,
    each with the number of steps after which it was discovered. *)
Record layered (typeMap : gmap string IntrospectionType) (root : string)
    (lvF lvQ : list (string * nat)) (st : State) : Prop :=
  mkLayered {
    ly_root : (root, 0) ∈ lvF ++ lvQ;
    ly_keys : (lvF ++ lvQ).*1 = map_keys (st_nodes st);
    ly_queue : lvQ.*1 = st_queue st;
    ly_sorted : StronglySorted le (lvF ++ lvQ).*2;
    ly_reach : Forall (λ kd, reachIn typeMap root kd.2 kd.1) (lvF ++ lvQ);
    ly_closed :
      ∀ a da b, (a, da) ∈ lvF → refersTo typeMap a b →
                ∃ db, (b, db) ∈ lvF ++ lvQ ∧ db ≤ S da;
    ly_bound :
      ∀ h dh, head lvQ = Some (h, dh) → Forall (λ kd, kd.2 ≤ S dh) lvQ
  }.

(** The layering in the middle of a loop turn: [cur], discovered after
    [dc] steps, has been dequeued and the edges [seenEdges] of it have
    been pushed. *)
Record expanding (typeMap : gmap string IntrospectionType) (root : string)
    (lvF : list (string * nat)) (cur : string) (dc : nat)
    (lvQ : list (string * nat)) (st : State) (seenEdges : list Edge) : Prop :=
  mkExpanding {
    ex_root : (root, 0) ∈ lvF ++ (cur, dc) :: lvQ;
    ex_keys : (lvF ++ (cur, dc) :: lvQ).*1 = map_keys (st_nodes st);
    ex_queue : lvQ.*1 = st_queue st;
    ex_sorted : StronglySorted le (lvF ++ (cur, dc) :: lvQ).*2;
    ex_reach :
      Forall (λ kd, reachIn typeMap root kd.2 kd.1) (lvF ++ (cur, dc) :: lvQ);
    ex_closed :
      ∀ a da b, (a, da) ∈ lvF → refersTo typeMap a b →
                ∃ db, (b, db) ∈ lvF ++ (cur, dc) :: lvQ ∧ db ≤ S da;
    ex_bound : Forall (λ kd, kd.2 ≤ S dc) (lvF ++ (cur, dc) :: lvQ);
    ex_done :
      Forall (λ e, is_Some (typeMap !! target e)
                   → ∃ db, (target e, db) ∈ lvF ++ (cur, dc) :: lvQ
                           ∧ db ≤ S dc) seenEdges
  }.

(** ** The hierarchical layout *)

(** [{ ...node, position: { x, y } }] *)
Definition setPosition (node : ReactFlowNode) (x y : Q) : ReactFlowNode :=
  {| rfn_id := rfn_id node;
     rfn_type := rfn_type node;
     rfn_data := rfn_data node;
     rfn_position := (x, y) |}.

(** [adjList]: for every source the targets of its edges, in the order
    of the edges. *)
Definition buildAdjList (edges : list ReactFlowEdge)
  : gmap string (list string) :=
  foldl (λ adjList edge,
           <[rfe_source edge :=
               default [] (adjList !! rfe_source edge) ++ [rfe_target edge]]>
             adjList)
        ∅ edges.

(** The locals of the layering loop.  [layers] maps a depth to the
    identifiers placed at it; its entries are kept in insertion order,
    the order in which [layers.forEach] runs through them. *)
Record LayerState : Type :=
  mkLayerState {
    ls_layers : list (nat * list string);
    ls_nodeDepth : gmap string nat;
    ls_queue : list (string * nat);
    ls_visited : gset string
  }.

(** [if (!layers.has(depth)) layers.set(depth, []);
    layers.get(depth)!.push(id)] *)
Fixpoint pushLayer (depth : nat) (id : string)
    (layers : list (nat * list string)) : list (nat * list string) :=
  match layers with
  | [] => [(depth, [id])]
  | (d, ids) :: layers' =>
    if decide (d = depth) then (d, ids ++ [id]) :: layers'
    else (d, ids) :: pushLayer depth id layers'
  end.

(** One test of the loop condition and, if it holds, one turn: [None]
    when the queue is empty. *)
Definition layerStep (adjList : gmap string (list string)) (st : LayerState)
  : option LayerState :=
  match ls_queue st with
  | [] => None
  | (id, depth) :: rest =>
    if decide (id ∈ ls_visited st)
    then Some {| ls_layers := ls_layers st;
                 ls_nodeDepth := ls_nodeDepth st;
                 ls_queue := rest;
                 ls_visited := ls_visited st |}
    else
      let visited := {[id]} ∪ ls_visited st in
      let children := default [] (adjList !! id) in
      Some {| ls_layers := pushLayer depth id (ls_layers st);
              ls_nodeDepth := <[id := depth]> (ls_nodeDepth st);
              ls_queue :=
                rest ++ map (λ childId, (childId, depth + 1))
                          (List.filter
                             (λ childId, negb (bool_decide (childId ∈ visited)))
                             children);
              ls_visited := visited |}
  end.

(** The [while (queue.length > 0)] loop of [hierarchicalLayout], run
    for at most [fuel] tests of its condition. *)
Fixpoint assignLayers (fuel : nat) (adjList : gmap string (list string))
    (st : LayerState) : option LayerState :=
  match fuel with
  | 0 => None
  | S fuel' =>
    match layerStep adjList st with
    | None => Some st
    | Some st' => assignLayers fuel' adjList st'
    end
  end.

Definition initLayers (rootId : string) : LayerState :=
  {| ls_layers := [];
     ls_nodeDepth := ∅;
     ls_queue := [(rootId, 0)];
     ls_visited := ∅ |}.

(** [new Map(nodes.map((n) => [n.id, n]))]: a later node replaces an
    earlier one of the same identifier. *)
Definition buildNodeMap (nodes : list ReactFlowNode)
  : gmap string ReactFlowNode :=
  foldl (λ m n, <[rfn_id n := n]> m) ∅ nodes.

(** The callback of [layers.forEach]: the nodes of one layer, side by
    side and centred on [x = 0]; an identifier without a node takes a
    slot but places nothing. *)
Definition placeLayer (nodeMap : gmap string ReactFlowNode) (depth : nat)
    (nodeIds : list string) : list ReactFlowNode :=
  let NODE_WIDTH := 250%Z in
  let NODE_HEIGHT := 150%Z in
  let HORIZONTAL_SPACING := 50%Z in
  let VERTICAL_SPACING := 100%Z in
  let y := inject_Z (Z.of_nat depth * (NODE_HEIGHT + VERTICAL_SPACING)) in
  let layerWidth :=
    (Z.of_nat (length nodeIds) * NODE_WIDTH
     + (Z.of_nat (length nodeIds) - 1) * HORIZONTAL_SPACING)%Z in
  let startX := (- inject_Z layerWidth / 2)%Q in
  mjoin (imap (λ index nodeId,
                 match nodeMap !! nodeId with
                 | Some node =>
                   [setPosition node
                      (startX + inject_Z (Z.of_nat index
                                          * (NODE_WIDTH + HORIZONTAL_SPACING)))%Q
                      y]
                 | None => []
                 end)
              nodeIds).

(** *** Double-precision products *)

(** [floor (log2 q)] for a positive [q]. *)
Definition floorLog2 (q : Q) : Z :=
  let e := (Z.log2 (Qnum q) - Z.log2 (Zpos (Qden q)))%Z in
  if Qle_bool (2 ^ e) q then e else (e - 1)%Z.

(** The integer nearest to [q], the even one of two that are equally
    near. *)
Definition roundHalfEven (q : Q) : Z :=
  let n := Qnum q in
  let d := Zpos (Qden q) in
  let f := (n / d)%Z in
  let r := (n mod d)%Z in
  match (2 * r ?= d)%Z with
  | Lt => f
  | Gt => (f + 1)%Z
  | Eq => if Z.even f then f else (f + 1)%Z
  end.

(** The double nearest to [q], ties to even: a double has 53
    significant bits, and its last place is never finer than
    [2 ^ -1074].  A JavaScript product of two doubles is the exact
    product rounded this way.  (Magnitudes of [2 ^ 1024] and more, which
    round to an infinity, do not occur below.) *)
Definition roundDouble (q : Q) : Q :=
  if Qeq_bool q 0 then 0%Q
  else
    let e := floorLog2 (Qabs q) in
    let u := Z.max (e - 52) (-1074) in
    (inject_Z (roundHalfEven (q / 2 ^ u)) * 2 ^ u)%Q.

(** The last loop: the nodes never reached go below the layers, each
    at an abscissa drawn by [Math.random()]; [random i] is what the
    [i]-th call returns, and [Math.random() * 500] is the rounded
    product. *)
Definition placeUnvisited (random : nat → Q) (layerCount : nat)
    (visited : gset string) (nodes : list ReactFlowNode)
  : list ReactFlowNode :=
  imap (λ i node,
          setPosition node (roundDouble (random i * 500))
            (inject_Z ((Z.of_nat layerCount + 1) * (150 + 100))))
       (List.filter (λ node, negb (bool_decide (rfn_id node ∈ visited)))
                    nodes).

(** [hierarchicalLayout], its loop bounded by [fuel]. *)
Definition hierarchicalLayout (fuel : nat) (random : nat → Q)
    (nodes : list ReactFlowNode) (edges : list ReactFlowEdge)
    (rootId : string) : option (list ReactFlowNode) :=
  let adjList := buildAdjList edges in
  match assignLayers fuel adjList (initLayers rootId) with
  | None => None
  | Some st =>
    let nodeMap := buildNodeMap nodes in
    let positionedNodes :=
      ls_layers st ≫= (λ layer, placeLayer nodeMap layer.1 layer.2) in
    Some (positionedNodes
          ++ placeUnvisited random (length (ls_layers st)) (ls_visited st)
               nodes)
  end.

(** *** Notions for the layout *)

(** One step along an edge of the diagram. *)
Definition flowRel (edges : list ReactFlowEdge) (a b : string) : Prop :=
  ∃ e, e ∈ edges ∧ rfe_source e = a ∧ rfe_target e = b.

(** A path of [n] edges from [rootId]. *)
Inductive pathIn (edges : list ReactFlowEdge) (rootId : string)
  : nat → string → Prop :=
  | pathIn_root : pathIn edges rootId 0 rootId
  | pathIn_step (n : nat) (a b : string) :
      pathIn edges rootId n a → flowRel edges a b →
      pathIn edges rootId (S n) b.

(** The quantity every turn of the layering loop decreases: the queue
    entries plus the edges whose source is not yet visited. *)
Definition layerMeasure (edges : list ReactFlowEdge) (st : LayerState) : nat :=
  length (ls_queue st)
  + length (List.filter
              (λ e, negb (bool_decide (rfe_source e ∈ ls_visited st))) edges).

(** A diagram for the examples: a root with two children, one of them
    pointing back, and a node that nothing points to. *)
Definition plainNode (id : string) : ReactFlowNode :=
  mkReactFlowNode id "default"
    (mkNodeData id OBJECT None None None None) (0, 0)%Q.

Definition plainEdge (s t : string) : ReactFlowEdge :=
  mkReactFlowEdge (s +:+ "-" +:+ t) s t None None None None.

Definition sampleNodes : list ReactFlowNode :=
  [plainNode "Query"; plainNode "A"; plainNode "B"; plainNode "Lost"].

Definition sampleEdges : list ReactFlowEdge :=
  [plainEdge "Query" "A"; plainEdge "Query" "B"; plainEdge "A" "Query";
   plainEdge "A" "B"].

(** The facts that hold of the locals of the layering loop between two
    turns. *)
Record layersInv (edges : list ReactFlowEdge) (rootId : string)
    (st : LayerState) : Prop :=
  mkLayersInv {
    li_nodup : NoDup (ls_layers st ≫= snd);
    li_visited : ls_visited st = list_to_set (ls_layers st ≫= snd);
    li_depths : (ls_layers st).*1 = seq 0 (length (ls_layers st));
    li_bound : Forall (λ cd, cd.2 ≤ length (ls_layers st)) (ls_queue st);
    li_paths :
      Forall (λ l, Forall (pathIn edges rootId l.1) l.2) (ls_layers st);
    li_queue : Forall (λ cd, pathIn edges rootId cd.2 cd.1) (ls_queue st);
    li_closed :
      ∀ a b, a ∈ ls_visited st → flowRel edges a b →
             b ∈ ls_visited st ∨ b ∈ (ls_queue st).*1;
    li_head :
      (ls_layers st = [] ∧ ls_queue st = [(rootId, 0)])
      ∨ (∃ rest, ls_layers st = (0, [rootId]) :: rest
                 ∧ Forall (λ cd, 0 < cd.2) (ls_queue st))
  }.

(** The layout of the example, with every draw equal to zero. *)
Definition sampleLayout : list ReactFlowNode :=
  Eval vm_compute in
    default [] (hierarchicalLayout 6 (λ _, 0%Q) sampleNodes sampleEdges "Query").

(** [k] has been placed at depth [d]. *)
Definition inLayer (layers : list (nat * list string)) (d : nat) (k : string)
  : Prop :=
  ∃ ids, (d, ids) ∈ layers ∧ k ∈ ids.

(** The facts about depths that make the layers those of a
    breadth-first traversal: the queue is sorted by depth and spans at
    most two depths, nothing placed is deeper than the head of the
    queue, and a successor of a placed identifier is placed or queued
    at most one level deeper. *)
Record layersMin (edges : list ReactFlowEdge) (st : LayerState) : Prop :=
  mkLayersMin {
    lm_sorted : StronglySorted le (ls_queue st).*2;
    lm_bound :
      ∀ h dh, head (ls_queue st) = Some (h, dh) →
              Forall (λ cd, cd.2 ≤ S dh) (ls_queue st)
              ∧ Forall (λ l, l.1 ≤ dh) (ls_layers st);
    lm_closed :
      ∀ a da b, inLayer (ls_layers st) da a → flowRel edges a b →
        (∃ db, inLayer (ls_layers st) db b ∧ db ≤ S da)
        ∨ (∃ db, (b, db) ∈ ls_queue st ∧ db ≤ S da)
  }.

(** *** The layers, stated without the loop *)

(** The targets of the edges that leave [k], in the order of the
    edges. *)
Definition childrenOf (edges : list ReactFlowEdge) (k : string)
  : list string :=
  rfe_target <$> List.filter (λ e, bool_decide (rfe_source e = k)) edges.

(** The identifiers of [l] that are not in [seen], each once, in the
    order of their first occurrence. *)
Fixpoint firstNew (seen : gset string) (l : list string) : list string :=
  match l with
  | [] => []
  | k :: l' =>
    if decide (k ∈ seen) then firstNew seen l'
    else k :: firstNew ({[k]} ∪ seen) l'
  end.

(** The layer that follows the layers [previous]: the root alone when
    there is none; otherwise the targets of the edges leaving the last
    layer, taken identifier by identifier and edge by edge, that are in
    no layer yet. *)
Definition layerAfter (edges : list ReactFlowEdge) (rootId : string)
    (previous : list (list string)) : list string :=
  match last previous with
  | None => [rootId]
  | Some ids =>
    firstNew (list_to_set (mjoin previous)) (ids ≫= childrenOf edges)
  end.

(** [layers] are the layers of the diagram below [rootId]: each is the
    layer that follows its predecessors and is not empty, and no layer
    follows them all. *)
Definition isLayering (edges : list ReactFlowEdge) (rootId : string)
    (layers : list (list string)) : Prop :=
  (∀ d ids, layers !! d = Some ids →
     ids = layerAfter edges rootId (take d layers) ∧ ids ≠ [])
  ∧ layerAfter edges rootId layers = [].

(** [d] is the length of a shortest path of edges from [rootId] to
    [k]. *)
Definition distanceFrom (edges : list ReactFlowEdge) (rootId : string)
    (k : string) (d : nat) : Prop :=
  pathIn edges rootId d k ∧ ∀ m, pathIn edges rootId m k → d ≤ m.

(** The state of the layering loop seen layer by layer: the layers
    [complete] are finished, [current] is the part of the next layer
    placed so far, the queue holds the entries [pending] of that layer
    and then the entries [upcoming] of the layer after it. *)
Record layersOrder (edges : list ReactFlowEdge) (rootId : string)
    (st : LayerState) (complete : list (list string)) (current : list string)
    (pending upcoming : list (string * nat)) : Prop :=
  mkLayersOrder {
    lo_queue : ls_queue st = pending ++ upcoming;
    lo_pending : Forall (λ cd, cd.2 = length complete) pending;
    lo_upcoming : Forall (λ cd, cd.2 = S (length complete)) upcoming;
    lo_layers :
      (ls_layers st).*2
      = complete ++ (if decide (current = []) then [] else [current]);
    lo_complete :
      ∀ d ids, complete !! d = Some ids →
        ids = layerAfter edges rootId (take d complete) ∧ ids ≠ [];
    lo_current :
      current ++ firstNew (ls_visited st) pending.*1
      = layerAfter edges rootId complete;
    lo_next :
      ∀ seen : gset string, ls_visited st ⊆ seen →
        firstNew seen upcoming.*1
        = firstNew seen (current ≫= childrenOf edges);
    lo_started : current = [] → upcoming = []
  }.

(** ** Tactics *)



(** * Properties *)

(** ** Strings *)

Lemma startsWith_spec (s p : string) :
  startsWith s p = true ↔ ∃ t, s = p +:+ t.
Proof.
  unfold startsWith. revert s.
  induction p as [|a p IH]; intros s.
  - split; [intros _; by exists s | by destruct s].
  - destruct s as [|b s].
    + split; [done | intros [t Ht]; discriminate].
    + simpl. destruct (Ascii.ascii_dec a b) as [->|Hne].
      * rewrite IH. split; intros [t Ht]; exists t.
        -- by rewrite Ht.
        -- by injection Ht.
      * split; [done | intros [t Ht]; by injection Ht].
Qed.

Lemma substring_all (p : string) :
  String.substring 0 (String.length p) p = p.
Proof. induction p as [|b p IHp]; simpl; [done | by rewrite IHp]. Qed.

Lemma substring_append_r (t p : string) :
  String.substring (String.length t) (String.length p) (t +:+ p) = p.
Proof. induction t as [|a t IH]; [apply substring_all | exact IH]. Qed.

Lemma substring_split (s : string) (n : nat) :
  n ≤ String.length s →
  s = String.substring 0 n s
      +:+ String.substring n (String.length s - n) s.
Proof.
  revert n. induction s as [|a s IH]; intros [|n] Hn.
  - done.
  - simpl in Hn. lia.
  - rewrite Nat.sub_0_r, substring_all. done.
  - change (String a s = String a (String.substring 0 n s
             +:+ String.substring n (String.length s - n) s)).
    rewrite <- IH; [done | simpl in Hn; lia].
Qed.

Lemma length_append (s t : string) :
  String.length (s +:+ t) = String.length s + String.length t.
Proof. induction s as [|a s IH]; simpl; [done | by rewrite IH]. Qed.

Lemma endsWith_spec (s p : string) :
  endsWith s p = true ↔ ∃ t, s = t +:+ p.
Proof.
  unfold endsWith. split.
  - case_decide as Hle; [|done]. intros Heq%String.eqb_eq.
    exists (String.substring 0 (String.length s - String.length p) s).
    etrans; [apply (substring_split s (String.length s - String.length p)); lia|].
    replace (String.length s - (String.length s - String.length p))
      with (String.length p) by lia.
    by rewrite Heq.
  - intros [t ->]. rewrite length_append.
    rewrite decide_True by lia.
    replace (String.length t + String.length p - String.length p)
      with (String.length t) by lia.
    rewrite substring_append_r. apply String.eqb_refl.
Qed.

(** ** The parser *)

Lemma parseIntrospection_inl (d : IntrospectionData) (e : CoreError) :
  parseIntrospection d = inl e ↔
  (e = DataTypeError ∧ data d = None)
  ∨ (e = InvalidInputError
     ∧ ∃ result, data d = Some result
         ∧ (result_schema result = None
            ∨ ∃ s, result_schema result = Some s ∧ schema_types s = None)).
Proof.
  unfold parseIntrospection. destruct d as [[[sch]|]]; cbn [data result_schema].
  - destruct sch as [[qt [ts|]]|]; cbn [schema_types]; split.
    + done.
    + intros [[_ [=]]|[_ (r & [= <-] & [[=]|(s & [= <-] & [=])])]].
    + intros [= <-]. right. split; [done|]. eexists. split; [done|].
      right. by eexists.
    + by intros [[_ [=]]|[-> _]].
    + intros [= <-]. right. split; [done|]. eexists. split; [done|]. by left.
    + by intros [[_ [=]]|[-> _]].
  - split.
    + intros [= <-]. by left.
    + by intros [[-> _]|[_ (r & [=] & _)]].
Qed.

Lemma parseIntrospection_inr (d : IntrospectionData)
    (p : ParsedIntrospection) :
  parseIntrospection d = inr p →
  ∃ s ts, data_schema d = Some s ∧ schema_types s = Some ts
    ∧ parsed_types p
      = List.filter (λ t, negb (startsWith (type_name t) "__")) ts
    ∧ (schema_queryType s = None → parsed_queryTypeName p = None).
Proof.
  unfold parseIntrospection, data_schema.
  destruct (data d) as [[sch]|]; [|done]. cbn [result_schema].
  destruct sch as [s|]; [|done].
  destruct (schema_types s) as [ts|] eqn:Hts; [|done].
  intros [= <-]. exists s, ts. split_and!; [done..|].
  cbn [parsed_queryTypeName]. by intros ->.
Qed.


Lemma parsed_queryTypeName_nonempty (d : IntrospectionData)
    (p : ParsedIntrospection) :
  parseIntrospection d = inr p → parsed_queryTypeName p ≠ Some EmptyString.
Proof.
  unfold parseIntrospection.
  destruct (data d) as [[[[qt [ts|]]|]]|]; try done.
  intros [= <-]. simpl. destruct qt as [q|]; [|done].
  case_decide; congruence.
Qed.

Lemma parsed_types_elem (ts : list IntrospectionType) (t : IntrospectionType) :
  t ∈ List.filter (λ t, negb (startsWith (type_name t) "__")) ts
  ↔ t ∈ ts ∧ ¬ ∃ r, type_name t = "__" +:+ r.
Proof.
  rewrite !list_elem_of_In, filter_In, negb_true_iff.
  rewrite <- startsWith_spec, not_true_iff_false. done.
Qed.

Lemma parsed_types_sublist (ts : list IntrospectionType) :
  List.filter (λ t, negb (startsWith (type_name t) "__")) ts `sublist_of` ts.
Proof.
  induction ts as [|t ts IH]; simpl; [done|].
  destruct (negb _); by constructor.
Qed.

(** ** The type-reference resolver and the node factory *)

Lemma isWrapper_spec (k : TypeKind) :
  isWrapper k = true ↔ k = LIST ∨ k = NON_NULL.
Proof.
  destruct k; simpl; split; intros H;
    try done; try (by left); try (by right); by destruct H.
Qed.

Lemma unwrapRef_wrapRef (ws : list TypeKind) (r : IntrospectionTypeRef) :
  Forall (λ k, isWrapper k = true) ws →
  unwrapRef (wrapRef ws r) = unwrapRef r.
Proof.
  induction 1 as [|k ws Hk _ IH]; [done|].
  simpl. by rewrite Hk.
Qed.

Lemma extractFields_spec (t : IntrospectionType) :
  extractFields t =
    match type_fields t with
    | Some (f :: fs) =>
      Some (map (λ f, mkFieldInfo (field_name f)
                        (orUnknown (unwrapRef (field_type f)))
                        (field_description f)) (f :: fs))
    | _ => None
    end.
Proof. unfold extractFields. by destruct (type_fields t) as [[|f fs]|]. Qed.

(** ** The node mapping and the lookup table *)

Lemma map_set_fresh (k : string) (v : TypeNode) (m : NodeMap) :
  k ∉ map_keys m → map_set k v m = m ++ [(k, v)].
Proof.
  induction m as [|[k' v'] m IH]; simpl; [done|].
  intros [Hne Hk]%not_elem_of_cons.
  rewrite decide_False by done. f_equal. by apply IH.
Qed.

Lemma map_get_elem (k : string) (m : NodeMap) :
  k ∈ map_keys m → ∃ v, map_get k m = Some v ∧ (k, v) ∈ m.
Proof.
  induction m as [|[k' v'] m IH]; simpl.
  - by intros ?%elem_of_nil.
  - intros Hk. destruct (decide (k = k')) as [->|Hne].
    + exists v'. split; [done | left].
    + apply elem_of_cons in Hk as [?|Hk]; [done|].
      destruct (IH Hk) as (v & Hv & Hin). exists v. split; [done | by right].
Qed.

Lemma keys_elem (m : NodeMap) (k : string) :
  k ∈ map_keys m ↔ ∃ n, (k, n) ∈ m.
Proof.
  unfold map_keys. rewrite list_elem_of_fmap. split.
  - intros ([k' n] & -> & Hin). by exists n.
  - intros [n Hin]. by exists (k, n).
Qed.

Lemma buildTypeMap_acc (ts : list IntrospectionType)
    (m : gmap string IntrospectionType) (k : string) (t : IntrospectionType) :
  foldl (λ m t, <[type_name t := t]> m) m ts !! k = Some t →
  (t ∈ ts ∧ type_name t = k) ∨ m !! k = Some t.
Proof.
  revert m. induction ts as [|t' ts IH]; intros m; simpl; [by right|].
  intros [[Hin Hk]|Hm]%IH.
  - left. split; [by right | done].
  - destruct (decide (type_name t' = k)) as [<-|Hne].
    + rewrite lookup_insert_eq in Hm. injection Hm as ->.
      left. split; [left | done].
    + rewrite lookup_insert_ne in Hm by done. by right.
Qed.

Lemma buildTypeMap_lookup (ts : list IntrospectionType) (k : string)
    (t : IntrospectionType) :
  buildTypeMap ts !! k = Some t → t ∈ ts ∧ type_name t = k.
Proof.
  intros [H|H]%buildTypeMap_acc; [done|].
  by rewrite lookup_empty in H.
Qed.

Lemma buildTypeMap_acc_Some (ts : list IntrospectionType)
    (m : gmap string IntrospectionType) (k : string) :
  k ∈ map type_name ts ∨ is_Some (m !! k) →
  is_Some (foldl (λ m t, <[type_name t := t]> m) m ts !! k).
Proof.
  revert m. induction ts as [|t' ts IH]; intros m; simpl.
  - intros [?%elem_of_nil|?]; done.
  - intros [Hk|Hm]; apply IH.
    + apply elem_of_cons in Hk as [->|Hk]; [right | by left].
      rewrite lookup_insert_eq. by eexists.
    + right. destruct (decide (type_name t' = k)) as [<-|Hne].
      * rewrite lookup_insert_eq. by eexists.
      * by rewrite lookup_insert_ne.
Qed.

Lemma buildTypeMap_is_Some (ts : list IntrospectionType) (k : string) :
  is_Some (buildTypeMap ts !! k) ↔ ∃ t, t ∈ ts ∧ type_name t = k.
Proof.
  split.
  - intros [t Ht]. exists t. by apply buildTypeMap_lookup.
  - intros (t & Hin & <-). apply buildTypeMap_acc_Some. left.
    by apply list_elem_of_fmap_2.
Qed.

Lemma buildTypeMap_snoc (ts : list IntrospectionType) (t : IntrospectionType) :
  buildTypeMap (ts ++ [t]) = <[type_name t := t]> (buildTypeMap ts).
Proof. unfold buildTypeMap. by rewrite foldl_app. Qed.

Lemma buildTypeMap_last (ts : list IntrospectionType) (k : string) :
  buildTypeMap ts !! k
  = last (List.filter (λ t, bool_decide (type_name t = k)) ts).
Proof.
  induction ts as [|t ts IH] using rev_ind; [done|].
  rewrite buildTypeMap_snoc, List.filter_app. simpl.
  destruct (decide (type_name t = k)) as [<-|Hne].
  - rewrite lookup_insert_eq, bool_decide_eq_true_2 by done.
    by rewrite last_snoc.
  - rewrite lookup_insert_ne, bool_decide_eq_false_2 by done.
    by rewrite app_nil_r.
Qed.

(** ** The references between raw records *)

Lemma resolvesTo_unwrapRef (r : IntrospectionTypeRef) (n : string) :
  resolvesTo r n → unwrapRef r = Some n.
Proof.
  induction 1 as [[k nm o] n Hl Hn Hname|[k nm o] inner n Hk Hinner _ IH];
    simpl in *.
  - by destruct k.
  - rewrite Hinner. by destruct Hk as [->| ->].
Qed.

Lemma recordOf_lookup (types : list IntrospectionType) (a : string)
    (t : IntrospectionType) :
  recordOf types a t ↔ buildTypeMap types !! a = Some t.
Proof. unfold recordOf. by rewrite buildTypeMap_last. Qed.

(** ** Edges *)

Lemma edgeRel_app_l (es es' : list Edge) (a b : string) :
  rtc (edgeRel es) a b → rtc (edgeRel (es ++ es')) a b.
Proof.
  apply rtc_subrel. intros x y (e & He & Hs & Ht).
  exists e. split; [|done]. apply elem_of_app. by left.
Qed.

Lemma nodeEdges_source (cur : string) (node : TypeNode) (e : Edge) :
  e ∈ nodeEdges cur node → source e = cur.
Proof.
  unfold nodeEdges. rewrite !elem_of_app, !list_elem_of_fmap.
  intros [(f & -> & _)|[(i & -> & _)|(m & -> & _)]]; done.
Qed.

Lemma edgesOf_source (typeMap : gmap string IntrospectionType) (k : string)
    (e : Edge) :
  e ∈ edgesOf typeMap k → source e = k.
Proof.
  unfold edgesOf. destruct (typeMap !! k) as [typeData|].
  - apply nodeEdges_source.
  - by intros ?%elem_of_nil.
Qed.

Lemma expand_foldl (typeMap : gmap string IntrospectionType) (cur : string)
    (node : TypeNode) (st : State) :
  expand typeMap cur node st = foldl (visit typeMap) st (nodeEdges cur node).
Proof.
  unfold expand, nodeEdges. rewrite !foldl_app, !foldl_fmap.
  by destruct (node_fields node), (node_interfaces node),
    (node_possibleTypes node).
Qed.

Lemma bind_edges_nodes (typeMap : gmap string IntrospectionType)
    (m : NodeMap) :
  Forall (λ kn, createTypeNode <$> typeMap !! kn.1 = Some kn.2) m →
  map_keys m ≫= edgesOf typeMap = m ≫= (λ kn, nodeEdges kn.1 kn.2).
Proof.
  induction 1 as [|[k n] m Hkn _ IH]; [done|].
  unfold map_keys in *. rewrite fmap_cons, !bind_cons, IH. f_equal.
  cbn [fst snd] in *. unfold edgesOf.
  destruct (typeMap !! k) as [typeData|]; [|done]. by injection Hkn as <-.
Qed.

(** A reference that the specification counts and whose field case
    resolves to a non-empty name is a reference of the normalised
    record. *)
Lemma followed_refersTo (types : list IntrospectionType) (a b : string) :
  followedRefersTo types a b → refersTo (buildTypeMap types) a b.
Proof.
  intros (t & Ht%recordOf_lookup & Href & Hb%buildTypeMap_is_Some).
  split; [|done]. unfold edgesOf. rewrite Ht. unfold nodeEdges.
  rewrite !map_app, !elem_of_app.
  destruct Href as [[(fs & f & Hfs & Hf & Hr) Hne]|[Hi|Hm]].
  - left. cbn [createTypeNode node_fields]. rewrite extractFields_spec, Hfs.
    destruct fs as [|f0 fs]; [by apply elem_of_nil in Hf|].
    cbn [default]. apply list_elem_of_fmap.
    exists (fieldEdge a (mkFieldInfo (field_name f) b (field_description f))).
    split; [done|]. apply list_elem_of_fmap.
    eexists. split; [reflexivity|]. apply list_elem_of_fmap.
    exists f. split; [|done].
    rewrite (resolvesTo_unwrapRef _ _ Hr). cbn [orUnknown].
    by rewrite decide_False.
  - right. left. destruct Hi as (rs & r & Hrs & Hr & Hres).
    cbn [createTypeNode node_interfaces]. rewrite Hrs. cbn [unwrapAll default].
    apply list_elem_of_fmap. exists (implementsEdge a b). split; [done|].
    apply list_elem_of_fmap. exists b. split; [done|].
    apply list_elem_of_omap. exists r. split; [done|].
    by apply resolvesTo_unwrapRef.
  - right. right. destruct Hm as (rs & r & Hrs & Hr & Hres).
    cbn [createTypeNode node_possibleTypes]. rewrite Hrs.
    cbn [unwrapAll default].
    apply list_elem_of_fmap. exists (unionEdge a b). split; [done|].
    apply list_elem_of_fmap. exists b. split; [done|].
    apply list_elem_of_omap. exists r. split; [done|].
    by apply resolvesTo_unwrapRef.
Qed.

(** ** The traversal keeps its state consistent *)

Section Traversal.
Variable typeMap : gmap string IntrospectionType.
Variable root : string.

Lemma visit_edges (st : State) (e : Edge) :
  st_edges (visit typeMap st e) = st_edges st ++ [e].
Proof.
  unfold visit, discover. simpl.
  case_decide; [done|]. by destruct (typeMap !! target e).
Qed.

(** Pushing an edge whose target needs no new node. *)
Lemma pushEdge_consistent (front : list string) (st : State) (e : Edge) :
  consistent typeMap root front st →
  source e ∈ front →
  (is_Some (typeMap !! target e) → target e ∈ map_keys (st_nodes st)) →
  consistent typeMap root front (pushEdge e st).
Proof.
  intros [Hroot Hk Hnd Hv Hn Hs Ht Hr] Hsrc Htgt.
  split; simpl; try done.
  - apply Forall_app. split; [done|].
    apply Forall_singleton. rewrite Hk. apply elem_of_app. by left.
  - apply Forall_app. split; [done|]. by apply Forall_singleton.
  - eapply Forall_impl; [exact Hr|]. intros k. apply edgeRel_app_l.
Qed.

(** Pushing an edge and creating the node of its target. *)
Lemma discover_consistent (front : list string) (st : State) (e : Edge)
    (typeData : IntrospectionType) :
  consistent typeMap root front st →
  source e ∈ front →
  target e ∉ st_visited st →
  typeMap !! target e = Some typeData →
  consistent typeMap root front
    {| st_nodes := map_set (target e) (createTypeNode typeData) (st_nodes st);
       st_edges := st_edges st ++ [e];
       st_visited := {[target e]} ∪ st_visited st;
       st_queue := st_queue st ++ [target e] |}.
Proof.
  intros [Hroot Hk Hnd Hv Hn Hs Ht Hr] Hsrc Hnew Htm.
  assert (target e ∉ map_keys (st_nodes st)) as Hfresh.
  { by rewrite Hv, elem_of_list_to_set in Hnew. }
  assert (source e ∈ map_keys (st_nodes st)) as Hsrc'.
  { rewrite Hk. apply elem_of_app. by left. }
  rewrite map_set_fresh by done.
  assert (map_keys (st_nodes st ++ [(target e, createTypeNode typeData)])
          = map_keys (st_nodes st) ++ [target e]) as Hsnoc.
  { unfold map_keys. by rewrite fmap_app. }
  split; cbn [st_nodes st_edges st_visited st_queue]; rewrite ?Hsnoc.
  - apply elem_of_app. by left.
  - by rewrite Hk, <- app_assoc.
  - apply NoDup_app. split_and!; [done| |apply NoDup_singleton].
    intros x Hx ->%list_elem_of_singleton. done.
  - rewrite list_to_set_app_L, Hv. set_solver.
  - apply Forall_app. split; [done|].
    apply Forall_singleton. cbn [fst snd]. by rewrite Htm.
  - apply Forall_app. split.
    + eapply Forall_impl; [exact Hs|]. intros x Hx.
      apply elem_of_app. by left.
    + apply Forall_singleton. apply elem_of_app. by left.
  - apply Forall_app. split.
    + eapply Forall_impl; [exact Ht|]. intros x Hx Hsome.
      apply elem_of_app. left. by apply Hx.
    + apply Forall_singleton. intros _.
      apply elem_of_app. right. apply list_elem_of_singleton. done.
  - apply Forall_app. split.
    + eapply Forall_impl; [exact Hr|]. intros k. apply edgeRel_app_l.
    + apply Forall_singleton.
      eapply rtc_r.
      * apply edgeRel_app_l. eapply Forall_forall in Hr; [exact Hr|done].
      * exists e. split_and!; [|done|done].
        apply elem_of_app. right. by apply list_elem_of_singleton.
Qed.

Lemma visit_consistent (front : list string) (st : State) (e : Edge) :
  consistent typeMap root front st →
  source e ∈ front →
  consistent typeMap root front (visit typeMap st e).
Proof.
  intros Hc Hsrc. unfold visit, discover. simpl.
  destruct (decide (target e ∈ st_visited st)) as [Hin|Hnew].
  - apply pushEdge_consistent; [done..|]. intros _.
    by rewrite (c_visited _ _ _ _ Hc), elem_of_list_to_set in Hin.
  - destruct (typeMap !! target e) as [typeData|] eqn:Htm.
    + by apply discover_consistent.
    + apply pushEdge_consistent; [done..|].
      rewrite Htm. by intros ?%is_Some_None.
Qed.

(** A node is created only under a name that is not yet a key. *)
Lemma visit_nodes (front : list string) (st : State) (e : Edge) :
  consistent typeMap root front st →
  st_nodes (visit typeMap st e) = st_nodes st
  ∨ (target e ∉ map_keys (st_nodes st)
     ∧ ∃ typeData, typeMap !! target e = Some typeData
         ∧ st_nodes (visit typeMap st e)
           = st_nodes st ++ [(target e, createTypeNode typeData)]).
Proof.
  intros Hc. unfold visit, discover.
  cbn [pushEdge st_nodes st_edges st_visited st_queue].
  destruct (decide (target e ∈ st_visited st)) as [Hin|Hnew]; [by left|].
  destruct (typeMap !! target e) as [typeData|]; [|by left].
  right. rewrite (c_visited _ _ _ _ Hc), elem_of_list_to_set in Hnew.
  split; [done|]. exists typeData. split; [done|].
  cbn [st_nodes]. by apply map_set_fresh.
Qed.

Lemma foldl_visit_consistent (front : list string) (es : list Edge)
    (st : State) :
  consistent typeMap root front st →
  Forall (λ e, source e ∈ front) es →
  consistent typeMap root front (foldl (visit typeMap) st es)
  ∧ st_edges (foldl (visit typeMap) st es) = st_edges st ++ es.
Proof.
  revert st. induction es as [|e es IH]; intros st Hc Hsrc; simpl.
  - by rewrite app_nil_r.
  - apply Forall_cons in Hsrc as [He Hes].
    destruct (IH (visit typeMap st e)) as [Hc' Hedges]; [|done|].
    { by apply visit_consistent. }
    split; [done|]. by rewrite Hedges, visit_edges, <- app_assoc.
Qed.

Lemma dequeue_consistent (seen : list string) (st : State) (cur : string)
    (rest : list string) :
  consistent typeMap root seen st → st_queue st = cur :: rest →
  consistent typeMap root (seen ++ [cur]) (dequeue st rest).
Proof.
  intros [Hroot Hk Hnd Hv Hns Hs Ht Hr] Hq.
  split; cbn [dequeue st_nodes st_edges st_visited st_queue]; try done.
  by rewrite Hk, Hq, <- app_assoc.
Qed.

(** A turn of the loop never crashes on its unchecked lookup, and it
    keeps the invariant. *)
Lemma loopStep_inv (seen : list string) (st : State) :
  loopInv typeMap root seen st →
  match loopStep typeMap st with
  | Exit => st_queue st = []
  | Crash => False
  | Next cur st' =>
    (∃ rest, st_queue st = cur :: rest)
    ∧ cur ∈ map_keys (st_nodes st)
    ∧ loopInv typeMap root (seen ++ [cur]) st'
  end.
Proof.
  intros [Hc Hedges]. unfold loopStep.
  destruct (st_queue st) as [|cur rest] eqn:Hq; [done|].
  assert (cur ∈ map_keys (st_nodes st)) as Hcur.
  { rewrite (c_keys _ _ _ _ Hc), Hq. apply elem_of_app. right. left. }
  destruct (map_get_elem _ _ Hcur) as (node & -> & Hin).
  split; [by eexists|]. split; [done|].
  pose proof (c_nodes _ _ _ _ Hc) as Hn.
  eapply Forall_forall in Hn; [|exact Hin]. simpl in Hn.
  destruct (typeMap !! cur) as [typeData|] eqn:Htm; [|done].
  injection Hn as <-.
  rewrite expand_foldl.
  destruct (foldl_visit_consistent (seen ++ [cur])
              (nodeEdges cur (createTypeNode typeData)) (dequeue st rest))
    as [Hc' Hedges'].
  - by apply dequeue_consistent.
  - apply Forall_forall. intros e ->%nodeEdges_source.
    apply elem_of_app. right. left.
  - split; [done|]. rewrite Hedges'. simpl.
    rewrite Hedges, bind_app. f_equal. simpl.
    unfold edgesOf. by rewrite Htm, app_nil_r.
Qed.

Lemma bfs_inv (fuel : nat) (seen : list string) (st : State)
    (r : CoreError + State) :
  loopInv typeMap root seen st →
  bfs fuel typeMap st = Some r →
  ∃ st', r = inr st' ∧ st_queue st' = []
         ∧ loopInv typeMap root (seen ++ dequeued fuel typeMap st) st'.
Proof.
  revert seen st. induction fuel as [|fuel IH]; intros seen st Hinv; [done|].
  simpl. pose proof (loopStep_inv _ _ Hinv) as Hstep.
  destruct (loopStep typeMap st) as [| |cur st1].
  - intros [= <-]. exists st. by rewrite app_nil_r.
  - done.
  - destruct Hstep as (_ & _ & Hinv1). intros Hbfs.
    destruct (IH _ _ Hinv1 Hbfs) as (st' & -> & Hq & Hinv').
    exists st'. by rewrite <- app_assoc in Hinv'.
Qed.

Lemma stateAfter_inv (n : nat) (seen : list string) (st st' : State) :
  loopInv typeMap root seen st →
  stateAfter n typeMap st = Some st' →
  ∃ seen', loopInv typeMap root seen' st'.
Proof.
  revert seen st. induction n as [|n IH]; intros seen st Hinv; simpl.
  - intros [= <-]. by exists seen.
  - pose proof (loopStep_inv _ _ Hinv) as Hstep.
    destruct (loopStep typeMap st) as [| |cur st1]; [done..|].
    destruct Hstep as (_ & _ & Hinv1). by apply IH with (seen ++ [cur]).
Qed.

(** The state is consistent also in the middle of a loop turn, after
    any number of turns of the inner loops. *)
Lemma mid_consistent (n : nat) (seen : list string) (st0 st : State)
    (cur : string) (rest : list string) (node : TypeNode) (es : list Edge) :
  loopInv typeMap root seen st0 →
  stateAfter n typeMap st0 = Some st →
  st_queue st = cur :: rest →
  es `prefix_of` nodeEdges cur node →
  ∃ front,
    consistent typeMap root front (foldl (visit typeMap) (dequeue st rest) es).
Proof.
  intros Hinv0 Hst Hq [es' Hes].
  destruct (stateAfter_inv _ _ _ _ Hinv0 Hst) as [seen' [Hc _]].
  exists (seen' ++ [cur]).
  apply foldl_visit_consistent; [by apply dequeue_consistent|].
  apply Forall_forall. intros e He.
  rewrite (nodeEdges_source cur node e).
  - apply elem_of_app. right. apply list_elem_of_here.
  - rewrite Hes. apply elem_of_app. by left.
Qed.

Lemma final_keys (seen : list string) (st : State) :
  loopInv typeMap root seen st → st_queue st = [] →
  map_keys (st_nodes st) = seen.
Proof. intros [Hc _] Hq. by rewrite (c_keys _ _ _ _ Hc), Hq, app_nil_r. Qed.

Lemma node_from_table (seen : list string) (st : State) (k : string)
    (n : TypeNode) :
  loopInv typeMap root seen st → (k, n) ∈ st_nodes st →
  ∃ typeData, typeMap !! k = Some typeData ∧ n = createTypeNode typeData.
Proof.
  intros [Hc _] Hin. pose proof (c_nodes _ _ _ _ Hc) as Hn.
  eapply Forall_forall in Hn; [|exact Hin]. cbn [fst snd] in Hn.
  destruct (typeMap !! k) as [typeData|]; [|done].
  injection Hn as <-. by exists typeData.
Qed.

Lemma returned_edges (seen : list string) (st : State) :
  loopInv typeMap root seen st → st_queue st = [] →
  st_edges st = st_nodes st ≫= (λ kn, nodeEdges kn.1 kn.2).
Proof.
  intros Hinv Hq. pose proof (final_keys _ _ Hinv Hq) as Hkeys.
  destruct Hinv as [Hc ->]. rewrite <- Hkeys.
  apply bind_edges_nodes, (c_nodes _ _ _ _ Hc).
Qed.

(** ** Termination *)

Lemma visit_measure (st : State) (e : Edge) :
  measure typeMap (visit typeMap st e) = measure typeMap st.
Proof.
  unfold visit, discover, measure.
  cbn [pushEdge st_nodes st_edges st_visited st_queue].
  destruct (decide (target e ∈ st_visited st)) as [Hin|Hnew]; [done|].
  destruct (typeMap !! target e) as [typeData|] eqn:Htm; [|done].
  cbn [st_visited st_queue]. rewrite length_app. cbn [length].
  assert (dom typeMap ∖ st_visited st
          = {[target e]} ∪ dom typeMap ∖ ({[target e]} ∪ st_visited st))
    as ->.
  { apply set_eq. intros x.
    assert (target e ∈ dom typeMap) by (apply elem_of_dom; by eexists).
    destruct (decide (x = target e)) as [->|]; set_solver. }
  rewrite (size_union (C:=gset string) {[target e]}
             (dom typeMap ∖ ({[target e]} ∪ st_visited st))) by set_solver.
  rewrite size_singleton. lia.
Qed.

Lemma foldl_visit_measure (es : list Edge) (st : State) :
  measure typeMap (foldl (visit typeMap) st es) = measure typeMap st.
Proof.
  revert st. induction es as [|e es IH]; intros st; simpl; [done|].
  by rewrite IH, visit_measure.
Qed.

Lemma loopStep_measure (st st' : State) (cur : string) :
  loopStep typeMap st = Next cur st' →
  S (measure typeMap st') = measure typeMap st.
Proof.
  unfold loopStep.
  destruct (st_queue st) as [|c rest] eqn:Hq; [done|].
  destruct (map_get c (st_nodes st)) as [node|]; [|done].
  intros [= <- <-]. rewrite expand_foldl, foldl_visit_measure.
  unfold measure. simpl. by rewrite Hq.
Qed.

Lemma bfs_terminates (fuel : nat) (st : State) :
  measure typeMap st < fuel → is_Some (bfs fuel typeMap st).
Proof.
  revert st. induction fuel as [|fuel IH]; intros st Hlt; [lia|].
  simpl. destruct (loopStep typeMap st) as [| |cur st1] eqn:Hstep;
    [by eexists..|].
  apply IH. apply loopStep_measure in Hstep. lia.
Qed.

Lemma bfs_more_fuel (fuel fuel' : nat) (st : State) (r : CoreError + State) :
  fuel ≤ fuel' → bfs fuel typeMap st = Some r → bfs fuel' typeMap st = Some r.
Proof.
  revert fuel' st. induction fuel as [|fuel IH]; intros fuel' st Hle; [done|].
  destruct fuel' as [|fuel']; [lia|]. simpl.
  destruct (loopStep typeMap st) as [| |cur st1]; [done..|].
  apply IH. lia.
Qed.

End Traversal.

(** ** From the document to the returned graph *)

Lemma initState_inv (typeMap : gmap string IntrospectionType)
    (typeData : IntrospectionType) :
  typeMap !! type_name typeData = Some typeData →
  loopInv typeMap (type_name typeData) [] (initState (createTypeNode typeData)).
Proof.
  intros Htm. split; [|done].
  split; cbn -[createTypeNode]; cbn [createTypeNode node_name].
  - left.
  - done.
  - apply NoDup_singleton.
  - done.
  - apply Forall_singleton. cbn [fst snd]. by rewrite Htm.
  - apply Forall_nil_2.
  - apply Forall_nil_2.
  - apply Forall_singleton. apply rtc_refl.
Qed.

Lemma initState_measure (typeMap : gmap string IntrospectionType)
    (typeData : IntrospectionType) :
  typeMap !! type_name typeData = Some typeData →
  measure typeMap (initState (createTypeNode typeData)) = size typeMap.
Proof.
  intros Htm. unfold measure, initState.
  cbn [st_queue st_visited createTypeNode node_name app length].
  rewrite <- size_dom.
  assert (type_name typeData ∈ dom typeMap) as Hin.
  { apply elem_of_dom. by eexists. }
  rewrite size_difference by set_solver.
  rewrite union_empty_r_L, size_singleton.
  assert (size (dom typeMap) ≠ 0); [|lia].
  intros Hz%size_empty_inv. set_solver.
Qed.

Lemma findRoot_inr (d : IntrospectionData)
    (typeMap : gmap string IntrospectionType) (typeData : IntrospectionType) :
  findRoot d = inr (typeMap, typeData) →
  ∃ p, parseIntrospection d = inr p
       ∧ parsed_queryTypeName p = Some (type_name typeData)
       ∧ typeMap = buildTypeMap (parsed_types p)
       ∧ typeMap !! type_name typeData = Some typeData.
Proof.
  unfold findRoot.
  destruct (parseIntrospection d) as [e|p] eqn:Hp; [done|].
  destruct (parsed_queryTypeName p) as [q|] eqn:Hqn; [|done].
  case_decide; [done|].
  destruct (buildTypeMap (parsed_types p) !! q) as [t|] eqn:Hq; [|done].
  intros [= <- <-]. exists p.
  apply buildTypeMap_lookup in Hq as Hname. destruct Hname as [_ <-].
  done.
Qed.

(** The ways [extractGraph] fails before its loop, and the one way it
    reaches the loop. *)
Lemma findRoot_spec (d : IntrospectionData) :
  match findRoot d with
  | inl InvalidInputError => parseIntrospection d = inl InvalidInputError
  | inl DataTypeError => data d = None
  | inl NoRootTypeError =>
    ∃ p, parseIntrospection d = inr p ∧ parsed_queryTypeName p = None
  | inl RootTypeNotFoundError =>
    ∃ p q, parseIntrospection d = inr p ∧ parsed_queryTypeName p = Some q
           ∧ ¬ ∃ t, t ∈ parsed_types p ∧ type_name t = q
  | inl UndefinedNode => False
  | inr _ =>
    ∃ p q t, parseIntrospection d = inr p ∧ parsed_queryTypeName p = Some q
             ∧ t ∈ parsed_types p ∧ type_name t = q
  end.
Proof.
  unfold findRoot.
  destruct (parseIntrospection d) as [e|p] eqn:Hp.
  - by apply parseIntrospection_inl in Hp as [[-> ?]|[-> _]].
  - pose proof (parsed_queryTypeName_nonempty _ _ Hp) as Hne.
    destruct (parsed_queryTypeName p) as [q|] eqn:Hqn; [|by exists p].
    case_decide; [congruence|].
    destruct (buildTypeMap (parsed_types p) !! q) as [t|] eqn:Hq.
    + apply buildTypeMap_lookup in Hq as [Hin Hname]. by exists p, q, t.
    + exists p, q. split_and!; [done..|].
      intros Hex%buildTypeMap_is_Some. rewrite Hq in Hex.
      by apply is_Some_None in Hex.
Qed.

(** What a returned graph is: the final state of the loop, which
    satisfies the invariant with an empty queue. *)
Lemma extractGraph_inr (fuel : nat) (d : IntrospectionData) (g : TypeGraph) :
  extractGraph fuel d = Some (inr g) →
  ∃ typeMap typeData st,
    findRoot d = inr (typeMap, typeData)
    ∧ typeMap !! type_name typeData = Some typeData
    ∧ g = mkGraph (st_nodes st) (st_edges st) (createTypeNode typeData)
    ∧ st_queue st = []
    ∧ loopInv typeMap (type_name typeData)
        (dequeued fuel typeMap (initState (createTypeNode typeData))) st.
Proof.
  unfold extractGraph.
  destruct (findRoot d) as [e|[typeMap typeData]] eqn:Hroot; [done|].
  destruct (findRoot_inr _ _ _ Hroot) as (p & _ & _ & _ & Htm).
  destruct (bfs fuel typeMap (initState (createTypeNode typeData)))
    as [r|] eqn:Hbfs; [|done].
  destruct (bfs_inv _ _ _ _ _ _ (initState_inv _ _ Htm) Hbfs)
    as (st & -> & Hq & Hinv).
  intros [= <-]. by exists typeMap, typeData, st.
Qed.

Lemma extractGraph_more_fuel (fuel fuel' : nat) (d : IntrospectionData)
    (r : CoreError + TypeGraph) :
  fuel ≤ fuel' → extractGraph fuel d = Some r → extractGraph fuel' d = Some r.
Proof.
  intros Hle. unfold extractGraph.
  destruct (findRoot d) as [e|[typeMap typeData]]; [done|].
  destruct (bfs fuel typeMap (initState (createTypeNode typeData)))
    as [r0|] eqn:Hbfs; [|done].
  by rewrite (bfs_more_fuel _ _ _ _ _ Hle Hbfs).
Qed.

(** The loop is over after at most as many turns as the lookup table
    has names. *)
Lemma extractGraph_enough_fuel (d : IntrospectionData) :
  ∃ bound, ∀ fuel, bound < fuel → is_Some (extractGraph fuel d).
Proof.
  unfold extractGraph.
  destruct (findRoot d) as [e|[typeMap typeData]] eqn:Hroot.
  - exists 0. intros fuel _. by eexists.
  - destruct (findRoot_inr _ _ _ Hroot) as (p & _ & _ & _ & Htm).
    exists (size typeMap). intros fuel Hlt.
    destruct (bfs_terminates typeMap fuel (initState (createTypeNode typeData)))
      as [[e|st] ->]; [|by eexists..].
    by rewrite initState_measure.
Qed.

Lemma returns_total (d : IntrospectionData) : ∃ r, returns d r.
Proof.
  destruct (extractGraph_enough_fuel d) as [bound Hb].
  destruct (Hb (S bound)) as [r Hr]; [lia|]. exists r. by exists (S bound).
Qed.

Lemma returns_functional (d : IntrospectionData) (r r' : CoreError + TypeGraph) :
  returns d r → returns d r' → r = r'.
Proof.
  intros [n Hn] [n' Hn'].
  apply (extractGraph_more_fuel _ (n `max` n')) in Hn; [|lia].
  apply (extractGraph_more_fuel _ (n `max` n')) in Hn'; [|lia].
  congruence.
Qed.

Lemma returns_inl (d : IntrospectionData) (e : CoreError) :
  returns d (inl e) ↔ findRoot d = inl e.
Proof.
  split.
  - intros [fuel H]. unfold extractGraph in H.
    destruct (findRoot d) as [e'|[typeMap typeData]] eqn:Hroot; [congruence|].
    destruct (findRoot_inr _ _ _ Hroot) as (p & _ & _ & _ & Htm).
    destruct (bfs fuel typeMap (initState (createTypeNode typeData)))
      as [r|] eqn:Hbfs; [|done].
    by destruct (bfs_inv _ _ _ _ _ _ (initState_inv _ _ Htm) Hbfs)
      as (st & -> & _).
  - intros H. exists 0. unfold extractGraph. by rewrite H.
Qed.

(** * The claims of the specification *)

(** C1, as the code has it: in a returned graph every key of the node
    mapping is reachable from the root along the edges of the graph; and
    every name that the raw records reach from the root through field
    references, implemented interfaces and union members, going only
    through names that have a parsed record, is a key of the node
    mapping, where a field whose type resolves to the empty name is not
    a reference. *)
Theorem reachability_closure (d : IntrospectionData)
    (p : ParsedIntrospection) (g : TypeGraph) :
  returns d (inr g) →
  parseIntrospection d = inr p →
  let root := node_name (rootType g) in
  root ∈ map_keys (nodes g)
  ∧ (∀ k, k ∈ map_keys (nodes g) → rtc (edgeRel (edges g)) root k)
  ∧ (∀ k, rtc (followedRefersTo (parsed_types p)) root k →
          k ∈ map_keys (nodes g)).
Proof.
  intros [fuel Hg] Hp.
  destruct (extractGraph_inr _ _ _ Hg)
    as (typeMap & typeData & st & Hroot & Htm & -> & Hq & Hinv).
  cbn [rootType nodes edges createTypeNode node_name].
  pose proof Hinv as [Hc Hedges].
  pose proof (final_keys _ _ _ _ Hinv Hq) as Hkeys.
  split_and!; [apply (c_root _ _ _ _ Hc) | |].
  - intros k Hk. pose proof (c_reach _ _ _ _ Hc) as Hr.
    by eapply Forall_forall in Hr.
  - destruct (findRoot_inr _ _ _ Hroot) as (p' & Hp' & _ & -> & _).
    assert (p' = p) as -> by congruence.
    intros k Hk.
    assert (rtc (refersTo (buildTypeMap (parsed_types p)))
                (type_name typeData) k) as Hk'.
    { eapply rtc_subrel; [|exact Hk]. intros a b. apply followed_refersTo. }
    clear Hk. revert k Hk'. apply rtc_ind_r; [apply (c_root _ _ _ _ Hc)|].
    intros a b _ [Hb Hsome] Ha.
    apply list_elem_of_fmap in Hb as (e & -> & He).
    pose proof (c_targets _ _ _ _ Hc) as Ht.
    eapply Forall_forall in Ht; [by apply Ht|].
    rewrite Hedges. apply list_elem_of_bind. exists a. split; [done|].
    by rewrite <- Hkeys.
Qed.

Lemma reachability_closure_witness :
  Forall (λ k, rtc (edgeRel (edges polyGraph)) "Query" k)
         (map_keys (nodes polyGraph))
  ∧ "Tagged" ∈ map_keys (nodes polyGraph)
  ∧ "Cable" ∈ map_keys (nodes polyGraph).
Proof.
  destruct (reachability_closure poly (mkParsed polyTypes (Some "Query"))
              polyGraph) as (_ & Hedges & Hrefs).
  - exists 7. vm_compute. reflexivity.
  - reflexivity.
  - assert (∀ b, hasRecord polyTypes b ↔ b ∈ type_name <$> polyTypes) as Hrec.
    { intros b. unfold hasRecord. rewrite list_elem_of_fmap. naive_solver. }
    assert (followedRefersTo polyTypes "Query" "Node") as H1.
    { eexists. split; [reflexivity|]. split.
      - left. split; [|done]. eexists _, _. split; [reflexivity|].
        split; [apply list_elem_of_here|].
        eapply resolves_wrapped; [by right|reflexivity|].
        by apply resolves_named.
      - apply Hrec. vm_compute. set_solver. }
    assert (followedRefersTo polyTypes "Query" "SearchResult") as H2.
    { eexists. split; [reflexivity|]. split.
      - left. split; [|done]. eexists _, _. split; [reflexivity|].
        split; [apply list_elem_of_further, list_elem_of_here|].
        eapply resolves_wrapped; [by left|reflexivity|].
        by apply resolves_named.
      - apply Hrec. vm_compute. set_solver. }
    assert (followedRefersTo polyTypes "Node" "Device") as H3.
    { eexists. split; [reflexivity|]. split.
      - right. right. eexists _, _. split; [reflexivity|].
        split; [apply list_elem_of_here|]. by apply resolves_named.
      - apply Hrec. vm_compute. set_solver. }
    assert (followedRefersTo polyTypes "Device" "Tagged") as H4.
    { eexists. split; [reflexivity|]. split.
      - right. left. eexists _, _. split; [reflexivity|].
        split; [apply list_elem_of_further, list_elem_of_here|].
        by apply resolves_named.
      - apply Hrec. vm_compute. set_solver. }
    assert (followedRefersTo polyTypes "SearchResult" "Cable") as H5.
    { eexists. split; [reflexivity|]. split.
      - right. right. eexists _, _. split; [reflexivity|].
        split; [apply list_elem_of_further, list_elem_of_here|].
        by apply resolves_named.
      - apply Hrec. vm_compute. set_solver. }
    split_and!.
    + apply Forall_forall, Hedges.
    + apply Hrefs. apply rtc_l with "Node"; [exact H1|].
      apply rtc_l with "Device"; [exact H3|]. apply rtc_once. exact H4.
    + apply Hrefs. apply rtc_l with "SearchResult"; [exact H2|].
      apply rtc_once. exact H5.
Defined.

(** The claim as the specification states it fails where a field has
    the type named by the empty string: that name has a record and is
    referred to by the query type, yet it is no key, because the node
    factory stores the reference as "Unknown". *)
Lemma empty_name_not_followed :
  returns emptyRef (inr emptyRefGraph)
  ∧ parseIntrospection emptyRef = inr (mkParsed emptyRefTypes (Some "Query"))
  ∧ rtc (specRefersTo emptyRefTypes) (node_name (rootType emptyRefGraph))
        EmptyString
  ∧ EmptyString ∉ map_keys (nodes emptyRefGraph).
Proof.
  split_and!.
  - exists 2. vm_compute. reflexivity.
  - reflexivity.
  - apply rtc_once. eexists. split; [reflexivity|]. split.
    + left. eexists _, _. split; [reflexivity|].
      split; [apply list_elem_of_here|]. by apply resolves_named.
    + eexists. split; [apply list_elem_of_further, list_elem_of_here|done].
  - vm_compute. set_solver.
Qed.

(** C2: the extraction always returns, with one result, after at most
    as many loop turns as there are type names, also on a cyclic schema;
    the names taken off the queue are pairwise distinct and are exactly
    the keys of the node mapping, which has no key twice; and at every
    turn of the inner loops a record is normalised only for a name that
    is not yet a key, so no name is normalised twice. *)
Theorem extraction_terminates (d : IntrospectionData) :
  (∃ r, returns d r ∧ ∀ r', returns d r' → r' = r)
  ∧ (∃ bound, ∀ fuel, bound < fuel → is_Some (extractGraph fuel d))
  ∧ (∀ fuel g, extractGraph fuel d = Some (inr g) →
       ∃ typeMap typeData,
         findRoot d = inr (typeMap, typeData)
         ∧ let trace :=
             dequeued fuel typeMap (initState (createTypeNode typeData)) in
           NoDup trace
           ∧ trace = map_keys (nodes g)
           ∧ NoDup (map_keys (nodes g)))
  ∧ ∀ typeMap typeData n st cur rest node es e,
      findRoot d = inr (typeMap, typeData) →
      stateAfter n typeMap (initState (createTypeNode typeData)) = Some st →
      st_queue st = cur :: rest →
      map_get cur (st_nodes st) = Some node →
      (es ++ [e]) `prefix_of` nodeEdges cur node →
      let mid := foldl (visit typeMap) (dequeue st rest) es in
      st_nodes (visit typeMap mid e) = st_nodes mid
      ∨ (target e ∉ map_keys (st_nodes mid)
         ∧ ∃ typeData', typeMap !! target e = Some typeData'
             ∧ st_nodes (visit typeMap mid e)
               = st_nodes mid ++ [(target e, createTypeNode typeData')]).
Proof.
  split_and!.
  - destruct (returns_total d) as [r Hr]. exists r. split; [done|].
    intros r' Hr'. by apply (returns_functional d).
  - apply extractGraph_enough_fuel.
  - intros fuel g Hg.
    destruct (extractGraph_inr _ _ _ Hg)
      as (typeMap & typeData & st & Hroot & Htm & -> & Hq & Hinv).
    exists typeMap, typeData. split; [done|].
    cbn [nodes]. pose proof (final_keys _ _ _ _ Hinv Hq) as Hkeys.
    destruct Hinv as [Hc _]. pose proof (c_nodup _ _ _ _ Hc) as Hnd.
    cbn zeta. by rewrite <- Hkeys.
  - intros typeMap typeData n st cur rest node es e Hroot Hst Hq _ Hes.
    destruct (findRoot_inr _ _ _ Hroot) as (p & _ & _ & _ & Htm).
    destruct (mid_consistent _ _ _ _ _ _ _ _ node es
                (initState_inv _ _ Htm) Hst Hq) as [front Hmid].
    + destruct Hes as [es' Hes]. exists ([e] ++ es').
      by rewrite Hes, <- app_assoc.
    + apply (visit_nodes _ _ _ _ _ Hmid).
Qed.

Lemma extraction_terminates_witness :
  NoDup (map_keys (nodes cyclicGraph))
  ∧ ∃ r, returns cyclic r.
Proof.
  destruct (extraction_terminates cyclic) as ((r & Hr & _) & _ & Hkeys & _).
  split; [|by exists r].
  destruct (Hkeys 4 cyclicGraph) as (typeMap & typeData & _ & _ & _ & Hnd).
  - vm_compute. reflexivity.
  - exact Hnd.
Defined.

(** C3: the edge sequence is the concatenation, over the names in the
    order they were taken off the queue, of the node's FIELD edges in
    field order, then its IMPLEMENTS edges, then its UNION_MEMBER edges;
    every field, interface and member contributes its own edge, so
    nothing is merged. *)
Theorem edge_order (fuel : nat) (d : IntrospectionData) (g : TypeGraph) :
  extractGraph fuel d = Some (inr g) →
  ∃ typeMap typeData,
    findRoot d = inr (typeMap, typeData)
    ∧ map_keys (nodes g)
      = dequeued fuel typeMap (initState (createTypeNode typeData))
    ∧ edges g
      = nodes g ≫= (λ kn,
          (fieldEdge kn.1 <$> default [] (node_fields kn.2))
          ++ (implementsEdge kn.1 <$> default [] (node_interfaces kn.2))
          ++ (unionEdge kn.1 <$> default [] (node_possibleTypes kn.2))).
Proof.
  intros Hg.
  destruct (extractGraph_inr _ _ _ Hg)
    as (typeMap & typeData & st & Hroot & Htm & -> & Hq & Hinv).
  exists typeMap, typeData. split; [done|]. cbn [nodes edges].
  pose proof (final_keys _ _ _ _ Hinv Hq) as Hkeys.
  split; [done|]. apply (returned_edges _ _ _ _ Hinv Hq).
Qed.

Lemma edge_order_witness :
  edges twinGraph
  = [ mkEdge "Query" "Item" FIELD (Some "first");
      mkEdge "Query" "Item" FIELD (Some "second") ].
Proof.
  destruct (edge_order 3 twin twinGraph) as (typeMap & typeData & _ & _ & ->).
  - vm_compute. reflexivity.
  - vm_compute. reflexivity.
Defined.

(** C4: every edge of every node is in the graph whether or not its
    target has a record; the target of an edge is a key of the node
    mapping exactly when the lookup table has a record for it; and a
    graph with an edge to a name that is no key is returned without
    error. *)
Theorem dangling_targets_kept :
  (∀ fuel d g, extractGraph fuel d = Some (inr g) →
     ∃ typeMap typeData,
       findRoot d = inr (typeMap, typeData)
       ∧ (∀ k n e, (k, n) ∈ nodes g → e ∈ nodeEdges k n → e ∈ edges g)
       ∧ (∀ e, e ∈ edges g →
            (target e ∈ map_keys (nodes g) ↔ is_Some (typeMap !! target e))))
  ∧ ∃ d g e, returns d (inr g) ∧ e ∈ edges g ∧ edgeType e = FIELD
             ∧ target e ∉ map_keys (nodes g).
Proof.
  split.
  - intros fuel d g Hg.
    destruct (extractGraph_inr _ _ _ Hg)
      as (typeMap & typeData & st & Hroot & Htm & -> & Hq & Hinv).
    exists typeMap, typeData. split; [done|]. cbn [nodes edges].
    split.
    + intros k n e Hin He. rewrite (returned_edges _ _ _ _ Hinv Hq).
      apply list_elem_of_bind. by exists (k, n).
    + intros e He. split.
      * intros [n Hn]%keys_elem.
        destruct (node_from_table _ _ _ _ _ _ Hinv Hn) as (t & -> & _).
        by eexists.
      * destruct Hinv as [Hc _]. pose proof (c_targets _ _ _ _ Hc) as Ht.
        eapply Forall_forall in Ht; [exact Ht | done].
  - exists scenario, scenarioGraph,
      (mkEdge "DeviceType" "ID" FIELD (Some "id")).
    split_and!.
    + exists 4. vm_compute. reflexivity.
    + vm_compute. apply list_elem_of_further, list_elem_of_here.
    + done.
    + vm_compute. set_solver.
Qed.

Lemma dangling_targets_kept_witness :
  mkEdge "DeviceType" "ID" FIELD (Some "id") ∈ edges scenarioGraph.
Proof.
  destruct (proj1 dangling_targets_kept 4 scenario scenarioGraph)
    as (typeMap & typeData & _ & Hall & _).
  - vm_compute. reflexivity.
  - eapply Hall.
    + vm_compute. apply list_elem_of_further, list_elem_of_here.
    + vm_compute. apply list_elem_of_here.
Defined.




(** C6: the parser keeps, in their order, exactly the records whose
    name does not start with the double underscore; a schema without
    query type parses without error to a [null] query-type name; and no
    key and no node name of a returned graph starts with the double
    underscore. *)
Theorem meta_types_filtered (d : IntrospectionData) :
  (∀ p, parseIntrospection d = inr p →
     ∃ s ts, data_schema d = Some s ∧ schema_types s = Some ts
       ∧ parsed_types p `sublist_of` ts
       ∧ (∀ t, t ∈ parsed_types p
               ↔ t ∈ ts ∧ ¬ ∃ r, type_name t = "__" +:+ r)
       ∧ (schema_queryType s = None → parsed_queryTypeName p = None))
  ∧ (∀ s ts, data_schema d = Some s → schema_types s = Some ts →
       schema_queryType s = None →
       ∃ p, parseIntrospection d = inr p ∧ parsed_queryTypeName p = None)
  ∧ ∀ fuel g, extractGraph fuel d = Some (inr g) →
      ∀ k n, (k, n) ∈ nodes g →
        node_name n = k ∧ ¬ ∃ r, k = "__" +:+ r.
Proof.
  split_and!.
  - intros p (s & ts & Hs & Hts & -> & Hq)%parseIntrospection_inr.
    exists s, ts. split_and!; try done.
    + apply parsed_types_sublist.
    + apply parsed_types_elem.
  - intros s ts Hs Hts Hq. unfold parseIntrospection, data_schema in *.
    destruct (data d) as [[sch]|]; [|done]. cbn [result_schema] in *.
    rewrite Hs, Hts, Hq. by eexists.
  - intros fuel g Hg k n Hin.
    destruct (extractGraph_inr _ _ _ Hg)
      as (typeMap & typeData & st & Hroot & Htm & -> & Hq & Hinv).
    destruct (findRoot_inr _ _ _ Hroot) as (p & Hp & _ & -> & _).
    destruct (node_from_table _ _ _ _ _ _ Hinv Hin) as (t & Ht & ->).
    apply buildTypeMap_lookup in Ht as [Ht <-]. split; [done|].
    apply parseIntrospection_inr in Hp as (s & ts & _ & _ & Hp & _).
    rewrite Hp in Ht. by apply parsed_types_elem in Ht as [_ Hmeta].
Qed.

Lemma meta_types_filtered_witness :
  map_keys (nodes withMetaGraph) = ["Query"]
  ∧ Forall (λ kn, ¬ ∃ r, kn.1 = "__" +:+ r) (nodes withMetaGraph).
Proof.
  split; [reflexivity|]. apply Forall_forall. intros [k n] Hin.
  destruct (meta_types_filtered withMeta) as (_ & _ & Hnodes).
  apply (Hnodes 2 withMetaGraph) in Hin; [by destruct Hin|].
  vm_compute. reflexivity.
Defined.

(** C7, as the code has it: the three flags, and the field entries,
    whose type name is the resolved base name, or "Unknown" when the
    resolution yields [null] or the empty string; the field sequence is
    absent when the record has no fields or an empty sequence. *)
Theorem createTypeNode_spec (t : IntrospectionType) :
  let n := createTypeNode t in
  node_name n = type_name t
  ∧ node_kind n = type_kind t
  ∧ (isComposite n = true
     ↔ type_kind t = OBJECT ∨ type_kind t = INTERFACE ∨ type_kind t = UNION)
  ∧ (isRelay n = true
     ↔ (∃ p, type_name t = p +:+ "Connection")
       ∨ (∃ p, type_name t = p +:+ "Edge")
       ∨ type_name t = "PageInfo")
  ∧ (isBuiltIn n = true
     ↔ (∃ r, type_name t = "__" +:+ r)
       ∨ type_name t ∈ ["String"; "Int"; "Float"; "Boolean"; "ID"])
  ∧ (node_fields n = None
     ↔ type_fields t = None ∨ type_fields t = Some [])
  ∧ ∀ fs, node_fields n = Some fs →
      ∃ raw, type_fields t = Some raw ∧ raw ≠ [] ∧
        Forall2 (λ f fi,
          fi_name fi = field_name f
          ∧ (unwrapType (Some (field_type f)) = None
             → fi_typeName fi = "Unknown")
          ∧ (unwrapType (Some (field_type f)) = Some EmptyString
             → fi_typeName fi = "Unknown")
          ∧ ∀ s, unwrapType (Some (field_type f)) = Some s → s ≠ EmptyString
             → fi_typeName fi = s) raw fs.
Proof.
  simpl. split_and!; try done.
  - rewrite !orb_true_iff, !bool_decide_eq_true. tauto.
  - rewrite !orb_true_iff, !endsWith_spec, bool_decide_eq_true. tauto.
  - rewrite orb_true_iff, startsWith_spec, bool_decide_eq_true. tauto.
  - rewrite extractFields_spec.
    destruct (type_fields t) as [[|f fs]|]; naive_solver.
  - intros fs. rewrite extractFields_spec.
    destruct (type_fields t) as [[|f raw]|]; try done.
    assert (f :: raw ≠ []) as Hne by done.
    revert Hne. generalize (f :: raw). intros l Hne [= <-].
    exists l. split_and!; try done.
    clear. induction l as [|g l IH]; constructor; [|done].
    simpl. unfold orUnknown.
    destruct (unwrapRef (field_type g)) as [s|]; [|naive_solver].
    case_decide; naive_solver.
Qed.

(** C7 as stated fails where the type of a field resolves to the empty
    string: the resolution is not [null], yet the entry carries
    "Unknown" and not the resolved name. *)
Lemma createTypeNode_empty_base_name :
  unwrapType (Some (field_type emptyNamedField)) = Some EmptyString
  ∧ node_fields (createTypeNode emptyNamedType)
    = Some [mkFieldInfo "f" "Unknown" None]
  ∧ ¬ Forall (λ fi, Some (fi_typeName fi)
                    = unwrapType (Some (field_type emptyNamedField)))
        (default [] (node_fields (createTypeNode emptyNamedType))).
Proof.
  split_and!; [done|done|].
  intros H. apply Forall_inv in H. discriminate H.
Qed.

(** C8: a chain of [N] LIST/NON_NULL layers around a leaf resolves to
    the name of the leaf, whatever [N] is; [null] resolves to [null];
    and a chain that ends in a wrapper without [ofType] resolves to
    [null] instead of failing. *)
Theorem unwrapType_chain (N : nat) (ws : list TypeKind)
    (leaf : IntrospectionTypeRef) :
  length ws = N →
  Forall (λ k, k = LIST ∨ k = NON_NULL) ws →
  ref_kind leaf ≠ LIST → ref_kind leaf ≠ NON_NULL →
  unwrapType (Some (wrapRef ws leaf)) = ref_name leaf
  ∧ unwrapType None = None
  ∧ ∀ k n, k = LIST ∨ k = NON_NULL →
      unwrapType (Some (wrapRef ws (mkTypeRef k n None))) = None.
Proof.
  intros _ Hws Hl Hn.
  assert (Forall (λ k, isWrapper k = true) ws) as Hws'.
  { eapply Forall_impl; [exact Hws|]. intros k. by rewrite isWrapper_spec. }
  split_and!; [|done|].
  - simpl. rewrite unwrapRef_wrapRef by done.
    destruct leaf as [[] n o]; simpl in *; congruence.
  - intros k n Hk%isWrapper_spec. simpl.
    rewrite unwrapRef_wrapRef by done. simpl. by rewrite Hk.
Qed.

Lemma unwrapType_chain_witness :
  unwrapType (Some (wrapRef [NON_NULL; LIST; NON_NULL] (named OBJECT "Device")))
  = Some "Device".
Proof.
  refine (proj1 (unwrapType_chain 3 [NON_NULL; LIST; NON_NULL]
                   (named OBJECT "Device") _ _ _ _)).
  - reflexivity.
  - repeat (constructor; [first [by left | by right]|]). constructor.
  - discriminate.
  - discriminate.
Defined.

(** C9, as the code has it: on the scenario the node mapping has the
    three object types, and the ID scalar as well when the type list
    declares it; in both cases the edges are the same four FIELD edges,
    the two edges to ID included. *)
Theorem scenario_graph :
  (∃ g, returns scenario (inr g)
        ∧ map_keys (nodes g) = ["Query"; "DeviceType"; "CableType"]
        ∧ edges g = [ mkEdge "Query" "DeviceType" FIELD (Some "device");
                      mkEdge "DeviceType" "ID" FIELD (Some "id");
                      mkEdge "DeviceType" "CableType" FIELD (Some "cable");
                      mkEdge "CableType" "ID" FIELD (Some "id") ])
  ∧ (∃ g, returns scenarioWithID (inr g)
        ∧ map_keys (nodes g) = ["Query"; "DeviceType"; "ID"; "CableType"]
        ∧ edges g = [ mkEdge "Query" "DeviceType" FIELD (Some "device");
                      mkEdge "DeviceType" "ID" FIELD (Some "id");
                      mkEdge "DeviceType" "CableType" FIELD (Some "cable");
                      mkEdge "CableType" "ID" FIELD (Some "id") ]).
Proof.
  split.
  - exists scenarioGraph. split_and!; [|reflexivity..].
    exists 4. vm_compute. reflexivity.
  - exists scenarioWithIDGraph. split_and!; [|reflexivity..].
    exists 5. vm_compute. reflexivity.
Qed.

(** C9 as stated fails: without ID in the type list the graph has the
    three nodes but four FIELD edges, not two. *)
Lemma scenario_has_four_edges :
  ¬ ∀ g, returns scenario (inr g) →
      length (nodes g) = 3
      ∧ edges g ≡ₚ [ mkEdge "Query" "DeviceType" FIELD (Some "device");
                     mkEdge "DeviceType" "CableType" FIELD (Some "cable") ].
Proof.
  intros H. destruct (H scenarioGraph) as [_ Hperm].
  - exists 4. vm_compute. reflexivity.
  - apply Permutation_length in Hperm. discriminate Hperm.
Qed.

(** C10: between any two turns of the loop, and between any two turns
    of its inner loops, the visited set is the key set of the node
    mapping; every queued name is a key, so the unchecked lookup after
    the dequeue finds a node and the extraction never fails on it; and
    the source of every edge of a returned graph is a key. *)
Theorem visited_tracks_nodes (d : IntrospectionData)
    (typeMap : gmap string IntrospectionType) (typeData : IntrospectionType) :
  findRoot d = inr (typeMap, typeData) →
  (∀ n st,
     stateAfter n typeMap (initState (createTypeNode typeData)) = Some st →
     st_visited st = list_to_set (map_keys (st_nodes st))
     ∧ (∀ k, k ∈ st_queue st → k ∈ map_keys (st_nodes st))
     ∧ loopStep typeMap st ≠ Crash
     ∧ ∀ cur rest node es,
         st_queue st = cur :: rest →
         map_get cur (st_nodes st) = Some node →
         es `prefix_of` nodeEdges cur node →
         let mid := foldl (visit typeMap) (dequeue st rest) es in
         st_visited mid = list_to_set (map_keys (st_nodes mid)))
  ∧ (∀ fuel, extractGraph fuel d ≠ Some (inl UndefinedNode))
  ∧ ∀ fuel g, extractGraph fuel d = Some (inr g) →
      ∀ e, e ∈ edges g → source e ∈ map_keys (nodes g).
Proof.
  intros Hroot.
  destruct (findRoot_inr _ _ _ Hroot) as (p & _ & _ & _ & Htm).
  split_and!.
  - intros n st Hst.
    destruct (stateAfter_inv _ _ _ _ _ _ (initState_inv _ _ Htm) Hst)
      as [seen Hinv].
    pose proof Hinv as [Hc _]. split_and!.
    + apply (c_visited _ _ _ _ Hc).
    + intros k Hk. rewrite (c_keys _ _ _ _ Hc). apply elem_of_app. by right.
    + pose proof (loopStep_inv _ _ _ _ Hinv) as Hstep.
      by destruct (loopStep typeMap st).
    + intros cur rest node es Hq _ Hes.
      destruct (mid_consistent _ _ _ _ _ _ _ _ node _
                  (initState_inv _ _ Htm) Hst Hq Hes) as [front Hmid].
      apply (c_visited _ _ _ _ Hmid).
  - intros fuel Hg. assert (returns d (inl UndefinedNode)) as Hret.
    { by exists fuel. }
    apply returns_inl in Hret. pose proof (findRoot_spec d) as Hspec.
    by rewrite Hret in Hspec.
  - intros fuel g Hg e He.
    destruct (extractGraph_inr _ _ _ Hg)
      as (typeMap' & typeData' & st & _ & _ & -> & _ & [Hc _]).
    pose proof (c_sources _ _ _ _ Hc) as Hs.
    by eapply Forall_forall in Hs.
Qed.

Lemma visited_tracks_nodes_witness :
  Forall (λ e, source e ∈ map_keys (nodes scenarioGraph))
         (edges scenarioGraph).
Proof.
  destruct (findRoot scenario) as [err|[typeMap typeData]] eqn:Hroot.
  { vm_compute in Hroot. discriminate Hroot. }
  destruct (visited_tracks_nodes scenario typeMap typeData Hroot)
    as (_ & _ & Hsources).
  apply Forall_forall, (Hsources 4). vm_compute. reflexivity.
Defined.

(** * Further properties of the code *)

(** ** The lookup table with repeated names *)

(** X1: a record of the node mapping is the normalisation of the last
    parsed record of that name: when the document repeats a type name,
    the later record replaces the earlier one. *)
Theorem node_from_last_record (fuel : nat) (d : IntrospectionData)
    (p : ParsedIntrospection) (g : TypeGraph) (k : string) (n : TypeNode) :
  extractGraph fuel d = Some (inr g) →
  parseIntrospection d = inr p →
  (k, n) ∈ nodes g →
  ∃ t, last (List.filter (λ t, bool_decide (type_name t = k)) (parsed_types p))
       = Some t
       ∧ n = createTypeNode t.
Proof.
  intros Hg Hp Hin.
  destruct (extractGraph_inr _ _ _ Hg)
    as (typeMap & typeData & st & Hroot & Htm & -> & Hq & Hinv).
  destruct (findRoot_inr _ _ _ Hroot) as (p' & Hp' & _ & -> & _).
  assert (p' = p) as -> by congruence.
  destruct (node_from_table _ _ _ _ _ _ Hinv Hin) as (t & Ht & ->).
  exists t. by rewrite <- buildTypeMap_last.
Qed.

Lemma node_from_last_record_witness :
  ∃ t, last (List.filter (λ t, bool_decide (type_name t = "A")) repeatedTypes)
       = Some t
       ∧ createTypeNode (objectType "A" [mkField "y" None (named OBJECT "B")])
         = createTypeNode t.
Proof.
  apply (node_from_last_record 4 repeated
           (mkParsed repeatedTypes (Some "Query")) repeatedGraph).
  - vm_compute. reflexivity.
  - reflexivity.
  - vm_compute. apply list_elem_of_further, list_elem_of_here.
Defined.

(** ** The node mapping only grows *)

Section Growth.
Variable typeMap : gmap string IntrospectionType.
Variable root : string.

Lemma foldl_visit_nodes (front : list string) (es : list Edge) (st : State) :
  consistent typeMap root front st →
  Forall (λ e, source e ∈ front) es →
  st_nodes st `prefix_of` st_nodes (foldl (visit typeMap) st es).
Proof.
  revert st. induction es as [|e es IH]; intros st Hc Hsrc; simpl; [done|].
  apply Forall_cons in Hsrc as [He Hes].
  etrans; [|apply IH; [by apply visit_consistent | done]].
  destruct (visit_nodes _ _ _ _ e Hc) as [->|(_ & t & _ & ->)]; [done|].
  by apply prefix_app_r.
Qed.

Lemma loopStep_nodes (seen : list string) (st st' : State) (cur : string) :
  loopInv typeMap root seen st →
  loopStep typeMap st = Next cur st' →
  st_nodes st `prefix_of` st_nodes st'.
Proof.
  intros [Hc _]. unfold loopStep.
  destruct (st_queue st) as [|c rest] eqn:Hq; [done|].
  destruct (map_get c (st_nodes st)) as [node|]; [|done].
  intros [= <- <-]. rewrite expand_foldl.
  apply (foldl_visit_nodes (seen ++ [c]) _ (dequeue st rest)).
  - by apply dequeue_consistent.
  - apply Forall_forall. intros e ->%nodeEdges_source.
    apply elem_of_app. right. left.
Qed.

Lemma bfs_nodes (fuel : nat) (seen : list string) (st st' : State) :
  loopInv typeMap root seen st →
  bfs fuel typeMap st = Some (inr st') →
  st_nodes st `prefix_of` st_nodes st'.
Proof.
  revert seen st. induction fuel as [|fuel IH]; intros seen st Hinv; [done|].
  simpl. pose proof (loopStep_inv _ _ _ _ Hinv) as Hstep.
  destruct (loopStep typeMap st) as [| |cur st1] eqn:Hls.
  - by intros [= <-].
  - done.
  - destruct Hstep as (_ & _ & Hinv1). intros Hbfs.
    etrans; [by eapply loopStep_nodes|]. by eapply IH.
Qed.
End Growth.

Lemma extractGraph_first (fuel : nat) (d : IntrospectionData) (g : TypeGraph) :
  extractGraph fuel d = Some (inr g) →
  ∃ others, nodes g = (node_name (rootType g), rootType g) :: others.
Proof.
  intros Hg. unfold extractGraph in Hg.
  destruct (findRoot d) as [e|[typeMap typeData]] eqn:Hroot; [done|].
  destruct (findRoot_inr _ _ _ Hroot) as (p & _ & _ & _ & Htm).
  destruct (bfs fuel _ (initState (createTypeNode typeData)))
    as [[e|st]|] eqn:Hbfs; try done.
  injection Hg as <-. cbn [rootType nodes createTypeNode node_name].
  destruct (bfs_nodes _ _ _ _ _ _ (initState_inv _ _ Htm) Hbfs)
    as [others Hnodes].
  by exists others.
Qed.

(** X2: the root node is the normalised record of the query type, it
    is stored under the query type's name, and it is the first entry of
    the node mapping. *)
Theorem root_is_first (fuel : nat) (d : IntrospectionData)
    (p : ParsedIntrospection) (g : TypeGraph) :
  extractGraph fuel d = Some (inr g) →
  parseIntrospection d = inr p →
  parsed_queryTypeName p = Some (node_name (rootType g))
  ∧ (∃ t, t ∈ parsed_types p ∧ rootType g = createTypeNode t)
  ∧ map_get (node_name (rootType g)) (nodes g) = Some (rootType g)
  ∧ ∃ others, nodes g = (node_name (rootType g), rootType g) :: others.
Proof.
  intros Hg Hp.
  destruct (extractGraph_first _ _ _ Hg) as [others Hnodes].
  destruct (extractGraph_inr _ _ _ Hg)
    as (typeMap & typeData & st & Hroot & Htm & Hgeq & _).
  destruct (findRoot_inr _ _ _ Hroot) as (p' & Hp' & Hqn & -> & _).
  assert (p' = p) as -> by congruence.
  split_and!.
  - by subst g.
  - exists typeData. subst g. split; [|done].
    by apply buildTypeMap_lookup in Htm as [? _].
  - rewrite Hnodes. simpl. by rewrite decide_True.
  - by exists others.
Qed.

Lemma root_is_first_witness :
  map_get "Query" (nodes scenarioGraph) = Some (rootType scenarioGraph).
Proof.
  apply (root_is_first 4 scenario (mkParsed scenarioTypes (Some "Query"))
           scenarioGraph).
  - vm_compute. reflexivity.
  - reflexivity.
Defined.

(** ** Sizes *)

Lemma NoDup_incl_length (l k : list string) :
  NoDup l → (∀ x, x ∈ l → x ∈ k) → length l ≤ length k.
Proof. intros Hnd Hincl. by apply submseteq_length, NoDup_submseteq. Qed.

(** X3: the node mapping has at most as many entries as the parser
    kept records. *)
Theorem nodes_bounded_by_types (fuel : nat) (d : IntrospectionData)
    (p : ParsedIntrospection) (g : TypeGraph) :
  extractGraph fuel d = Some (inr g) →
  parseIntrospection d = inr p →
  length (nodes g) ≤ length (parsed_types p).
Proof.
  intros Hg Hp.
  destruct (extractGraph_inr _ _ _ Hg)
    as (typeMap & typeData & st & Hroot & Htm & -> & Hq & Hinv).
  destruct (findRoot_inr _ _ _ Hroot) as (p' & Hp' & _ & -> & _).
  assert (p' = p) as -> by congruence.
  cbn [nodes].
  rewrite <- (length_fmap fst (st_nodes st)),
    <- (length_fmap type_name (parsed_types p)).
  apply NoDup_incl_length.
  - destruct Hinv as [Hc _]. apply (c_nodup _ _ _ _ Hc).
  - intros k [n Hn]%keys_elem.
    destruct (node_from_table _ _ _ _ _ _ Hinv Hn) as (t & Ht & _).
    apply buildTypeMap_lookup in Ht as [Ht <-].
    by apply list_elem_of_fmap_2.
Qed.

Lemma nodes_bounded_by_types_witness :
  length (nodes repeatedGraph) ≤ length repeatedTypes.
Proof.
  apply (nodes_bounded_by_types 4 repeated
           (mkParsed repeatedTypes (Some "Query")) repeatedGraph).
  - vm_compute. reflexivity.
  - reflexivity.
Defined.

Lemma incoming_edge (typeMap : gmap string IntrospectionType) (root : string)
    (front : list string) (st : State) (k : string) :
  consistent typeMap root front st →
  k ∈ map_keys (st_nodes st) → k ≠ root →
  ∃ e, e ∈ st_edges st ∧ target e = k ∧ source e ∈ map_keys (st_nodes st).
Proof.
  intros Hc Hk Hne. pose proof (c_reach _ _ _ _ Hc) as Hr.
  eapply Forall_forall in Hr; [|exact Hk].
  apply rtc_inv_r in Hr as [?|(y & _ & e & He & <- & <-)]; [done|].
  exists e. split_and!; [done..|].
  pose proof (c_sources _ _ _ _ Hc) as Hs.
  by eapply Forall_forall in Hs.
Qed.

(** X4: every node other than the root is the target of an edge whose
    source is a node, so a graph with [n] nodes has at least [n - 1]
    edges. *)
Theorem nodes_have_incoming_edge (fuel : nat) (d : IntrospectionData)
    (g : TypeGraph) :
  extractGraph fuel d = Some (inr g) →
  (∀ k, k ∈ map_keys (nodes g) → k ≠ node_name (rootType g) →
     ∃ e, e ∈ edges g ∧ target e = k ∧ source e ∈ map_keys (nodes g))
  ∧ length (nodes g) ≤ S (length (edges g)).
Proof.
  intros Hg.
  destruct (extractGraph_inr _ _ _ Hg)
    as (typeMap & typeData & st & Hroot & Htm & -> & Hq & [Hc _]).
  cbn [nodes edges rootType createTypeNode node_name].
  assert (∀ k, k ∈ map_keys (st_nodes st) → k ≠ type_name typeData →
            ∃ e, e ∈ st_edges st ∧ target e = k
                 ∧ source e ∈ map_keys (st_nodes st)) as Hin.
  { intros k. apply (incoming_edge _ _ _ _ _ Hc). }
  split; [done|].
  rewrite <- (length_fmap fst (st_nodes st)),
    <- (length_fmap target (st_edges st)).
  change (S (length (target <$> st_edges st)))
    with (length (type_name typeData :: (target <$> st_edges st))).
  apply NoDup_incl_length; [apply (c_nodup _ _ _ _ Hc)|].
  intros k Hk. destruct (decide (k = type_name typeData)) as [->|Hne].
  - left.
  - right. destruct (Hin k Hk Hne) as (e & He & <- & _).
    by apply list_elem_of_fmap_2.
Qed.

Lemma nodes_have_incoming_edge_witness :
  length (nodes cyclicGraph) ≤ S (length (edges cyclicGraph)).
Proof.
  apply (nodes_have_incoming_edge 4 cyclic cyclicGraph).
  vm_compute. reflexivity.
Defined.

(** ** The shape of the edges *)

Lemma orUnknown_nonempty (o : option string) : orUnknown o ≠ EmptyString.
Proof.
  unfold orUnknown. destruct o as [s|]; [|done]. by case_decide.
Qed.

Lemma extractFields_nonempty (t : IntrospectionType) (f : FieldInfo) :
  f ∈ default [] (extractFields t) → fi_typeName f ≠ EmptyString.
Proof.
  rewrite extractFields_spec.
  destruct (type_fields t) as [[|f0 fs]|]; try by intros ?%elem_of_nil.
  cbn [default]. intros (raw & -> & _)%list_elem_of_fmap.
  apply orUnknown_nonempty.
Qed.

(** X5: in a returned graph every edge is one of the edges of its
    source node; a FIELD edge carries the name of its field and its
    target is never the empty string, an IMPLEMENTS or UNION_MEMBER
    edge carries no field name. *)
Theorem edge_shape (fuel : nat) (d : IntrospectionData) (g : TypeGraph)
    (e : Edge) :
  extractGraph fuel d = Some (inr g) →
  e ∈ edges g →
  (∃ n, (source e, n) ∈ nodes g ∧ e ∈ nodeEdges (source e) n)
  ∧ match edgeType e with
    | FIELD => is_Some (fieldName e) ∧ target e ≠ EmptyString
    | IMPLEMENTS | UNION_MEMBER => fieldName e = None
    end.
Proof.
  intros Hg He.
  destruct (extractGraph_inr _ _ _ Hg)
    as (typeMap & typeData & st & Hroot & Htm & -> & Hq & Hinv).
  cbn [nodes edges] in *.
  rewrite (returned_edges _ _ _ _ Hinv Hq) in He.
  apply list_elem_of_bind in He as ([k n] & He & Hkn). cbn [fst snd] in He.
  pose proof (nodeEdges_source _ _ _ He) as Hsrc. split.
  - exists n. by rewrite Hsrc.
  - destruct (node_from_table _ _ _ _ _ _ Hinv Hkn) as (t & _ & ->).
    unfold nodeEdges in He.
    apply elem_of_app in He as [He|He]; [|apply elem_of_app in He as [He|He]];
      apply list_elem_of_fmap in He as (x & -> & Hx); cbn; [|done..].
    split; [by eexists|]. by apply (extractFields_nonempty t).
Qed.

Lemma edge_shape_witness :
  is_Some (fieldName (mkEdge "DeviceType" "ID" FIELD (Some "id"))).
Proof.
  apply (edge_shape 4 scenario scenarioGraph
           (mkEdge "DeviceType" "ID" FIELD (Some "id"))).
  - vm_compute. reflexivity.
  - vm_compute. apply list_elem_of_further, list_elem_of_here.
Defined.

(** ** Outgoing edges *)

Lemma filter_source_other (k k' : string) (n : TypeNode) :
  k' ≠ k →
  List.filter (λ e, bool_decide (source e = k)) (nodeEdges k' n) = [].
Proof.
  intros Hne. generalize (nodeEdges_source k' n).
  induction (nodeEdges k' n) as [|e es IH]; intros Hsrc; [done|].
  simpl. rewrite bool_decide_eq_false_2.
  - apply IH. intros e' He'. apply Hsrc. by right.
  - rewrite (Hsrc e); [done | left].
Qed.

Lemma filter_source_same (k : string) (n : TypeNode) :
  List.filter (λ e, bool_decide (source e = k)) (nodeEdges k n)
  = nodeEdges k n.
Proof.
  generalize (nodeEdges_source k n).
  induction (nodeEdges k n) as [|e es IH]; intros Hsrc; [done|].
  simpl. rewrite bool_decide_eq_true_2 by (apply Hsrc; left).
  f_equal. apply IH. intros e' He'. apply Hsrc. by right.
Qed.

Lemma filter_source_nodes (m : NodeMap) (k : string) (n : TypeNode) :
  NoDup (map_keys m) → (k, n) ∈ m →
  List.filter (λ e, bool_decide (source e = k))
    (m ≫= (λ kn, nodeEdges kn.1 kn.2))
  = nodeEdges k n.
Proof.
  induction m as [|[k' n'] m IH]; intros Hnd Hin.
  - by apply elem_of_nil in Hin.
  - unfold map_keys in *. rewrite fmap_cons in Hnd.
    apply NoDup_cons in Hnd as [Hk' Hnd]. cbn [fst] in Hk'.
    rewrite bind_cons, List.filter_app. cbn [fst snd].
    apply elem_of_cons in Hin as [[= -> ->]|Hin].
    + rewrite filter_source_same.
      assert (List.filter (λ e, bool_decide (source e = k'))
                (m ≫= (λ kn, nodeEdges kn.1 kn.2)) = []) as ->.
      { clear IH Hnd. induction m as [|[k2 n2] m IHm]; [done|].
        rewrite fmap_cons in Hk'. apply not_elem_of_cons in Hk' as [Hne Hk'].
        rewrite bind_cons, List.filter_app, IHm by done.
        cbn [fst snd]. rewrite filter_source_other by done. done. }
      by rewrite app_nil_r.
    + rewrite filter_source_other, IH; [done..|].
      intros ->. apply Hk'. by apply (list_elem_of_fmap_2 fst) in Hin.
Qed.

(** X6: the edges of a returned graph that leave a node are, in order,
    the FIELD edges of its fields, the IMPLEMENTS edges of its
    interfaces and the UNION_MEMBER edges of its possible types; its
    out-degree is the number of these. *)
Theorem outgoing_edges (fuel : nat) (d : IntrospectionData) (g : TypeGraph)
    (k : string) (n : TypeNode) :
  extractGraph fuel d = Some (inr g) →
  (k, n) ∈ nodes g →
  List.filter (λ e, bool_decide (source e = k)) (edges g)
  = (fieldEdge k <$> default [] (node_fields n))
    ++ (implementsEdge k <$> default [] (node_interfaces n))
    ++ (unionEdge k <$> default [] (node_possibleTypes n))
  ∧ length (List.filter (λ e, bool_decide (source e = k)) (edges g))
    = length (default [] (node_fields n))
      + length (default [] (node_interfaces n))
      + length (default [] (node_possibleTypes n)).
Proof.
  intros Hg Hin.
  destruct (extractGraph_inr _ _ _ Hg)
    as (typeMap & typeData & st & Hroot & Htm & -> & Hq & Hinv).
  cbn [nodes edges] in *.
  rewrite (returned_edges _ _ _ _ Hinv Hq).
  destruct Hinv as [Hc _].
  rewrite (filter_source_nodes _ k n (c_nodup _ _ _ _ Hc) Hin).
  split; [done|]. unfold nodeEdges.
  rewrite !length_app, !length_map. lia.
Qed.

Lemma outgoing_edges_witness :
  length (List.filter (λ e, bool_decide (source e = "Query")) (edges twinGraph))
  = 2.
Proof.
  refine (proj2 (outgoing_edges 3 twin twinGraph "Query"
                   (rootType twinGraph) _ _)).
  - vm_compute. reflexivity.
  - vm_compute. apply list_elem_of_here.
Defined.

(** ** Documents with the same lookup table *)

Lemma buildTypeMap_NoDup (ts : list IntrospectionType) (k : string)
    (t : IntrospectionType) :
  NoDup (type_name <$> ts) →
  buildTypeMap ts !! k = Some t ↔ t ∈ ts ∧ type_name t = k.
Proof.
  intros Hnd. split; [apply buildTypeMap_lookup|].
  intros [Hin <-].
  destruct (proj2 (buildTypeMap_is_Some ts (type_name t))) as [t' Ht'].
  { by exists t. }
  rewrite Ht'. f_equal.
  apply buildTypeMap_lookup in Ht' as [Hin' Hname].
  apply list_elem_of_lookup in Hin as [i Hi].
  apply list_elem_of_lookup in Hin' as [j Hj].
  assert (i = j) as ->; [|congruence].
  apply (NoDup_lookup _ i j (type_name t) Hnd);
    rewrite list_lookup_fmap; [by rewrite Hi | by rewrite Hj, <- Hname].
Qed.

Lemma filter_Permutation (f : IntrospectionType → bool)
    (ts ts' : list IntrospectionType) :
  ts ≡ₚ ts' → List.filter f ts ≡ₚ List.filter f ts'.
Proof.
  induction 1 as [|t l l' _ IH|t t' l|l1 l2 l3 _ IH1 _ IH2]; simpl.
  - done.
  - destruct (f t); by rewrite IH.
  - destruct (f t), (f t'); try done. apply perm_swap.
  - by etrans.
Qed.

Lemma filter_sublist (f : IntrospectionType → bool)
    (ts : list IntrospectionType) :
  List.filter f ts `sublist_of` ts.
Proof.
  induction ts as [|t ts IH]; simpl; [done|].
  destruct (f t); by constructor.
Qed.

Lemma buildTypeMap_Permutation (ts ts' : list IntrospectionType) :
  ts ≡ₚ ts' → NoDup (type_name <$> ts) → buildTypeMap ts = buildTypeMap ts'.
Proof.
  intros Hperm Hnd.
  assert (NoDup (type_name <$> ts')) as Hnd' by by rewrite <- Hperm.
  apply map_eq. intros k. apply option_eq. intros t.
  rewrite !buildTypeMap_NoDup by done. by rewrite Hperm.
Qed.

(** X7: when the type names of a document are pairwise distinct, the
    order in which the document lists its types does not matter: every
    reordering gives the same result, node order and edge order
    included. *)
Theorem type_order_irrelevant (fuel : nat) (q : option string)
    (ts ts' : list IntrospectionType) :
  ts ≡ₚ ts' →
  NoDup (type_name <$> ts) →
  extractGraph fuel (mkData (Some (mkSchema q (Some ts))))
  = extractGraph fuel (mkData (Some (mkSchema q (Some ts')))).
Proof.
  intros Hperm Hnd. unfold extractGraph, findRoot, parseIntrospection.
  cbn [mkData data result_schema schema_types schema_queryType parsed_types
       parsed_queryTypeName].
  rewrite (buildTypeMap_Permutation _
             (List.filter (λ t, negb (startsWith (type_name t) "__")) ts')).
  - done.
  - by apply filter_Permutation.
  - eapply sublist_NoDup; [exact Hnd|].
    apply fmap_sublist, filter_sublist.
Qed.

Lemma type_order_irrelevant_witness :
  extractGraph 4 scenario = extractGraph 4 (document (reverse scenarioTypes)).
Proof.
  apply (type_order_irrelevant 4 (Some "Query") scenarioTypes
           (reverse scenarioTypes)).
  - apply Permutation_sym, reverse_Permutation.
  - vm_compute. repeat (constructor; [set_solver|]). constructor.
Defined.

(** ** Records that the traversal never reaches *)

Lemma map_set_keys (k x : string) (v : TypeNode) (m : NodeMap) :
  x ∈ map_keys m → x ∈ map_keys (map_set k v m).
Proof.
  unfold map_keys. induction m as [|[k' v'] m IH]; simpl.
  - by intros ?%elem_of_nil.
  - intros Hx. case_decide as Hk; simpl.
    + by subst.
    + apply elem_of_cons in Hx as [->|Hx]; [left | right; by apply IH].
Qed.

Lemma map_set_key (k : string) (v : TypeNode) (m : NodeMap) :
  k ∈ map_keys (map_set k v m).
Proof.
  unfold map_keys. induction m as [|[k' v'] m IH]; simpl; [left|].
  case_decide; simpl; [left | by right].
Qed.

Section Orphan.
Variable typeMap : gmap string IntrospectionType.
Variable k : string.

Lemma visit_keys (st : State) (e : Edge) (x : string) :
  x ∈ map_keys (st_nodes st) → x ∈ map_keys (st_nodes (visit typeMap st e)).
Proof.
  unfold visit, discover. cbn [pushEdge st_nodes st_visited].
  case_decide; [done|]. destruct (typeMap !! target e); [|done].
  cbn [st_nodes]. apply map_set_keys.
Qed.

Lemma foldl_visit_keys (es : list Edge) (st : State) (x : string) :
  x ∈ map_keys (st_nodes st) →
  x ∈ map_keys (st_nodes (foldl (visit typeMap) st es)).
Proof.
  revert st. induction es as [|e es IH]; intros st Hx; simpl; [done|].
  by apply IH, visit_keys.
Qed.

Lemma bfs_keys (fuel : nat) (st st' : State) (x : string) :
  bfs fuel typeMap st = Some (inr st') →
  x ∈ map_keys (st_nodes st) → x ∈ map_keys (st_nodes st').
Proof.
  revert st. induction fuel as [|fuel IH]; intros st; [done|].
  simpl. unfold loopStep.
  destruct (st_queue st) as [|cur rest]; [by intros [= <-]|].
  destruct (map_get cur (st_nodes st)) as [node|]; [|done].
  intros Hbfs Hx. eapply IH; [exact Hbfs|].
  rewrite expand_foldl. by apply foldl_visit_keys.
Qed.

Lemma visit_delete (st : State) (e : Edge) :
  k ∉ map_keys (st_nodes (visit typeMap st e)) →
  visit (delete k typeMap) st e = visit typeMap st e.
Proof.
  unfold visit, discover. cbn [pushEdge st_nodes st_visited].
  case_decide; [done|].
  destruct (decide (target e = k)) as [->|Hne].
  - rewrite lookup_delete_eq.
    destruct (typeMap !! k) as [t|]; [|done].
    cbn [st_nodes]. intros []. apply map_set_key.
  - by rewrite lookup_delete_ne.
Qed.

Lemma foldl_visit_delete (es : list Edge) (st : State) :
  k ∉ map_keys (st_nodes (foldl (visit typeMap) st es)) →
  foldl (visit (delete k typeMap)) st es = foldl (visit typeMap) st es.
Proof.
  revert st. induction es as [|e es IH]; intros st Hk; simpl in *; [done|].
  rewrite visit_delete; [by apply IH|].
  intros Hin. apply Hk. by apply foldl_visit_keys.
Qed.

Lemma bfs_delete (fuel : nat) (st st' : State) :
  bfs fuel typeMap st = Some (inr st') →
  k ∉ map_keys (st_nodes st') →
  bfs fuel (delete k typeMap) st = Some (inr st').
Proof.
  revert st. induction fuel as [|fuel IH]; intros st; [done|].
  simpl. unfold loopStep.
  destruct (st_queue st) as [|cur rest]; [done|].
  destruct (map_get cur (st_nodes st)) as [node|]; [|done].
  intros Hbfs Hk. rewrite !expand_foldl in *.
  rewrite foldl_visit_delete; [by apply IH|].
  intros Hin. apply Hk. by eapply bfs_keys.
Qed.
End Orphan.

Lemma buildTypeMap_without (ts : list IntrospectionType) (k : string) :
  buildTypeMap (List.filter (λ t, negb (bool_decide (type_name t = k))) ts)
  = delete k (buildTypeMap ts).
Proof.
  induction ts as [|t ts IH] using rev_ind.
  - unfold buildTypeMap. simpl. by rewrite delete_empty.
  - rewrite List.filter_app, buildTypeMap_snoc. simpl.
    destruct (decide (type_name t = k)) as [<-|Hne].
    + rewrite bool_decide_eq_true_2 by done. simpl.
      by rewrite app_nil_r, IH, delete_insert_eq.
    + rewrite bool_decide_eq_false_2 by done. simpl.
      by rewrite buildTypeMap_snoc, IH, delete_insert_ne.
Qed.

Lemma filter_comm (f h : IntrospectionType → bool)
    (ts : list IntrospectionType) :
  List.filter f (List.filter h ts) = List.filter h (List.filter f ts).
Proof.
  induction ts as [|t ts IH]; [done|]. simpl.
  destruct (f t) eqn:Hf, (h t) eqn:Hh; simpl; rewrite ?Hf, ?Hh, IH; done.
Qed.

(** X8: the records of a name that did not become a node play no part:
    removing them from the document leaves the returned graph as it
    is. *)
Theorem orphan_irrelevant (fuel : nat) (q : option string)
    (ts : list IntrospectionType) (g : TypeGraph) (k : string) :
  extractGraph fuel (mkData (Some (mkSchema q (Some ts)))) = Some (inr g) →
  k ∉ map_keys (nodes g) →
  extractGraph fuel
    (mkData (Some (mkSchema q
       (Some (List.filter (λ t, negb (bool_decide (type_name t = k))) ts)))))
  = Some (inr g).
Proof.
  intros Hg Hk.
  assert (node_name (rootType g) ∈ map_keys (nodes g)) as Hrootkey.
  { destruct (extractGraph_inr _ _ _ Hg)
      as (typeMap & typeData & st & _ & _ & -> & _ & [Hc _]).
    apply (c_root _ _ _ _ Hc). }
  revert Hg. unfold extractGraph, findRoot, parseIntrospection.
  cbn [mkData data result_schema schema_types schema_queryType parsed_types
       parsed_queryTypeName].
  rewrite filter_comm, buildTypeMap_without.
  destruct q as [q|]; [|done]. case_decide; [done|]. case_decide; [done|].
  destruct (buildTypeMap _ !! q) as [t|] eqn:Hlook; [|done].
  destruct (bfs fuel _ (initState (createTypeNode t))) as [[e|st']|] eqn:Hbfs;
    try done.
  intros [= <-]. cbn [nodes rootType createTypeNode node_name] in Hk, Hrootkey.
  apply buildTypeMap_lookup in Hlook as Hname. destruct Hname as [_ Hname].
  assert (q ≠ k) as Hne by (intros <-; by rewrite Hname in Hrootkey).
  rewrite lookup_delete_ne, Hlook by done.
  by rewrite (bfs_delete _ _ _ _ _ Hbfs Hk).
Qed.

Lemma orphan_irrelevant_witness :
  extractGraph 4
    (document
       (List.filter (λ t, negb (bool_decide (type_name t = "Orphan")))
          (scenarioTypes ++ [orphanType])))
  = Some (inr scenarioGraph).
Proof.
  apply (orphan_irrelevant 4 (Some "Query") (scenarioTypes ++ [orphanType])
           scenarioGraph "Orphan").
  - vm_compute. reflexivity.
  - vm_compute. set_solver.
Defined.

(** ** Labels *)

Lemma append_cons (a : Ascii.ascii) (s t : string) :
  String a s +:+ t = String a (s +:+ t).
Proof. reflexivity. Qed.

Lemma append_nil (t : string) : EmptyString +:+ t = t.
Proof. reflexivity. Qed.

Lemma append_assoc (s t u : string) : (s +:+ t) +:+ u = s +:+ t +:+ u.
Proof.
  induction s as [|a s IH]; [done|]. by rewrite !append_cons, IH.
Qed.

Lemma substring_prefix (p s : string) :
  String.substring 0 (String.length p) (p +:+ s) = p.
Proof.
  induction p as [|a p IH].
  - by destruct s.
  - rewrite append_cons. simpl. by rewrite IH.
Qed.

(** X9: [cleanTypeName] removes one trailing "Type" from a longer name
    and leaves every other name, "Type" itself included, as it is; the
    label of a non-empty name is never empty. *)
Theorem cleanTypeName_spec (name : string) :
  (∀ p, name = p +:+ "Type" → p ≠ EmptyString → cleanTypeName name = p)
  ∧ (name = "Type" → cleanTypeName name = "Type")
  ∧ ((¬ ∃ p, name = p +:+ "Type") → cleanTypeName name = name)
  ∧ (name ≠ EmptyString → cleanTypeName name ≠ EmptyString).
Proof.
  assert (∀ p, name = p +:+ "Type" → p ≠ EmptyString →
               cleanTypeName name = p) as Hstrip.
  { intros p -> Hp. unfold cleanTypeName.
    rewrite (proj2 (endsWith_spec _ _)) by by exists p.
    rewrite bool_decide_eq_false_2.
    - simpl. rewrite length_append. simpl.
      replace (String.length p + 4 - 4) with (String.length p) by lia.
      apply substring_prefix.
    - intros Heq. apply (f_equal String.length) in Heq.
      rewrite length_append in Heq. simpl in Heq.
      destruct p; [done | simpl in Heq; lia]. }
  split_and!.
  - done.
  - by intros ->.
  - intros Hno. unfold cleanTypeName.
    destruct (endsWith name "Type") eqn:Hends; [|done].
    apply endsWith_spec in Hends. done.
  - intros Hne. destruct (endsWith name "Type") eqn:Hends.
    + apply endsWith_spec in Hends as [p ->].
      destruct (decide (p = EmptyString)) as [->|Hp]; [done|].
      by rewrite (Hstrip p).
    + unfold cleanTypeName. by rewrite Hends.
Qed.

Lemma cleanTypeName_spec_witness : cleanTypeName "DeviceType" = "Device".
Proof.
  apply (proj1 (cleanTypeName_spec "DeviceType") "Device"); [reflexivity|].
  discriminate.
Defined.

(** ** Edge identifiers *)

Lemma pretty_N_char_digit (x : N) : pretty_N_char x ≠ "-"%char.
Proof. unfold pretty_N_char. by repeat case_match. Qed.

Lemma pretty_N_go_dash (x : N) (s : string) :
  occurs "-"%char (pretty_N_go x s) → occurs "-"%char s.
Proof.
  revert s. induction (N.lt_wf_0 x) as [x _ IH]; intros s.
  assert (x = 0 ∨ 0 < x)%N as [->|Hpos] by lia.
  - by rewrite pretty_N_go_0.
  - rewrite pretty_N_go_step by done.
    intros [Hc|Hs]%IH; [|done|by apply N.div_lt].
    by apply pretty_N_char_digit in Hc.
Qed.

Lemma pretty_nat_dash (n : nat) : ¬ occurs "-"%char (pretty n).
Proof.
  unfold pretty, pretty_nat, pretty, pretty_N.
  case_decide.
  - simpl. by intros [?|[]].
  - by intros ?%pretty_N_go_dash.
Qed.

(** Two strings that end in a dash followed by dash-free text agree on
    that text when they are equal. *)
Lemma dash_suffix_inj (s1 s2 d1 d2 : string) :
  ¬ occurs "-"%char d1 → ¬ occurs "-"%char d2 →
  s1 +:+ "-" +:+ d1 = s2 +:+ "-" +:+ d2 → d1 = d2.
Proof.
  assert (∀ s d, occurs "-"%char (s +:+ "-" +:+ d)) as Hocc.
  { intros s d. induction s as [|a s IH]; [by left | by right]. }
  intros Hd1 Hd2. revert s2.
  induction s1 as [|a s1 IH]; intros [|b s2];
    rewrite ?append_nil, ?append_cons, ?append_nil; intros Heq.
  - by injection Heq.
  - injection Heq as _ ->. destruct Hd1. apply Hocc.
  - injection Heq as _ <-. destruct Hd2. apply Hocc.
  - injection Heq as _ Heq. by apply (IH s2).
Qed.

Lemma toReactFlowEdge_id_inj (i j : nat) (e e' : Edge) :
  rfe_id (toReactFlowEdge i e) = rfe_id (toReactFlowEdge j e') → i = j.
Proof.
  assert (∀ n x, rfe_id (toReactFlowEdge n x)
                 = ("e-" +:+ source x +:+ "-" +:+ target x)
                   +:+ "-" +:+ pretty n) as Hid.
  { intros n x. cbn [toReactFlowEdge rfe_id]. by rewrite !append_assoc. }
  rewrite !Hid.
  intros Heq%dash_suffix_inj; [|apply pretty_nat_dash..].
  by apply (inj pretty).
Qed.

(** X10: the identifiers that [toReactFlow] gives to the edges are
    pairwise distinct, whatever the names in the graph are. *)
Theorem edge_ids_distinct (graph : TypeGraph) :
  NoDup (rfe_id <$> rf_edges (toReactFlow graph)).
Proof.
  cbn [toReactFlow rf_edges]. apply NoDup_alt. intros i j x.
  rewrite !list_lookup_fmap, !list_lookup_imap.
  destruct (edges graph !! i) as [e|]; [|done].
  destruct (edges graph !! j) as [e'|]; [|done].
  cbn [fmap option_fmap option_map]. intros Hx Hy.
  apply (toReactFlowEdge_id_inj i j e e'). congruence.
Qed.

(** ** The projection keeps the graph *)

Lemma imap_position_ids (f : nat → ReactFlowNode → ReactFlowNode)
    (l : list ReactFlowNode) :
  (∀ i n, rfn_id (f i n) = rfn_id n) →
  rfn_id <$> imap f l = rfn_id <$> l.
Proof.
  intros Hf. rewrite fmap_imap, <- (imap_const rfn_id).
  apply imap_ext. intros i n _. apply Hf.
Qed.

Lemma toReactFlow_ids (graph : TypeGraph) :
  rfn_id <$> rf_nodes (toReactFlow graph) = node_name <$> (nodes graph).*2.
Proof.
  cbn [toReactFlow rf_nodes]. unfold layoutNodes, simpleGridLayout.
  rewrite imap_position_ids by done.
  rewrite <- list_fmap_compose. done.
Qed.

Lemma names_are_keys (m : NodeMap) :
  Forall (λ kn, node_name kn.2 = kn.1) m → node_name <$> m.*2 = map_keys m.
Proof.
  unfold map_keys. induction 1 as [|[k n] m Hkn _ IH]; [done|].
  rewrite !fmap_cons, IH. cbn [fst snd] in *. by rewrite Hkn.
Qed.

(** X11: [toReactFlow] keeps the nodes and the edges in their order and
    number; the identifier of a node is its name, and the edge at an
    index keeps its source and target, is animated exactly when it is a
    FIELD edge and carries the dash pattern of its kind. *)
Theorem toReactFlow_structure (graph : TypeGraph) :
  rfn_id <$> rf_nodes (toReactFlow graph) = node_name <$> (nodes graph).*2
  ∧ length (rf_nodes (toReactFlow graph)) = length (nodes graph)
  ∧ length (rf_edges (toReactFlow graph)) = length (edges graph)
  ∧ ∀ i e, edges graph !! i = Some e →
      ∃ r, rf_edges (toReactFlow graph) !! i = Some r
        ∧ rfe_source r = source e
        ∧ rfe_target r = target e
        ∧ (rfe_animated r = Some true ↔ edgeType e = FIELD)
        ∧ (rfe_style r ≫= strokeDasharray = Some "5,5"
           ↔ edgeType e = IMPLEMENTS)
        ∧ (rfe_style r ≫= strokeDasharray = Some "3,3"
           ↔ edgeType e = UNION_MEMBER).
Proof.
  split_and!.
  - apply toReactFlow_ids.
  - rewrite <- (length_fmap rfn_id), toReactFlow_ids. by rewrite !length_fmap.
  - cbn [toReactFlow rf_edges]. apply length_imap.
  - intros i e Hi. exists (toReactFlowEdge i e).
    cbn [toReactFlow rf_edges]. rewrite list_lookup_imap, Hi.
    split_and!; try done; destruct e as [s t [] fn]; compute; split;
      intros H; first [done | discriminate H].
Qed.

Lemma toReactFlow_structure_witness :
  ∃ r, rf_edges (toReactFlow scenarioGraph) !! 1 = Some r
       ∧ rfe_source r = "DeviceType" ∧ rfe_target r = "ID".
Proof.
  destruct (proj2 (proj2 (proj2 (toReactFlow_structure scenarioGraph))) 1
              (mkEdge "DeviceType" "ID" FIELD (Some "id")))
    as (r & Hr & Hs & Ht & _).
  - reflexivity.
  - exists r. by rewrite Hs, Ht.
Defined.

(** X12: projected from a returned graph, the node identifiers are the
    keys of the node mapping in their order, hence pairwise distinct,
    the first node is the root, and the source of every projected edge
    is the identifier of a projected node. *)
Theorem projection_of_extraction (fuel : nat) (d : IntrospectionData)
    (g : TypeGraph) :
  extractGraph fuel d = Some (inr g) →
  rfn_id <$> rf_nodes (toReactFlow g) = map_keys (nodes g)
  ∧ NoDup (rfn_id <$> rf_nodes (toReactFlow g))
  ∧ head (rfn_id <$> rf_nodes (toReactFlow g)) = Some (node_name (rootType g))
  ∧ Forall (λ r, rfe_source r ∈ rfn_id <$> rf_nodes (toReactFlow g))
           (rf_edges (toReactFlow g)).
Proof.
  intros Hg.
  assert (rfn_id <$> rf_nodes (toReactFlow g) = map_keys (nodes g)) as Hids.
  { rewrite toReactFlow_ids.
    destruct (extractGraph_inr _ _ _ Hg)
      as (typeMap & typeData & st & Hroot & Htm & -> & Hq & Hinv).
    destruct (findRoot_inr _ _ _ Hroot) as (p & _ & _ & -> & _).
    cbn [nodes]. apply names_are_keys, Forall_forall. intros [k n] Hi.
    destruct (node_from_table _ _ _ _ _ _ Hinv Hi) as (t & Ht & ->).
    by apply buildTypeMap_lookup in Ht as [_ Ht]. }
  rewrite Hids.
  destruct (extractGraph_inr _ _ _ Hg)
    as (typeMap & typeData & st & Hroot & Htm & Hgeq & Hq & [Hc _]).
  split_and!.
  - done.
  - subst g. apply (c_nodup _ _ _ _ Hc).
  - destruct (extractGraph_first _ _ _ Hg) as [others Hn].
    rewrite Hn. reflexivity.
  - subst g. cbn [toReactFlow rf_edges nodes edges].
    apply Forall_forall. intros r [i [e [-> He]]]%elem_of_lookup_imap.
    cbn [toReactFlowEdge rfe_source].
    pose proof (c_sources _ _ _ _ Hc) as Hs.
    eapply Forall_forall in Hs; [exact Hs|].
    by apply list_elem_of_lookup_2 in He.
Qed.

Lemma projection_of_extraction_witness :
  rfn_id <$> rf_nodes (toReactFlow scenarioGraph)
  = map_keys (nodes scenarioGraph).
Proof.
  apply (projection_of_extraction 4 scenario scenarioGraph).
  vm_compute. reflexivity.
Defined.

(** ** The grid layout *)

Lemma sqrt_up_bounds (n : nat) :
  0 < n → 0 < Nat.sqrt_up n ∧ n ≤ Nat.sqrt_up n * Nat.sqrt_up n.
Proof.
  intros Hn. destruct (Nat.sqrt_up_spec n Hn) as [_ Hle].
  split; [|exact Hle].
  destruct (Nat.sqrt_up n); [simpl in Hle; lia | lia].
Qed.

(** X13: the grid layout keeps the nodes, their order and their data,
    and places the node at index [i] in column [i mod c] and row
    [i / c] of a square grid of side [c], the least number whose square
    is at least the number of nodes, with cells 250 wide and 150 high;
    no two nodes get the same position. *)
Theorem grid_layout (ns : list ReactFlowNode) (es : list ReactFlowEdge) :
  let c := Nat.sqrt_up (length ns) in
  length (layoutNodes ns es) = length ns
  ∧ rfn_id <$> layoutNodes ns es = rfn_id <$> ns
  ∧ rfn_data <$> layoutNodes ns es = rfn_data <$> ns
  ∧ (∀ i n, layoutNodes ns es !! i = Some n →
       ∃ col row, col < c ∧ row < c ∧ i = row * c + col
         ∧ rfn_position n = (inject_Z (250 * Z.of_nat col),
                            inject_Z (150 * Z.of_nat row)))
  ∧ ∀ i j n m, layoutNodes ns es !! i = Some n →
      layoutNodes ns es !! j = Some m →
      rfn_position n = rfn_position m → i = j.
Proof.
  cbv zeta.
  assert (∀ i n, layoutNodes ns es !! i = Some n →
            ∃ col row, col < Nat.sqrt_up (length ns)
              ∧ row < Nat.sqrt_up (length ns)
              ∧ i = row * Nat.sqrt_up (length ns) + col
              ∧ rfn_position n = (inject_Z (250 * Z.of_nat col),
                            inject_Z (150 * Z.of_nat row)))
    as Hcell.
  { intros i n. unfold layoutNodes, simpleGridLayout. cbv zeta.
    rewrite list_lookup_imap_Some. intros (n0 & Hi & ->).
    apply lookup_lt_Some in Hi.
    destruct (sqrt_up_bounds (length ns)) as [Hpos Hsq]; [lia|].
    revert Hpos Hsq. generalize (Nat.sqrt_up (length ns)). intros c Hpos Hsq.
    exists (i `mod` c), (i `div` c). split_and!.
    - apply Nat.mod_upper_bound. lia.
    - apply Nat.Div0.div_lt_upper_bound. lia.
    - rewrite (Nat.mul_comm _ c). apply Nat.div_mod_eq.
    - cbn [rfn_position]. do 2 f_equal; lia. }
  split_and!.
  - apply length_imap.
  - unfold layoutNodes, simpleGridLayout. by apply imap_position_ids.
  - unfold layoutNodes, simpleGridLayout.
    rewrite fmap_imap, <- (imap_const rfn_data). by apply imap_ext.
  - exact Hcell.
  - intros i j n m Hi Hj Hpos.
    destruct (Hcell i n Hi) as (ci & ri & _ & _ & -> & Hn).
    destruct (Hcell j m Hj) as (cj & rj & _ & _ & -> & Hm).
    rewrite Hn, Hm in Hpos. unfold inject_Z in Hpos.
    injection Hpos as Hx Hy.
    assert (ci = cj) as -> by lia. assert (ri = rj) as -> by lia. done.
Qed.

(** ** Filtering *)

Lemma filter_filter {A} (f : A → bool) (l : list A) :
  List.filter f (List.filter f l) = List.filter f l.
Proof.
  induction l as [|x l IH]; [done|]. simpl.
  destruct (f x) eqn:Hf; simpl; rewrite ?Hf, IH; done.
Qed.

Lemma filter_sublist_of {A} (f : A → bool) (l : list A) :
  List.filter f l `sublist_of` l.
Proof.
  induction l as [|x l IH]; simpl; [done|].
  destruct (f x); by constructor.
Qed.

Lemma filter_elem {A} (f : A → bool) (l : list A) (x : A) :
  x ∈ List.filter f l ↔ x ∈ l ∧ f x = true.
Proof. by rewrite !list_elem_of_In, filter_In. Qed.

Lemma nodeShown_spec (filters : FilterState) (node : ReactFlowNode) :
  nodeShown filters node = true
  ↔ ¬ (hideBuiltIns filters = true
       ∧ nd_isBuiltIn (rfn_data node) = Some true)
    ∧ ¬ (hideRelay filters = true
         ∧ nd_isRelay (rfn_data node) = Some true).
Proof.
  unfold nodeShown.
  destruct (hideBuiltIns filters), (hideRelay filters),
    (nd_isBuiltIn (rfn_data node)) as [[]|],
    (nd_isRelay (rfn_data node)) as [[]|]; simpl; split;
    first [done | intros [H1 H2]; exfalso; first [by apply H1 | by apply H2]
          | by (intros _; split; intros [? ?])].
Qed.

Lemma edgeShown_ends (filters : FilterState) (ids : gset string)
    (edge : ReactFlowEdge) :
  edgeShown filters ids edge = true →
  rfe_source edge ∈ ids ∧ rfe_target edge ∈ ids.
Proof.
  unfold edgeShown.
  destruct (bool_decide (rfe_source edge ∈ ids)) eqn:Hs; [|done].
  destruct (bool_decide (rfe_target edge ∈ ids)) eqn:Ht; [|done].
  intros _. by apply bool_decide_eq_true in Hs, Ht.
Qed.

(** X14: what [useFilteredGraph] returns is a sub-diagram: the nodes
    are, in order, the nodes that no enabled hide flag excludes, the
    edges are taken in order from the given edges, and both ends of
    every remaining edge are identifiers of remaining nodes. *)
Theorem filtered_graph_closed (ns : list ReactFlowNode)
    (es : list ReactFlowEdge) (filters : FilterState) :
  let shown := useFilteredGraph ns es filters in
  shown.1 `sublist_of` ns
  ∧ shown.2 `sublist_of` es
  ∧ (∀ n, n ∈ shown.1 ↔
       n ∈ ns
       ∧ ¬ (hideBuiltIns filters = true
            ∧ nd_isBuiltIn (rfn_data n) = Some true)
       ∧ ¬ (hideRelay filters = true ∧ nd_isRelay (rfn_data n) = Some true))
  ∧ ∀ e, e ∈ shown.2 →
      rfe_source e ∈ rfn_id <$> shown.1 ∧ rfe_target e ∈ rfn_id <$> shown.1.
Proof.
  unfold useFilteredGraph. cbv zeta. cbn [fst snd]. split_and!.
  - apply filter_sublist_of.
  - apply filter_sublist_of.
  - intros n. by rewrite filter_elem, nodeShown_spec.
  - intros e [_ He]%filter_elem.
    apply edgeShown_ends in He. by rewrite !elem_of_list_to_set in He.
Qed.

(** X15: filtering is idempotent: filtering the result again with the
    same filters changes nothing. *)
Theorem filtered_graph_idempotent (ns : list ReactFlowNode)
    (es : list ReactFlowEdge) (filters : FilterState) :
  let shown := useFilteredGraph ns es filters in
  useFilteredGraph shown.1 shown.2 filters = shown.
Proof.
  unfold useFilteredGraph. cbv zeta. cbn [fst snd].
  by rewrite !filter_filter.
Qed.

Lemma edgeShown_projected (filters : FilterState) (ids : gset string)
    (i : nat) (e : Edge) :
  edgeShown filters ids (toReactFlowEdge i e) = true
  ↔ shows filters (edgeType e) = true ∧ source e ∈ ids ∧ target e ∈ ids.
Proof.
  unfold edgeShown. cbn [toReactFlowEdge rfe_source rfe_target rfe_animated
                         rfe_style].
  destruct (decide (source e ∈ ids)) as [Hs|Hs];
    [rewrite (bool_decide_eq_true_2 _ Hs)
    |rewrite (bool_decide_eq_false_2 _ Hs); simpl; split; [done|tauto]].
  destruct (decide (target e ∈ ids)) as [Ht|Ht];
    [rewrite (bool_decide_eq_true_2 _ Ht)
    |rewrite (bool_decide_eq_false_2 _ Ht); simpl; split; [done|tauto]].
  destruct e as [s t [] fn], filters as [[] [] [] hb hr]; compute;
    split; first [done | tauto | by intros [? _]].
Qed.

(** The same fact with the two results of the filter written out. *)
Lemma projected_edge_shown_aux (graph : TypeGraph) (filters : FilterState)
    (i : nat) (e : Edge) :
  edges graph !! i = Some e →
  toReactFlowEdge i e
    ∈ (useFilteredGraph (rf_nodes (toReactFlow graph))
         (rf_edges (toReactFlow graph)) filters).2
  ↔ shows filters (edgeType e) = true
    ∧ source e ∈ rfn_id <$> (useFilteredGraph (rf_nodes (toReactFlow graph))
                               (rf_edges (toReactFlow graph)) filters).1
    ∧ target e ∈ rfn_id <$> (useFilteredGraph (rf_nodes (toReactFlow graph))
                               (rf_edges (toReactFlow graph)) filters).1.
Proof.
  intros Hi. unfold useFilteredGraph. cbv zeta. cbn [fst snd].
  rewrite filter_elem, edgeShown_projected, !elem_of_list_to_set.
  split; [tauto|]. intros H. split; [|done].
  cbn [toReactFlow rf_edges]. by apply elem_of_lookup_imap_2.
Qed.

(** X16: the style that [toReactFlow] gives to an edge tells
    [useFilteredGraph] its kind: the projection of an edge of the graph
    is kept exactly when edges of its kind are shown and both its
    source and its target are identifiers of visible nodes. *)
Theorem projected_edge_shown (graph : TypeGraph) (filters : FilterState)
    (i : nat) (e : Edge) :
  edges graph !! i = Some e →
  let diagram := toReactFlow graph in
  let shown := useFilteredGraph (rf_nodes diagram) (rf_edges diagram) filters in
  toReactFlowEdge i e ∈ shown.2
  ↔ shows filters (edgeType e) = true
    ∧ source e ∈ rfn_id <$> shown.1
    ∧ target e ∈ rfn_id <$> shown.1.
Proof.
  intros Hi. unfold useFilteredGraph. cbv zeta. cbn [fst snd].
  rewrite filter_elem, edgeShown_projected, !elem_of_list_to_set.
  split; [tauto|]. intros H. split; [|done].
  cbn [toReactFlow rf_edges]. by apply elem_of_lookup_imap_2.
Qed.

Lemma projected_edge_shown_witness :
  toReactFlowEdge 0 (mkEdge "Query" "DeviceType" FIELD (Some "device"))
  ∈ (useFilteredGraph (rf_nodes (toReactFlow scenarioGraph))
       (rf_edges (toReactFlow scenarioGraph)) initialFilters).2.
Proof.
  apply (projected_edge_shown scenarioGraph initialFilters 0
           (mkEdge "Query" "DeviceType" FIELD (Some "device"))).
  - reflexivity.
  - split_and!.
    + reflexivity.
    + vm_compute. apply list_elem_of_here.
    + vm_compute. apply list_elem_of_further, list_elem_of_here.
Defined.

(** ** From the document to the filtered diagram *)

Lemma projected_node (graph : TypeGraph) (r : ReactFlowNode) :
  r ∈ rf_nodes (toReactFlow graph) →
  ∃ kn, kn ∈ nodes graph
    ∧ rfn_id r = node_name kn.2
    ∧ rfn_data r = rfn_data (toReactFlowNode kn.2).
Proof.
  cbn [toReactFlow rf_nodes]. unfold layoutNodes, simpleGridLayout.
  intros (i & n0 & -> & Hn0)%elem_of_lookup_imap.
  rewrite !list_lookup_fmap in Hn0.
  apply fmap_Some in Hn0 as (n & Hn & ->).
  apply fmap_Some in Hn as (kn & Hkn & ->).
  exists kn. split; [|done]. by apply list_elem_of_lookup_2 in Hkn.
Qed.

Lemma node_projected (graph : TypeGraph) (kn : string * TypeNode) :
  kn ∈ nodes graph →
  ∃ r, r ∈ rf_nodes (toReactFlow graph)
    ∧ rfn_id r = node_name kn.2
    ∧ rfn_data r = rfn_data (toReactFlowNode kn.2).
Proof.
  intros [i Hi]%list_elem_of_lookup.
  cbn [toReactFlow rf_nodes]. unfold layoutNodes, simpleGridLayout.
  eexists. split.
  - apply elem_of_lookup_imap. exists i, (toReactFlowNode kn.2).
    split; [reflexivity|]. by rewrite !list_lookup_fmap, Hi.
  - done.
Qed.

Lemma shown_ids (graph : TypeGraph) (filters : FilterState) (k : string) :
  k ∈ rfn_id <$> (useFilteredGraph (rf_nodes (toReactFlow graph))
                    (rf_edges (toReactFlow graph)) filters).1
  ↔ ∃ n, n ∈ (nodes graph).*2 ∧ node_name n = k
      ∧ ¬ (hideBuiltIns filters = true ∧ isBuiltIn n = true)
      ∧ ¬ (hideRelay filters = true ∧ isRelay n = true).
Proof.
  unfold useFilteredGraph. cbv zeta. cbn [fst]. rewrite list_elem_of_fmap.
  split.
  - intros (r & -> & [Hr Hshown]%filter_elem).
    apply projected_node in Hr as (kn & Hkn & Hid & Hdata).
    apply nodeShown_spec in Hshown as [Hb Hl]. rewrite Hdata in Hb, Hl.
    cbn in Hb, Hl.
    exists kn.2. split_and!.
    + by apply list_elem_of_fmap_2.
    + done.
    + intros [H1 H2]. apply Hb. by rewrite H2.
    + intros [H1 H2]. apply Hl. by rewrite H2.
  - intros (n & [kn [-> Hkn]]%list_elem_of_fmap & <- & Hb & Hl).
    destruct (node_projected _ _ Hkn) as (r & Hr & Hid & Hdata).
    exists r. split; [done|]. apply filter_elem. split; [done|].
    apply nodeShown_spec. rewrite Hdata. cbn.
    split; intros [? [= Hflag]]; [apply Hb | apply Hl]; done.
Qed.

(** X17: from the document to the filtered diagram: the projection of
    an edge of a returned graph is displayed exactly when edges of its
    kind are shown and both its ends are nodes of the graph that no
    enabled hide flag excludes.  With nothing hidden, an edge of a shown
    kind is displayed exactly when its target is a node, so the edges
    to names without a record never reach the diagram. *)
Theorem shown_edges_of_extraction (fuel : nat) (d : IntrospectionData)
    (g : TypeGraph) (filters : FilterState) (i : nat) (e : Edge) :
  extractGraph fuel d = Some (inr g) →
  edges g !! i = Some e →
  let diagram := toReactFlow g in
  let shown := useFilteredGraph (rf_nodes diagram) (rf_edges diagram) filters in
  let visible k :=
    ∃ n, (k, n) ∈ nodes g
      ∧ ¬ (hideBuiltIns filters = true ∧ isBuiltIn n = true)
      ∧ ¬ (hideRelay filters = true ∧ isRelay n = true) in
  (toReactFlowEdge i e ∈ shown.2
   ↔ shows filters (edgeType e) = true
     ∧ visible (source e) ∧ visible (target e))
  ∧ (hideBuiltIns filters = false → hideRelay filters = false →
     shows filters (edgeType e) = true →
     (toReactFlowEdge i e ∈ shown.2 ↔ target e ∈ map_keys (nodes g))).
Proof.
  intros Hg Hi diagram shown visible.
  assert (∀ k, k ∈ rfn_id <$> shown.1 ↔ visible k) as Hvis.
  { intros k. unfold shown, diagram. rewrite shown_ids.
    destruct (extractGraph_inr _ _ _ Hg)
      as (typeMap & typeData & st & Hroot & Htm & Hgeq & Hq & Hinv).
    destruct (findRoot_inr _ _ _ Hroot) as (p & _ & _ & -> & _).
    assert (∀ k' n, (k', n) ∈ nodes g → node_name n = k') as Hname.
    { subst g. intros k' n Hn.
      destruct (node_from_table _ _ _ _ _ _ Hinv Hn) as (t & Ht & ->).
      by apply buildTypeMap_lookup in Ht as [_ Ht]. }
    unfold visible. split.
    - intros (n & [[k' n'] [-> Hn]]%list_elem_of_fmap & <- & Hb & Hl).
      exists n'. cbn [snd] in *. by rewrite (Hname k' n' Hn).
    - intros (n & Hn & Hb & Hl). exists n. split_and!; [|by eapply Hname|done..].
      apply list_elem_of_fmap. by exists (k, n). }
  assert (toReactFlowEdge i e ∈ shown.2
          ↔ shows filters (edgeType e) = true
            ∧ visible (source e) ∧ visible (target e)) as Hshown.
  { rewrite <- !Hvis. by apply projected_edge_shown_aux. }
  split; [exact Hshown|].
  intros Hb Hl Hkind. rewrite Hshown.
  assert (∀ k, visible k ↔ k ∈ map_keys (nodes g)) as Hall.
  { intros k. rewrite keys_elem. unfold visible. rewrite Hb, Hl.
    split; [intros (n & Hn & _); by exists n|].
    intros [n Hn]. exists n. split_and!; [done|by intros [? _]..]. }
  rewrite !Hall. split; [tauto|]. intros Ht. split_and!; [done| |done].
  destruct (extractGraph_inr _ _ _ Hg)
    as (typeMap & typeData & st & _ & _ & -> & _ & [Hc _]).
  pose proof (c_sources _ _ _ _ Hc) as Hs.
  eapply Forall_forall in Hs; [exact Hs|].
  by apply list_elem_of_lookup_2 in Hi.
Qed.

Lemma shown_edges_of_extraction_witness :
  toReactFlowEdge 1 (mkEdge "DeviceType" "ID" FIELD (Some "id"))
  ∉ (useFilteredGraph (rf_nodes (toReactFlow scenarioGraph))
       (rf_edges (toReactFlow scenarioGraph)) showAll).2.
Proof.
  intros H.
  destruct (shown_edges_of_extraction 4 scenario scenarioGraph showAll 1
              (mkEdge "DeviceType" "ID" FIELD (Some "id"))) as [_ Hall].
  - vm_compute. reflexivity.
  - reflexivity.
  - apply Hall in H; [|reflexivity..]. vm_compute in H.
    repeat (apply elem_of_cons in H as [H|H]; [discriminate H|]).
    by apply elem_of_nil in H.
Defined.

(** ** Connection counts *)

Lemma filter_imap_length (f : nat → Edge → ReactFlowEdge)
    (h : ReactFlowEdge → bool) (h' : Edge → bool) (l : list Edge) :
  (∀ i e, h (f i e) = h' e) →
  length (List.filter h (imap f l)) = length (List.filter h' l).
Proof.
  revert f. induction l as [|e l IH]; intros f Hf; [reflexivity|].
  rewrite imap_cons. simpl. rewrite Hf.
  destruct (h' e); simpl; rewrite IH by (intros; apply Hf); done.
Qed.

Lemma filter_length_pos (h : Edge → bool) (l : list Edge) (e : Edge) :
  e ∈ l → h e = true → 0 < length (List.filter h l).
Proof.
  intros Hin He.
  assert (e ∈ List.filter h l) as Hf by by apply filter_elem.
  destruct (List.filter h l); [by apply elem_of_nil in Hf | simpl; lia].
Qed.

(** X18: the connection counts shown for a selected node of a diagram
    projected from a returned graph: the outgoing count is the number
    of fields, interfaces and possible types of the type, and the
    incoming count of every type but the root is at least one; without
    a selection both are zero. *)
Theorem connection_counts (fuel : nat) (d : IntrospectionData) (g : TypeGraph)
    (k : string) (n : TypeNode) (selected : ReactFlowNode) :
  extractGraph fuel d = Some (inr g) →
  (k, n) ∈ nodes g →
  rfn_id selected = k →
  let counts := connectionCounts (Some selected) (rf_edges (toReactFlow g)) in
  counts.2 = length (default [] (node_fields n))
             + length (default [] (node_interfaces n))
             + length (default [] (node_possibleTypes n))
  ∧ (k ≠ node_name (rootType g) → 0 < counts.1)
  ∧ connectionCounts None (rf_edges (toReactFlow g)) = (0, 0).
Proof.
  intros Hg Hin Hid.
  destruct (extractGraph_inr _ _ _ Hg)
    as (typeMap & typeData & st & Hroot & Htm & -> & Hq & Hinv).
  cbn [nodes edges rootType createTypeNode node_name toReactFlow rf_edges
       connectionCounts fst snd] in *.
  rewrite Hid.
  rewrite (filter_imap_length _ _ (λ e, bool_decide (source e = k))) by done.
  rewrite (filter_imap_length _ _ (λ e, bool_decide (target e = k))) by done.
  pose proof Hinv as [Hc _]. split_and!; [|intros Hne|done].
  - rewrite (returned_edges _ _ _ _ Hinv Hq).
    rewrite (filter_source_nodes _ k n (c_nodup _ _ _ _ Hc) Hin).
    unfold nodeEdges. rewrite !length_app, !length_map. lia.
  - destruct (incoming_edge _ _ _ _ k Hc) as (e & He & Ht & _); [|done|].
    { apply keys_elem. by exists n. }
    apply (filter_length_pos _ _ e He). by apply bool_decide_eq_true.
Qed.

Lemma connection_counts_witness :
  (connectionCounts (Some (toReactFlowNode (createTypeNode deviceType)))
     (rf_edges (toReactFlow scenarioGraph))).2 = 2.
Proof.
  apply (proj1 (connection_counts 4 scenario scenarioGraph "DeviceType"
                  (createTypeNode deviceType)
                  (toReactFlowNode (createTypeNode deviceType))
                  eq_refl
                  (list_elem_of_further _ _ _ (list_elem_of_here _ _))
                  eq_refl)).
Defined.

(** ** The traversal proceeds layer by layer *)

Lemma pairs_unique (l : list (string * nat)) (k : string) (a b : nat) :
  NoDup l.*1 → (k, a) ∈ l → (k, b) ∈ l → a = b.
Proof.
  induction l as [|[k' c] l IH]; simpl; [by intros _ ?%elem_of_nil|].
  intros [Hk Hnd]%NoDup_cons [Ha|Ha]%elem_of_cons [Hb|Hb]%elem_of_cons.
  - congruence.
  - injection Ha as -> ->. destruct Hk.
    apply list_elem_of_fmap. by exists (k', b).
  - injection Hb as -> ->. destruct Hk.
    apply list_elem_of_fmap. by exists (k', a).
  - by apply IH.
Qed.

Section Layers.
Variable typeMap : gmap string IntrospectionType.
Variable root : string.

Lemma visit_expanding (front : list string) (lvF lvQ : list (string * nat))
    (cur : string) (dc : nat) (st : State) (seenEdges : list Edge) (e : Edge) :
  consistent typeMap root front st →
  expanding typeMap root lvF cur dc lvQ st seenEdges →
  e ∈ edgesOf typeMap cur →
  ∃ lvQ', expanding typeMap root lvF cur dc lvQ' (visit typeMap st e)
            (seenEdges ++ [e]).
Proof.
  intros Hc [Hroot Hk Hq Hs Hr Hcl Hb Hd] He.
  assert (∀ t, t ∈ map_keys (st_nodes st) →
            ∃ db, (t, db) ∈ lvF ++ (cur, dc) :: lvQ ∧ db ≤ S dc) as Hold.
  { intros t Ht. rewrite <- Hk in Ht.
    apply list_elem_of_fmap in Ht as ([t' db] & -> & Hin).
    exists db. split; [done|].
    eapply Forall_forall in Hb; [|exact Hin]. done. }
  unfold visit, discover.
  cbn [pushEdge st_nodes st_edges st_visited st_queue].
  destruct (decide (target e ∈ st_visited st)) as [Hin|Hnew].
  { exists lvQ. split; try done.
    apply Forall_app. split; [done|]. apply Forall_singleton. intros _.
    apply Hold.
    by rewrite (c_visited _ _ _ _ Hc), elem_of_list_to_set in Hin. }
  destruct (typeMap !! target e) as [typeData|] eqn:Htm.
  2:{ exists lvQ. split; try done.
      apply Forall_app. split; [done|]. apply Forall_singleton.
      rewrite Htm. by intros ?%is_Some_None. }
  rewrite (c_visited _ _ _ _ Hc), elem_of_list_to_set in Hnew.
  exists (lvQ ++ [(target e, S dc)]).
  assert (lvF ++ (cur, dc) :: lvQ ++ [(target e, S dc)]
          = (lvF ++ (cur, dc) :: lvQ) ++ [(target e, S dc)]) as Hall.
  { by rewrite <- app_assoc. }
  split; cbn [st_nodes st_edges st_visited st_queue]; rewrite ?Hall.
  - apply elem_of_app. by left.
  - rewrite map_set_fresh by done. unfold map_keys in *.
    rewrite (fmap_app fst (lvF ++ (cur, dc) :: lvQ)), Hk.
    by rewrite fmap_app.
  - by rewrite fmap_app, Hq.
  - rewrite fmap_app. apply StronglySorted_app_2; [|done|].
    + intros x1 x2 Hx1 ->%list_elem_of_singleton.
      apply list_elem_of_fmap in Hx1 as ([k d1] & -> & Hin).
      eapply Forall_forall in Hb; [|exact Hin]. done.
    + repeat constructor.
  - apply Forall_app. split; [done|]. apply Forall_singleton. cbn [fst snd].
    apply reachIn_step with cur.
    + assert ((cur, dc) ∈ lvF ++ (cur, dc) :: lvQ) as Hcur.
      { apply elem_of_app. right. left. }
      eapply Forall_forall in Hr; [|exact Hcur]. done.
    + split; [|by rewrite Htm].
      apply list_elem_of_fmap. by exists e.
  - intros a da b Ha Hab. destruct (Hcl a da b Ha Hab) as (db & Hin & Hle).
    exists db. split; [|done]. apply elem_of_app. by left.
  - apply Forall_app. split; [done|]. by apply Forall_singleton.
  - apply Forall_app. split.
    + eapply Forall_impl; [exact Hd|]. intros x Hx Hsome.
      destruct (Hx Hsome) as (db & Hin & Hle).
      exists db. split; [|done]. apply elem_of_app. by left.
    + apply Forall_singleton. intros _. exists (S dc). split; [|done].
      apply elem_of_app. right. by apply list_elem_of_singleton.
Qed.

Lemma foldl_visit_expanding (front : list string) (es : list Edge)
    (lvF lvQ : list (string * nat)) (cur : string) (dc : nat) (st : State)
    (seenEdges : list Edge) :
  consistent typeMap root front st →
  cur ∈ front →
  expanding typeMap root lvF cur dc lvQ st seenEdges →
  Forall (λ e, e ∈ edgesOf typeMap cur) es →
  ∃ lvQ', expanding typeMap root lvF cur dc lvQ'
            (foldl (visit typeMap) st es) (seenEdges ++ es).
Proof.
  intros Hc Hcur. revert lvQ st seenEdges Hc.
  induction es as [|e es IH]; intros lvQ st seenEdges Hc Hex Hes; simpl.
  - exists lvQ. by rewrite app_nil_r.
  - apply Forall_cons in Hes as [He Hes].
    destruct (visit_expanding _ _ _ _ _ _ _ _ Hc Hex He) as [lvQ1 Hex1].
    destruct (IH lvQ1 (visit typeMap st e) (seenEdges ++ [e]))
      as [lvQ' Hex']; [|done..|].
    + apply visit_consistent; [done|].
      by rewrite (edgesOf_source _ _ _ He).
    + exists lvQ'. by rewrite <- app_assoc in Hex'.
Qed.

Lemma loopStep_layered (seen : list string) (lvF lvQ : list (string * nat))
    (st : State) :
  loopInv typeMap root seen st →
  layered typeMap root lvF lvQ st →
  match loopStep typeMap st with
  | Next cur st' => ∃ lvF' lvQ', layered typeMap root lvF' lvQ' st'
  | _ => True
  end.
Proof.
  intros [Hc Hedges] [Hroot Hk Hq Hs Hr Hcl Hb]. unfold loopStep.
  destruct (st_queue st) as [|cur rest] eqn:Hqueue; [done|].
  assert (cur ∈ map_keys (st_nodes st)) as Hcur.
  { rewrite (c_keys _ _ _ _ Hc), Hqueue. apply elem_of_app. right. left. }
  destruct (map_get_elem _ _ Hcur) as (node & -> & Hin).
  pose proof (c_nodes _ _ _ _ Hc) as Hn.
  eapply Forall_forall in Hn; [|exact Hin]. simpl in Hn.
  destruct (typeMap !! cur) as [typeData|] eqn:Htm; [|done].
  injection Hn as <-.
  destruct lvQ as [|[cur' dc] lvQ]; [done|].
  injection Hq as -> Hq.
  rewrite expand_foldl.
  assert (edgesOf typeMap cur = nodeEdges cur (createTypeNode typeData))
    as <-.
  { unfold edgesOf. by rewrite Htm. }
  destruct (foldl_visit_expanding (seen ++ [cur]) (edgesOf typeMap cur)
              lvF lvQ cur dc (dequeue st rest) []) as [lvQ' Hex].
  - by apply dequeue_consistent.
  - apply elem_of_app. right. left.
  - split; cbn [dequeue st_nodes st_edges st_visited st_queue]; try done.
    rewrite fmap_app in Hs.
    apply Forall_app. split.
    + apply Forall_forall. intros [k d] Hkd. cbn [snd].
      assert (d ≤ dc); [|lia].
      eapply (StronglySorted_app_1_elem_of _ _ _ _ _ Hs).
      * apply list_elem_of_fmap. by exists (k, d).
      * left.
    + eapply Forall_impl; [by apply (Hb cur dc)|]. done.
  - by apply Forall_forall.
  - destruct Hex as [Hroot' Hk' Hq' Hs' Hr' Hcl' Hb' Hd'].
    exists (lvF ++ [(cur, dc)]), lvQ'.
    split; rewrite <- ?app_assoc; cbn [app]; try done.
    + intros a da b [Ha|Ha]%elem_of_app Hab; [by eapply Hcl'|].
      apply list_elem_of_singleton in Ha. injection Ha as -> ->.
      destruct Hab as [Hb1 Hb2].
      apply list_elem_of_fmap in Hb1 as (e & -> & He).
      eapply Forall_forall in Hd'; [|exact He]. by apply Hd'.
    + intros h dh Hhd.
      destruct lvQ' as [|[h' dh'] lvQ']; [done|]. injection Hhd as -> ->.
      rewrite fmap_app in Hs'.
      apply StronglySorted_app_1_r in Hs'. cbn [fmap list_fmap snd] in Hs'.
      apply StronglySorted_cons in Hs' as [Hle _].
      apply Forall_cons in Hle as [Hle _].
      apply Forall_app in Hb' as [_ Hb'].
      apply Forall_cons in Hb' as [_ Hb'].
      eapply Forall_impl; [exact Hb'|]. intros [k d]. cbn [snd]. lia.
Qed.

Lemma bfs_layered (fuel : nat) (seen : list string)
    (lvF lvQ : list (string * nat)) (st st' : State) :
  loopInv typeMap root seen st →
  layered typeMap root lvF lvQ st →
  bfs fuel typeMap st = Some (inr st') →
  ∃ lvF', layered typeMap root lvF' [] st'.
Proof.
  revert seen lvF lvQ st.
  induction fuel as [|fuel IH]; intros seen lvF lvQ st Hinv Hly; [done|].
  simpl. pose proof (loopStep_inv _ _ _ _ Hinv) as Hstep.
  pose proof (loopStep_layered _ _ _ _ Hinv Hly) as Hstep'.
  destruct (loopStep typeMap st) as [| |cur st1].
  - intros [= <-]. exists lvF.
    pose proof (ly_queue _ _ _ _ _ Hly) as Hq. rewrite Hstep in Hq.
    apply fmap_nil_inv in Hq. by subst lvQ.
  - done.
  - destruct Hstep as (_ & _ & Hinv1). destruct Hstep' as (lvF1 & lvQ1 & Hly1).
    by apply IH with (seen ++ [cur]) lvF1 lvQ1.
Qed.

Lemma layered_shortest (lv : list (string * nat)) (st : State) (n : nat)
    (k : string) :
  layered typeMap root lv [] st →
  reachIn typeMap root n k →
  ∃ dk, (k, dk) ∈ lv ∧ dk ≤ n.
Proof.
  intros [Hroot Hk Hq Hs Hr Hcl Hb]. rewrite app_nil_r in *.
  induction 1 as [|n a b Ha IH Hab].
  - by exists 0.
  - destruct IH as (da & Hin & Hle).
    destruct (Hcl a da b Hin Hab) as (db & Hdb & Hle').
    exists db. split; [done|lia].
Qed.
End Layers.

Lemma initState_layered (typeMap : gmap string IntrospectionType)
    (typeData : IntrospectionType) :
  layered typeMap (type_name typeData) [] [(type_name typeData, 0)]
    (initState (createTypeNode typeData)).
Proof.
  split; cbn -[createTypeNode]; cbn [createTypeNode node_name]; try done.
  - left.
  - repeat constructor.
  - repeat constructor.
  - by intros a da b ?%elem_of_nil.
  - intros h dh [= <- <-]. by repeat constructor.
Qed.

(** X19: the node mapping lists the types layer by layer: its keys can
    be given depths that never decrease along the list, and the depth
    of a key is the length of a shortest path of references from the
    query type to it. *)
Theorem breadth_first_order (fuel : nat) (d : IntrospectionData)
    (p : ParsedIntrospection) (g : TypeGraph) :
  extractGraph fuel d = Some (inr g) →
  parseIntrospection d = inr p →
  ∃ depths : list nat,
    StronglySorted le depths
    ∧ Forall2 (distance (buildTypeMap (parsed_types p))
                        (node_name (rootType g)))
              (map_keys (nodes g)) depths.
Proof.
  intros Hg Hp. unfold extractGraph in Hg.
  destruct (findRoot d) as [e|[typeMap typeData]] eqn:Hroot; [done|].
  destruct (findRoot_inr _ _ _ Hroot) as (p' & Hp' & _ & Heq & Htm).
  assert (p' = p) as -> by congruence. rewrite <- Heq.
  destruct (bfs fuel _ (initState (createTypeNode typeData)))
    as [[e|st]|] eqn:Hbfs; try done.
  injection Hg as <-. cbn [rootType nodes createTypeNode node_name].
  destruct (bfs_inv _ _ _ _ _ _ (initState_inv _ _ Htm) Hbfs)
    as (st' & [= <-] & Hq & [Hc _]).
  destruct (bfs_layered _ _ _ _ _ _ _ _ (initState_inv _ _ Htm)
              (initState_layered _ _) Hbfs) as [lv Hly].
  exists lv.*2.
  pose proof (ly_sorted _ _ _ _ _ Hly) as Hs.
  pose proof (ly_keys _ _ _ _ _ Hly) as Hk.
  pose proof (ly_reach _ _ _ _ _ Hly) as Hr.
  rewrite app_nil_r in Hs, Hk, Hr.
  split; [done|]. rewrite <- Hk.
  apply Forall2_fmap, Forall_Forall2_diag, Forall_forall.
  intros [k dk] Hin. cbn [fst snd]. split.
  - eapply Forall_forall in Hr; [|exact Hin]. done.
  - intros m Hm.
    destruct (layered_shortest _ _ _ _ _ _ Hly Hm) as (dk' & Hin' & Hle).
    assert (dk = dk'); [|lia].
    eapply pairs_unique; [|exact Hin|exact Hin'].
    rewrite Hk. apply (c_nodup _ _ _ _ Hc).
Qed.

Lemma breadth_first_order_witness :
  ∃ depths : list nat,
    StronglySorted le depths
    ∧ Forall2 (distance (buildTypeMap scenarioTypes) "Query")
              (map_keys (nodes scenarioGraph)) depths.
Proof.
  apply (breadth_first_order 4 scenario
           (mkParsed scenarioTypes (Some "Query")) scenarioGraph).
  - vm_compute. reflexivity.
  - reflexivity.
Defined.

(** ** The hierarchical layout *)

Lemma buildAdjList_snoc (es : list ReactFlowEdge) (e : ReactFlowEdge) :
  buildAdjList (es ++ [e])
  = <[rfe_source e :=
        default [] (buildAdjList es !! rfe_source e) ++ [rfe_target e]]>
      (buildAdjList es).
Proof. unfold buildAdjList. by rewrite foldl_app. Qed.

Lemma buildAdjList_lookup (es : list ReactFlowEdge) (k : string) :
  default [] (buildAdjList es !! k)
  = rfe_target <$> List.filter (λ e, bool_decide (rfe_source e = k)) es.
Proof.
  induction es as [|e es IH] using rev_ind; [done|].
  rewrite buildAdjList_snoc, List.filter_app, fmap_app. simpl.
  destruct (decide (rfe_source e = k)) as [<-|Hne].
  - rewrite lookup_insert_eq, bool_decide_eq_true_2 by done.
    simpl. by rewrite IH.
  - rewrite lookup_insert_ne, bool_decide_eq_false_2 by done.
    simpl. by rewrite app_nil_r.
Qed.

Lemma children_spec (es : list ReactFlowEdge) (a b : string) :
  b ∈ default [] (buildAdjList es !! a) ↔ flowRel es a b.
Proof.
  rewrite buildAdjList_lookup, list_elem_of_fmap. unfold flowRel.
  split.
  - intros (e & -> & [He Hs]%filter_elem).
    apply bool_decide_eq_true in Hs. by exists e.
  - intros (e & He & Hs & Ht). exists e. split; [done|].
    apply filter_elem. split; [done|]. by apply bool_decide_eq_true.
Qed.

Lemma filter_length_le {A} (f : A → bool) (l : list A) :
  length (List.filter f l) ≤ length l.
Proof. apply sublist_length, filter_sublist_of. Qed.

Lemma unvisited_split (es : list ReactFlowEdge) (visited : gset string)
    (id : string) :
  id ∉ visited →
  length (List.filter
            (λ e, negb (bool_decide (rfe_source e ∈ {[id]} ∪ visited))) es)
  + length (List.filter (λ e, bool_decide (rfe_source e = id)) es)
  = length (List.filter
              (λ e, negb (bool_decide (rfe_source e ∈ visited))) es).
Proof.
  intros Hid. induction es as [|e es IH]; [done|]. simpl.
  destruct (decide (rfe_source e = id)) as [Heq|Hne].
  - rewrite (bool_decide_eq_true_2 (rfe_source e = id)) by done.
    rewrite (bool_decide_eq_true_2 (rfe_source e ∈ {[id]} ∪ visited))
      by set_solver.
    rewrite (bool_decide_eq_false_2 (rfe_source e ∈ visited))
      by (by rewrite Heq).
    simpl. lia.
  - rewrite (bool_decide_eq_false_2 (rfe_source e = id)) by done.
    destruct (decide (rfe_source e ∈ visited)) as [Hin|Hout].
    + rewrite (bool_decide_eq_true_2 (rfe_source e ∈ {[id]} ∪ visited))
        by set_solver.
      rewrite (bool_decide_eq_true_2 (rfe_source e ∈ visited)) by done.
      simpl. lia.
    + rewrite (bool_decide_eq_false_2 (rfe_source e ∈ {[id]} ∪ visited))
        by set_solver.
      rewrite (bool_decide_eq_false_2 (rfe_source e ∈ visited)) by done.
      simpl. lia.
Qed.

Lemma layerStep_measure (edges : list ReactFlowEdge) (st st' : LayerState) :
  layerStep (buildAdjList edges) st = Some st' →
  layerMeasure edges st' < layerMeasure edges st.
Proof.
  unfold layerStep, layerMeasure.
  destruct (ls_queue st) as [|[id depth] rest]; [done|].
  destruct (decide (id ∈ ls_visited st)) as [Hin|Hnew]; intros [= <-];
    cbn [ls_queue ls_visited length]; [lia|].
  rewrite length_app, length_map.
  pose proof (unvisited_split edges (ls_visited st) id Hnew) as Hsplit.
  pose proof (filter_length_le
    (λ childId, negb (bool_decide (childId ∈ {[id]} ∪ ls_visited st)))
    (default [] (buildAdjList edges !! id))) as Hle.
  assert (length (default [] (buildAdjList edges !! id))
          = length (List.filter (λ e, bool_decide (rfe_source e = id)) edges))
    as Hlen.
  { by rewrite buildAdjList_lookup, length_fmap. }
  lia.
Qed.

Lemma assignLayers_terminates (fuel : nat) (edges : list ReactFlowEdge)
    (st : LayerState) :
  layerMeasure edges st < fuel →
  is_Some (assignLayers fuel (buildAdjList edges) st).
Proof.
  revert st. induction fuel as [|fuel IH]; intros st Hlt; [lia|]. simpl.
  destruct (layerStep (buildAdjList edges) st) as [st'|] eqn:Hstep;
    [|by eexists].
  apply IH. apply layerStep_measure in Hstep. lia.
Qed.

Lemma assignLayers_more_fuel (fuel fuel' : nat)
    (adjList : gmap string (list string)) (st r : LayerState) :
  fuel ≤ fuel' →
  assignLayers fuel adjList st = Some r →
  assignLayers fuel' adjList st = Some r.
Proof.
  revert fuel' st. induction fuel as [|fuel IH]; intros fuel' st Hle; [done|].
  destruct fuel' as [|fuel']; [lia|]. simpl.
  destruct (layerStep adjList st) as [st'|]; [|done].
  apply IH. lia.
Qed.

Lemma filter_all {A} (f : A → bool) (l : list A) :
  (∀ x, f x = true) → List.filter f l = l.
Proof.
  intros Hf. induction l as [|x l IH]; [done|]. simpl. by rewrite Hf, IH.
Qed.

(** X20: the layering loop of [hierarchicalLayout] ends, cycles among
    the edges or not: after at most one turn per edge plus two tests of
    its condition the function returns, and the result does not depend
    on the bound. *)
Theorem hierarchicalLayout_terminates (random : nat → Q)
    (nodes : list ReactFlowNode) (edges : list ReactFlowEdge)
    (rootId : string) :
  ∃ out, ∀ fuel, length edges + 1 < fuel →
    hierarchicalLayout fuel random nodes edges rootId = Some out.
Proof.
  destruct (assignLayers_terminates (length edges + 2) edges
              (initLayers rootId)) as [st Hst].
  { unfold layerMeasure, initLayers. cbn [ls_queue ls_visited length].
    rewrite filter_all; [lia|]. intros e.
    rewrite bool_decide_eq_false_2; [done|]. set_solver. }
  eexists. intros fuel Hfuel. unfold hierarchicalLayout. cbv zeta.
  assert (length edges + 2 ≤ fuel) as Hle by lia.
  rewrite (assignLayers_more_fuel _ _ _ _ _ Hle Hst).
  reflexivity.
Qed.

(** *** The layers *)

Lemma pushLayer_ids (depth : nat) (id : string)
    (layers : list (nat * list string)) :
  pushLayer depth id layers ≫= snd ≡ₚ id :: (layers ≫= snd).
Proof.
  induction layers as [|[d ids] layers IH]; simpl; [done|].
  destruct (decide (d = depth)) as [->|Hne]; simpl.
  - rewrite <- app_assoc. simpl.
    by rewrite <- Permutation_middle.
  - rewrite IH. by rewrite <- Permutation_middle.
Qed.

Lemma pushLayer_depths (depth : nat) (id : string)
    (layers : list (nat * list string)) :
  (depth ∈ layers.*1 ∧ (pushLayer depth id layers).*1 = layers.*1)
  ∨ (depth ∉ layers.*1 ∧ (pushLayer depth id layers).*1 = layers.*1 ++ [depth]).
Proof.
  induction layers as [|[d ids] layers IH].
  - right. split; [apply not_elem_of_nil|done].
  - cbn [pushLayer].
    destruct (decide (d = depth)) as [->|Hne]; rewrite !fmap_cons; cbn [fst].
    + left. split; [left|done].
    + destruct IH as [[Hin Heq]|[Hout Heq]]; rewrite Heq.
      * left. split; [by right|done].
      * right. split; [|done].
        intros [?|?]%elem_of_cons; [congruence|done].
Qed.

Lemma pushLayer_seq (depth : nat) (id : string)
    (layers : list (nat * list string)) :
  layers.*1 = seq 0 (length layers) →
  depth ≤ length layers →
  (pushLayer depth id layers).*1 = seq 0 (length (pushLayer depth id layers))
  ∧ length layers ≤ length (pushLayer depth id layers)
  ∧ depth < length (pushLayer depth id layers).
Proof.
  intros Hseq Hle.
  assert (length (pushLayer depth id layers)
          = length (pushLayer depth id layers).*1) as Hlen.
  { by rewrite length_fmap. }
  destruct (pushLayer_depths depth id layers) as [[Hin Heq]|[Hout Heq]];
    rewrite Hlen, Heq.
  - rewrite length_fmap. split; [done|]. split; [done|].
    rewrite Hseq in Hin. apply elem_of_seq in Hin. lia.
  - rewrite length_app, length_fmap. simpl.
    assert (depth = length layers) as ->.
    { rewrite Hseq in Hout.
      destruct (decide (depth < length layers)) as [Hlt|]; [|lia].
      destruct Hout. apply elem_of_seq. lia. }
    rewrite Hseq, Nat.add_1_r, seq_S. split; [done|]. lia.
Qed.

Lemma pushLayer_Forall (P : nat → string → Prop) (depth : nat) (id : string)
    (layers : list (nat * list string)) :
  Forall (λ l, Forall (P l.1) l.2) layers →
  P depth id →
  Forall (λ l, Forall (P l.1) l.2) (pushLayer depth id layers).
Proof.
  intros Hall Hp. induction Hall as [|[d ids] layers Hd Hall IH]; simpl.
  - repeat constructor. done.
  - destruct (decide (d = depth)) as [->|Hne].
    + constructor; [|done]. simpl in *. apply Forall_app. split; [done|].
      by apply Forall_singleton.
    + by constructor.
Qed.

Lemma initLayers_inv (edges : list ReactFlowEdge) (rootId : string) :
  layersInv edges rootId (initLayers rootId).
Proof.
  split; cbn [initLayers ls_layers ls_queue ls_visited]; try done.
  - apply NoDup_nil_2.
  - repeat constructor.
  - repeat constructor.
  - by left.
Qed.

Lemma layerStep_inv (edges : list ReactFlowEdge) (rootId : string)
    (st st' : LayerState) :
  layersInv edges rootId st →
  layerStep (buildAdjList edges) st = Some st' →
  layersInv edges rootId st'.
Proof.
  intros [Hnd Hv Hd Hb Hp Hq Hcl Hh]. unfold layerStep.
  destruct (ls_queue st) as [|[id depth] rest] eqn:Hqueue; [done|].
  apply Forall_cons in Hb as [Hbd Hb]. apply Forall_cons in Hq as [Hqd Hq].
  cbn [fst snd] in Hbd, Hqd.
  destruct (decide (id ∈ ls_visited st)) as [Hin|Hnew]; intros [= <-].
  - split; cbn [ls_layers ls_queue ls_visited]; try done.
    + intros a b Ha Hab. destruct (Hcl a b Ha Hab) as [?|Hbq]; [by left|].
      rewrite fmap_cons in Hbq. apply elem_of_cons in Hbq as [->|?].
      * by left.
      * by right.
    + destruct Hh as [[Hl _]|(rest' & Hl & Hpos)].
      * rewrite Hv, Hl in Hin. set_solver.
      * right. exists rest'. split; [done|].
        by apply Forall_cons in Hpos as [_ ?].
  - destruct (pushLayer_seq depth id (ls_layers st) Hd Hbd)
      as (Hseq & Hmono & Hlt).
    split; cbn [ls_layers ls_queue ls_visited].
    + rewrite pushLayer_ids. apply NoDup_cons. split; [|done].
      rewrite Hv in Hnew. by rewrite elem_of_list_to_set in Hnew.
    + apply set_eq. intros x.
      rewrite elem_of_list_to_set, pushLayer_ids, elem_of_cons, Hv.
      set_solver.
    + done.
    + apply Forall_app. split.
      * eapply Forall_impl; [exact Hb|]. intros [c d] Hcd.
        cbn [snd] in *. lia.
      * apply Forall_forall. intros [c d] (c' & [= -> ->] & _)%list_elem_of_fmap.
        cbn [snd]. lia.
    + by apply pushLayer_Forall.
    + apply Forall_app. split; [done|].
      apply Forall_forall.
      intros [c d] (c' & [= -> ->] & [Hc _]%filter_elem)%list_elem_of_fmap.
      cbn [fst snd]. rewrite Nat.add_1_r.
      apply pathIn_step with id; [done|]. by apply children_spec.
    + intros a b Ha Hab.
      destruct (decide (b ∈ {[id]} ∪ ls_visited st)) as [|Hb']; [by left|].
      right. rewrite fmap_app. apply elem_of_app.
      apply elem_of_union in Ha as [->%elem_of_singleton|Ha].
      * right. rewrite <- list_fmap_compose.
        apply list_elem_of_fmap. exists b. split; [done|].
        apply filter_elem. split; [by apply children_spec|].
        by rewrite bool_decide_eq_false_2.
      * left. destruct (Hcl a b Ha Hab) as [?|Hbq]; [set_solver|].
        rewrite fmap_cons in Hbq. apply elem_of_cons in Hbq as [->|?];
          [set_solver|done].
    + right. destruct Hh as [[Hl Hq0]|(rest' & Hl & Hpos)].
      * rewrite Hl. injection Hq0 as -> -> ->.
        exists []. split; [done|]. simpl.
        apply Forall_forall.
        intros [c d] (c' & [= -> ->] & _)%list_elem_of_fmap. cbn [snd]. lia.
      * apply Forall_cons in Hpos as [Hpd Hpos]. cbn [snd] in Hpd.
        rewrite Hl. simpl. rewrite decide_False by lia.
        eexists. split; [done|].
        apply Forall_app. split; [done|]. apply Forall_forall.
        intros [c d] (c' & [= -> ->] & _)%list_elem_of_fmap. cbn [snd]. lia.
Qed.

Lemma assignLayers_inv (fuel : nat) (edges : list ReactFlowEdge)
    (rootId : string) (st st' : LayerState) :
  layersInv edges rootId st →
  assignLayers fuel (buildAdjList edges) st = Some st' →
  layersInv edges rootId st' ∧ ls_queue st' = [].
Proof.
  revert st. induction fuel as [|fuel IH]; intros st Hinv; [done|]. simpl.
  destruct (layerStep (buildAdjList edges) st) as [st1|] eqn:Hstep.
  - apply IH. by eapply layerStep_inv.
  - intros [= <-]. split; [done|]. unfold layerStep in Hstep.
    destruct (ls_queue st) as [|[id depth] rest]; [done|].
    by destruct (decide (id ∈ ls_visited st)).
Qed.

(** *** The node lookup of the layout *)

Lemma buildNodeMap_snoc (ns : list ReactFlowNode) (n : ReactFlowNode) :
  buildNodeMap (ns ++ [n]) = <[rfn_id n := n]> (buildNodeMap ns).
Proof. unfold buildNodeMap. by rewrite foldl_app. Qed.

Lemma buildNodeMap_lookup (ns : list ReactFlowNode) (k : string)
    (n : ReactFlowNode) :
  buildNodeMap ns !! k = Some n → n ∈ ns ∧ rfn_id n = k.
Proof.
  induction ns as [|n' ns IH] using rev_ind; [done|].
  rewrite buildNodeMap_snoc.
  destruct (decide (rfn_id n' = k)) as [<-|Hne].
  - rewrite lookup_insert_eq. intros [= <-]. split; [|done].
    apply elem_of_app. right. left.
  - rewrite lookup_insert_ne by done. intros [Hin Hk]%IH. split; [|done].
    apply elem_of_app. by left.
Qed.

Lemma buildNodeMap_NoDup (ns : list ReactFlowNode) (n : ReactFlowNode) :
  NoDup (rfn_id <$> ns) → n ∈ ns → buildNodeMap ns !! rfn_id n = Some n.
Proof.
  induction ns as [|n' ns IH] using rev_ind; [by intros _ ?%elem_of_nil|].
  rewrite fmap_app, buildNodeMap_snoc.
  intros (Hnd & Hdis & _)%NoDup_app [Hin|Hin]%elem_of_app.
  - rewrite lookup_insert_ne; [by apply IH|].
    intros Heq. apply (Hdis (rfn_id n)).
    + apply list_elem_of_fmap. by exists n.
    + rewrite <- Heq. left.
  - apply list_elem_of_singleton in Hin as ->. by rewrite lookup_insert_eq.
Qed.

(** *** Placing the layers *)

Lemma join_imap_elem {A B} (g : nat → A → list B) (l : list A) (b : B) :
  b ∈ mjoin (imap g l) ↔ ∃ i a, l !! i = Some a ∧ b ∈ g i a.
Proof.
  rewrite list_elem_of_join. split.
  - intros (bs & Hb & (i & a & -> & Ha)%elem_of_lookup_imap). by exists i, a.
  - intros (i & a & Ha & Hb). exists (g i a). split; [done|].
    by apply elem_of_lookup_imap_2.
Qed.

Lemma fmap_join_imap {A B C} (f : B → C) (g : nat → A → list B)
    (h : A → list C) (l : list A) :
  (∀ i a, f <$> g i a = h a) →
  f <$> mjoin (imap g l) = l ≫= h.
Proof.
  revert g. induction l as [|a l IH]; intros g Hg; [done|].
  rewrite imap_cons. simpl. rewrite fmap_app, Hg. f_equal.
  apply IH. intros i a'. apply Hg.
Qed.

Lemma placeLayer_ids (nodeMap : gmap string ReactFlowNode) (depth : nat)
    (nodeIds : list string) :
  (∀ k n, nodeMap !! k = Some n → rfn_id n = k) →
  rfn_id <$> placeLayer nodeMap depth nodeIds
  = List.filter (λ k, bool_decide (is_Some (nodeMap !! k))) nodeIds.
Proof.
  intros Hmap. unfold placeLayer. cbv zeta.
  erewrite (fmap_join_imap rfn_id _
              (λ k, if bool_decide (is_Some (nodeMap !! k)) then [k] else [])).
  - induction nodeIds as [|k ks IH]; [done|].
    rewrite bind_cons, IH. cbn [List.filter].
    by destruct (bool_decide (is_Some (nodeMap !! k))).
  - intros i k. destruct (nodeMap !! k) as [n|] eqn:Hk.
    + rewrite bool_decide_eq_true_2 by done. simpl. by rewrite (Hmap k n).
    + rewrite bool_decide_eq_false_2; [done|]. by intros ?%is_Some_None.
Qed.

Lemma positioned_ids (nodeMap : gmap string ReactFlowNode)
    (layers : list (nat * list string)) :
  (∀ k n, nodeMap !! k = Some n → rfn_id n = k) →
  rfn_id <$> (layers ≫= (λ layer, placeLayer nodeMap layer.1 layer.2))
  = List.filter (λ k, bool_decide (is_Some (nodeMap !! k))) (layers ≫= snd).
Proof.
  intros Hmap. induction layers as [|[d ids] layers IH]; [done|].
  rewrite !bind_cons, fmap_app, List.filter_app, IH.
  by rewrite placeLayer_ids.
Qed.

Lemma placeLayer_elem (nodeMap : gmap string ReactFlowNode) (depth : nat)
    (nodeIds : list string) (m : ReactFlowNode) :
  m ∈ placeLayer nodeMap depth nodeIds ↔
  ∃ index k n,
    nodeIds !! index = Some k ∧ nodeMap !! k = Some n
    ∧ m = setPosition n
            (- inject_Z (Z.of_nat (length nodeIds) * 250
                         + (Z.of_nat (length nodeIds) - 1) * 50) / 2
             + inject_Z (Z.of_nat index * (250 + 50)))%Q
            (inject_Z (Z.of_nat depth * (150 + 100))).
Proof.
  unfold placeLayer. cbv zeta. rewrite join_imap_elem. split.
  - intros (i & k & Hk & Hm). exists i, k.
    destruct (nodeMap !! k) as [n|]; [|by apply elem_of_nil in Hm].
    apply list_elem_of_singleton in Hm. by exists n.
  - intros (i & k & n & Hk & Hn & ->). exists i, k. split; [done|].
    rewrite Hn. by apply list_elem_of_singleton.
Qed.

Lemma placeUnvisited_elem (random : nat → Q) (layerCount : nat)
    (visited : gset string) (nodes : list ReactFlowNode) (m : ReactFlowNode) :
  m ∈ placeUnvisited random layerCount visited nodes ↔
  ∃ i n,
    List.filter (λ node, negb (bool_decide (rfn_id node ∈ visited))) nodes !! i
    = Some n
    ∧ m = setPosition n (roundDouble (random i * 500))
            (inject_Z ((Z.of_nat layerCount + 1) * (150 + 100))).
Proof.
  unfold placeUnvisited. rewrite elem_of_lookup_imap. split.
  - intros (i & n & -> & Hn). by exists i, n.
  - intros (i & n & Hn & ->). by exists i, n.
Qed.

(** The product is rounded: the double nearest to one tenth, times
    500, is exactly 50 as a double, while the exact product is not. *)
Lemma roundDouble_tenth :
  (roundDouble ((3602879701896397 # 36028797018963968) * 500) == 50)%Q
  ∧ ¬ ((3602879701896397 # 36028797018963968) * 500 == 50)%Q.
Proof. split; [by vm_compute|]. by vm_compute. Qed.

Lemma pathIn_rtc (edges : list ReactFlowEdge) (rootId : string) (n : nat)
    (k : string) :
  pathIn edges rootId n k → rtc (flowRel edges) rootId k.
Proof.
  induction 1 as [|n a b _ IH Hab]; [done|]. by eapply rtc_r.
Qed.

(** When the loop is over the visited identifiers are those that the
    edges reach from the root. *)
Lemma visited_reachable (edges : list ReactFlowEdge) (rootId : string)
    (st : LayerState) (k : string) :
  layersInv edges rootId st → ls_queue st = [] →
  k ∈ ls_visited st ↔ rtc (flowRel edges) rootId k.
Proof.
  intros [Hnd Hv Hd Hb Hp Hq Hcl Hh] Hempty. split.
  - rewrite Hv, elem_of_list_to_set, list_elem_of_bind.
    intros ([d ids] & Hk & Hl). cbn [snd] in Hk.
    eapply Forall_forall in Hp; [|exact Hl]. cbn [fst snd] in Hp.
    eapply Forall_forall in Hp; [|exact Hk]. by eapply pathIn_rtc.
  - intros Hreach. apply rtc_nsteps in Hreach as [n Hreach].
    revert k Hreach. induction n as [|n IH]; intros k Hreach.
    + inversion Hreach; subst.
      destruct Hh as [[_ Hq0]|(rest & Hl & _)]; [congruence|].
      rewrite Hv, Hl, elem_of_list_to_set. left.
    + apply nsteps_inv_r in Hreach as (a & Ha & Hab).
      destruct (Hcl a k (IH a Ha) Hab) as [?|Hin]; [done|].
      rewrite Hempty in Hin. by apply elem_of_nil in Hin.
Qed.

Lemma hierarchicalLayout_Some (fuel : nat) (random : nat → Q)
    (nodes : list ReactFlowNode) (edges : list ReactFlowEdge)
    (rootId : string) (out : list ReactFlowNode) :
  hierarchicalLayout fuel random nodes edges rootId = Some out →
  ∃ st, layersInv edges rootId st ∧ ls_queue st = []
    ∧ out = (ls_layers st
               ≫= (λ layer, placeLayer (buildNodeMap nodes) layer.1 layer.2))
            ++ placeUnvisited random (length (ls_layers st)) (ls_visited st)
                 nodes.
Proof.
  unfold hierarchicalLayout. cbv zeta.
  destruct (assignLayers fuel (buildAdjList edges) (initLayers rootId))
    as [st|] eqn:Hst; [|done].
  intros [= <-]. exists st.
  destruct (assignLayers_inv _ _ _ _ _ (initLayers_inv edges rootId) Hst).
  done.
Qed.

(** X21: when the identifiers of the nodes are pairwise distinct,
    [hierarchicalLayout] loses no node and repeats none: the
    identifiers of its result are a rearrangement of those given, and
    every node of the result is a given node with a new position. *)
Theorem hierarchicalLayout_permutation (fuel : nat) (random : nat → Q)
    (nodes : list ReactFlowNode) (edges : list ReactFlowEdge)
    (rootId : string) (out : list ReactFlowNode) :
  NoDup (rfn_id <$> nodes) →
  hierarchicalLayout fuel random nodes edges rootId = Some out →
  rfn_id <$> out ≡ₚ rfn_id <$> nodes
  ∧ Forall (λ m, ∃ n x y, n ∈ nodes ∧ m = setPosition n x y) out.
Proof.
  intros Hids (st & Hinv & Hq & ->)%hierarchicalLayout_Some.
  pose proof (λ k n H, proj2 (buildNodeMap_lookup nodes k n H)) as Hmap.
  split.
  - rewrite fmap_app, positioned_ids by done.
    unfold placeUnvisited. rewrite imap_position_ids by done.
    apply NoDup_Permutation; [|done|].
    + apply NoDup_app. split_and!.
      * eapply sublist_NoDup; [exact (li_nodup _ _ _ Hinv)|].
        apply filter_sublist_of.
      * intros k [Hk _]%filter_elem
          (n & -> & [_ Hn]%filter_elem)%list_elem_of_fmap.
        apply negb_true_iff, bool_decide_eq_false in Hn. apply Hn.
        by rewrite (li_visited _ _ _ Hinv), elem_of_list_to_set.
      * eapply sublist_NoDup; [exact Hids|].
        apply fmap_sublist, filter_sublist_of.
    + intros k. rewrite elem_of_app, filter_elem. split.
      * intros [[_ Hk]|(n & -> & [Hn _]%filter_elem)%list_elem_of_fmap].
        -- apply bool_decide_eq_true in Hk as [n Hn].
           apply buildNodeMap_lookup in Hn as [Hn <-].
           apply list_elem_of_fmap. by exists n.
        -- apply list_elem_of_fmap. by exists n.
      * intros (n & -> & Hn)%list_elem_of_fmap.
        destruct (decide (rfn_id n ∈ ls_visited st)) as [Hin|Hout].
        -- left. split.
           ++ by rewrite (li_visited _ _ _ Hinv), elem_of_list_to_set in Hin.
           ++ apply bool_decide_eq_true. exists n.
              by apply buildNodeMap_NoDup.
        -- right. apply list_elem_of_fmap. exists n. split; [done|].
           apply filter_elem. split; [done|].
           by rewrite bool_decide_eq_false_2.
  - apply Forall_app. split; apply Forall_forall; intros m.
    + intros ([d ids] & Hm & _)%list_elem_of_bind.
      apply placeLayer_elem in Hm as (i & k & n & _ & Hn & ->).
      apply buildNodeMap_lookup in Hn as [Hn _]. by eexists n, _, _.
    + intros (i & n & Hn & ->)%placeUnvisited_elem.
      apply list_elem_of_lookup_2, filter_elem in Hn as [Hn _].
      by eexists n, _, _.
Qed.

Lemma hierarchicalLayout_permutation_witness :
  rfn_id <$> sampleLayout ≡ₚ rfn_id <$> sampleNodes.
Proof.
  apply (hierarchicalLayout_permutation 6 (λ _, 0%Q) sampleNodes sampleEdges
           "Query").
  - vm_compute. repeat (constructor; [set_solver|]). constructor.
  - vm_compute. reflexivity.
Defined.

(** X22: the node of the root comes first in the result of
    [hierarchicalLayout], alone in the top layer: it is centred, at
    [x = -125] and [y = 0]. *)
Theorem hierarchicalLayout_root (fuel : nat) (random : nat → Q)
    (nodes : list ReactFlowNode) (edges : list ReactFlowEdge)
    (rootId : string) (out : list ReactFlowNode) (n : ReactFlowNode) :
  NoDup (rfn_id <$> nodes) →
  n ∈ nodes →
  rfn_id n = rootId →
  hierarchicalLayout fuel random nodes edges rootId = Some out →
  ∃ x y rest,
    out = setPosition n x y :: rest
    ∧ (x == inject_Z (-125))%Q ∧ (y == 0)%Q
    ∧ Forall (λ m, ¬ (m.(rfn_position).2 == 0)%Q) rest.
Proof.
  intros Hids Hn <- (st & Hinv & Hq & ->)%hierarchicalLayout_Some.
  destruct (li_head _ _ _ Hinv) as [[_ Hq0]|(rest & Hl & _)]; [congruence|].
  pose proof (li_depths _ _ _ Hinv) as Hd. rewrite Hl in Hd |- *.
  rewrite bind_cons. cbn [fst snd].
  assert (placeLayer (buildNodeMap nodes) 0 [rfn_id n]
          = [setPosition n
               (- inject_Z (Z.of_nat 1 * 250 + (Z.of_nat 1 - 1) * 50) / 2
                + inject_Z (Z.of_nat 0 * (250 + 50)))%Q
               (inject_Z (Z.of_nat 0 * (150 + 100)))]) as ->.
  { unfold placeLayer. cbv zeta. simpl imap.
    rewrite (buildNodeMap_NoDup nodes n Hids Hn). reflexivity. }
  eexists _, _, _. split; [reflexivity|]. split; [reflexivity|].
  split; [reflexivity|].
  apply Forall_app. split; apply Forall_forall; intros m.
  - intros ([d ids] & Hm & Hin)%list_elem_of_bind.
    apply placeLayer_elem in Hm as (i & k & n' & _ & _ & ->).
    cbn [setPosition rfn_position fst snd].
    assert (d ∈ rest.*1) as Hdepth.
    { apply list_elem_of_fmap. by exists (d, ids). }
    rewrite fmap_cons in Hd. cbn [length seq] in Hd.
    injection Hd as Hd. rewrite Hd in Hdepth.
    apply elem_of_seq in Hdepth.
    unfold Qeq. simpl. lia.
  - intros (i & n' & _ & ->)%placeUnvisited_elem.
    cbn [setPosition rfn_position fst snd].
    unfold Qeq. simpl. lia.
Qed.

Lemma hierarchicalLayout_root_witness :
  ∃ x y rest,
    sampleLayout = setPosition (plainNode "Query") x y :: rest
    ∧ (x == inject_Z (-125))%Q ∧ (y == 0)%Q
    ∧ Forall (λ m, ¬ (m.(rfn_position).2 == 0)%Q) rest.
Proof.
  apply (hierarchicalLayout_root 6 (λ _, 0%Q) sampleNodes sampleEdges "Query").
  - vm_compute. repeat (constructor; [set_solver|]). constructor.
  - apply list_elem_of_here.
  - reflexivity.
  - vm_compute. reflexivity.
Defined.

(** *** The layers are those of the distance from the root *)

Lemma pushLayer_inLayer (depth : nat) (id : string)
    (layers : list (nat * list string)) (d : nat) (k : string) :
  inLayer (pushLayer depth id layers) d k
  ↔ inLayer layers d k ∨ (d = depth ∧ k = id).
Proof.
  unfold inLayer. induction layers as [|[d0 ids0] layers IH].
  - simpl. split.
    + intros (ids & [= -> ->]%list_elem_of_singleton & Hk).
      apply list_elem_of_singleton in Hk. by right.
    + intros [(ids & []%elem_of_nil & _)|[-> ->]].
      exists [id]. split; apply list_elem_of_here.
  - cbn [pushLayer]. destruct (decide (d0 = depth)) as [->|Hne].
    + split.
      * intros (ids & [ [= -> ->] | Hin]%elem_of_cons & Hk).
        -- apply elem_of_app in Hk as [Hk| ->%list_elem_of_singleton].
           ++ left. exists ids0. split; [left|done].
           ++ by right.
        -- left. exists ids. split; [by right|done].
      * intros [(ids & [ [= -> ->] | Hin]%elem_of_cons & Hk)|[-> ->]].
        -- exists (ids0 ++ [id]). split; [left|].
           apply elem_of_app. by left.
        -- exists ids. split; [by right|done].
        -- exists (ids0 ++ [id]). split; [left|].
           apply elem_of_app. right. left.
    + split.
      * intros (ids & [ [= -> ->] | Hin]%elem_of_cons & Hk).
        -- left. exists ids0. split; [left|done].
        -- destruct (proj1 IH) as [(ids' & Hin' & Hk')|?]; [by exists ids| |].
           ++ left. exists ids'. split; [by right|done].
           ++ by right.
      * intros [(ids & [ [= -> ->] | Hin]%elem_of_cons & Hk)|[-> ->]].
        -- exists ids0. split; [left|done].
        -- destruct (proj2 IH) as (ids' & Hin' & Hk').
           { left. by exists ids. }
           exists ids'. split; [by right|done].
        -- destruct (proj2 IH) as (ids' & Hin' & Hk'); [by right|].
           exists ids'. split; [by right|done].
Qed.

Lemma pushLayer_depth_bound (depth : nat) (id : string)
    (layers : list (nat * list string)) (bound : nat) :
  Forall (λ l, l.1 ≤ bound) layers → depth ≤ bound →
  Forall (λ l, l.1 ≤ bound) (pushLayer depth id layers).
Proof.
  intros Hall Hd. induction Hall as [|[d ids] layers Hl Hall IH]; simpl.
  - by repeat constructor.
  - destruct (decide (d = depth)); by constructor.
Qed.

Lemma inLayer_visited (layers : list (nat * list string)) (k : string) :
  k ∈ layers ≫= snd ↔ ∃ d, inLayer layers d k.
Proof.
  rewrite list_elem_of_bind. unfold inLayer. split.
  - intros ([d ids] & Hk & Hl). by exists d, ids.
  - intros (d & ids & Hl & Hk). by exists (d, ids).
Qed.

Lemma inLayer_unique (layers : list (nat * list string)) (d d' : nat)
    (k : string) :
  NoDup (layers ≫= snd) → inLayer layers d k → inLayer layers d' k → d = d'.
Proof.
  induction layers as [|[d0 ids0] layers IH];
    [by intros _ (ids & []%elem_of_nil & _)|].
  rewrite bind_cons. cbn [snd].
  intros (Hnd0 & Hdis & Hnd)%NoDup_app
    (ids & [ [= -> ->] | Hin]%elem_of_cons & Hk)
    (ids' & [ [= -> ->] | Hin']%elem_of_cons & Hk').
  - done.
  - destruct (Hdis k Hk). apply inLayer_visited. by exists d', ids'.
  - destruct (Hdis k Hk'). apply inLayer_visited. by exists d, ids.
  - apply IH; [done|by exists ids|by exists ids'].
Qed.

Lemma initLayers_min (edges : list ReactFlowEdge) (rootId : string) :
  layersMin edges (initLayers rootId).
Proof.
  split; cbn [initLayers ls_layers ls_queue].
  - repeat constructor.
  - intros h dh [= <- <-]. by repeat constructor.
  - by intros a da b (ids & []%elem_of_nil & _).
Qed.

Lemma layerStep_min (edges : list ReactFlowEdge) (rootId : string)
    (st st' : LayerState) :
  layersInv edges rootId st →
  layersMin edges st →
  layerStep (buildAdjList edges) st = Some st' →
  layersMin edges st'.
Proof.
  intros Hinv [Hs Hb Hcl]. unfold layerStep.
  destruct (ls_queue st) as [|[id depth] rest] eqn:Hqueue; [done|].
  destruct (Hb id depth eq_refl) as [Hbq Hbl].
  apply Forall_cons in Hbq as [_ Hbq].
  rewrite fmap_cons in Hs. apply StronglySorted_cons in Hs as [Hhd Hs].
  cbn [snd] in Hhd.
  destruct (decide (id ∈ ls_visited st)) as [Hin|Hnew]; intros [= <-].
  - split; cbn [ls_layers ls_queue ls_visited].
    + done.
    + intros h dh Hh. destruct rest as [|[h' dh'] rest]; [done|].
      injection Hh as -> ->.
      apply Forall_cons in Hhd as [Hle _]. cbn [snd] in Hle. split.
      * eapply Forall_impl; [exact Hbq|]. intros [c d]. cbn [snd]. lia.
      * eapply Forall_impl; [exact Hbl|]. intros [c d]. cbn [fst]. lia.
    + intros a da b Ha Hab.
      destruct (Hcl a da b Ha Hab) as [?|(db & Hq & Hle)]; [by left|].
      apply elem_of_cons in Hq as [ [= -> ->] | Hq]; [|right; by exists db].
      left. rewrite (li_visited _ _ _ Hinv), elem_of_list_to_set in Hin.
      apply inLayer_visited in Hin as [d Hd]. exists d. split; [done|].
      destruct Hd as (ids & Hl & _).
      eapply Forall_forall in Hbl; [|exact Hl]. cbn [fst] in Hbl. lia.
  - set (children := List.filter _ _).
    assert (Forall (λ cd : string * nat, cd.2 = S depth)
              (map (λ childId, (childId, depth + 1)) children)) as Hch.
    { apply Forall_forall. intros [c d] (c' & [= -> ->] & _)%list_elem_of_fmap.
      cbn [snd]. lia. }
    split; cbn [ls_layers ls_queue ls_visited].
    + rewrite fmap_app. apply StronglySorted_app_2; [|done|].
      * intros x1 x2 (cd1 & -> & H1)%list_elem_of_fmap
          (cd2 & -> & H2)%list_elem_of_fmap.
        eapply Forall_forall in Hbq; [|exact H1].
        eapply Forall_forall in Hch; [|exact H2]. cbn beta in *. lia.
      * clear -Hch. induction Hch as [|[c d] l Hd Hch IH]; [constructor|].
        rewrite fmap_cons. constructor; [done|].
        apply Forall_fmap. eapply Forall_impl; [exact Hch|].
        intros [c' d']. cbn [snd] in *. simpl. lia.
    + intros h dh Hh.
      assert (depth ≤ dh) as Hle.
      { destruct rest as [|[h' dh'] rest].
        - simpl in Hh. apply head_Some_elem_of in Hh.
          eapply Forall_forall in Hch; [|exact Hh]. cbn [snd] in Hch. lia.
        - injection Hh as -> ->.
          apply Forall_cons in Hhd as [Hle _]. done. }
      split.
      * apply Forall_app. split.
        -- eapply Forall_impl; [exact Hbq|]. intros [c d]. cbn [snd]. lia.
        -- eapply Forall_impl; [exact Hch|]. intros [c d]. cbn [snd]. lia.
      * apply pushLayer_depth_bound; [|done].
        eapply Forall_impl; [exact Hbl|]. intros [c d]. cbn [fst]. lia.
    + intros a da b Ha Hab.
      apply pushLayer_inLayer in Ha as [Ha|[-> ->]].
      * destruct (Hcl a da b Ha Hab) as [(db & Hdb & Hle)|(db & Hq & Hle)].
        -- left. exists db. split; [|done].
           apply pushLayer_inLayer. by left.
        -- apply elem_of_cons in Hq as [ [= -> ->] | Hq].
           ++ left. exists depth. split; [|done].
              apply pushLayer_inLayer. by right.
           ++ right. exists db. split; [|done]. apply elem_of_app. by left.
      * destruct (decide (b ∈ {[id]} ∪ ls_visited st)) as [Hb'|Hb'].
        -- left. apply elem_of_union in Hb' as [->%elem_of_singleton|Hb'].
           ++ exists depth. split; [|lia]. apply pushLayer_inLayer. by right.
           ++ rewrite (li_visited _ _ _ Hinv), elem_of_list_to_set in Hb'.
              apply inLayer_visited in Hb' as [d Hd]. exists d. split.
              ** apply pushLayer_inLayer. by left.
              ** destruct Hd as (ids & Hl & _).
                 eapply Forall_forall in Hbl; [|exact Hl].
                 cbn [fst] in Hbl. lia.
        -- right. exists (depth + 1). split; [|lia].
           apply elem_of_app. right. apply list_elem_of_fmap.
           exists b. split; [done|]. apply filter_elem.
           split; [by apply children_spec|].
           by rewrite bool_decide_eq_false_2.
Qed.

Lemma assignLayers_min (fuel : nat) (edges : list ReactFlowEdge)
    (rootId : string) (st st' : LayerState) :
  layersInv edges rootId st →
  layersMin edges st →
  assignLayers fuel (buildAdjList edges) st = Some st' →
  layersMin edges st'.
Proof.
  revert st. induction fuel as [|fuel IH]; intros st Hinv Hmin; [done|]. simpl.
  destruct (layerStep (buildAdjList edges) st) as [st1|] eqn:Hstep.
  - apply IH; [by eapply layerStep_inv|by eapply layerStep_min].
  - by intros [= <-].
Qed.

Lemma layers_shortest (edges : list ReactFlowEdge) (rootId : string)
    (st : LayerState) (m : nat) (k : string) :
  layersInv edges rootId st → layersMin edges st → ls_queue st = [] →
  pathIn edges rootId m k →
  ∃ d, inLayer (ls_layers st) d k ∧ d ≤ m.
Proof.
  intros Hinv [_ _ Hcl] Hq. induction 1 as [|m a b _ IH Hab].
  - exists 0. split; [|done].
    destruct (li_head _ _ _ Hinv) as [[_ Hq0]|(rest & Hl & _)]; [congruence|].
    rewrite Hl. exists [rootId]. split; left.
  - destruct IH as (da & Ha & Hle).
    destruct (Hcl a da b Ha Hab) as [(db & Hdb & Hle')|(db & Hin & _)].
    + exists db. split; [done|lia].
    + rewrite Hq in Hin. by apply elem_of_nil in Hin.
Qed.

(** *** The order within the layers *)

Lemma firstNew_app (seen : gset string) (l1 l2 : list string) :
  firstNew seen (l1 ++ l2)
  = firstNew seen l1 ++ firstNew (list_to_set l1 ∪ seen) l2.
Proof.
  revert seen. induction l1 as [|k l1 IH]; intros seen; cbn [firstNew app].
  - by rewrite list_to_set_nil, (left_id_L ∅ (∪)).
  - rewrite list_to_set_cons.
    destruct (decide (k ∈ seen)) as [Hk|Hk]; rewrite IH; cbn [app].
    + by replace ({[k]} ∪ list_to_set l1 ∪ seen)
        with (list_to_set l1 ∪ seen : gset string) by set_solver.
    + by replace ({[k]} ∪ list_to_set l1 ∪ seen)
        with (list_to_set l1 ∪ ({[k]} ∪ seen) : gset string) by set_solver.
Qed.

Lemma firstNew_filter (seen hidden : gset string) (l : list string) :
  hidden ⊆ seen →
  firstNew seen (List.filter (λ c, negb (bool_decide (c ∈ hidden))) l)
  = firstNew seen l.
Proof.
  revert seen. induction l as [|k l IH]; intros seen Hsub; [done|]. simpl.
  destruct (decide (k ∈ hidden)) as [Hk|Hk].
  - rewrite bool_decide_eq_true_2 by done. simpl.
    rewrite decide_True by set_solver. by apply IH.
  - rewrite bool_decide_eq_false_2 by done. simpl.
    destruct (decide (k ∈ seen)); [by apply IH|].
    f_equal. apply IH. set_solver.
Qed.

Lemma firstNew_set (seen : gset string) (l : list string) :
  list_to_set (firstNew seen l) ∪ seen = list_to_set l ∪ seen.
Proof.
  revert seen. induction l as [|k l IH]; intros seen; simpl; [done|].
  destruct (decide (k ∈ seen)) as [Hk|Hk].
  - rewrite IH. set_solver.
  - cbn [list_to_set foldr]. apply set_eq. intros x.
    pose proof (IH ({[k]} ∪ seen)) as Hx. rewrite set_eq in Hx.
    specialize (Hx x). set_unfold. tauto.
Qed.

Lemma firstNew_same_set (seen : gset string) (l1 l2 : list string) :
  firstNew seen l1 = firstNew seen l2 →
  list_to_set l1 ∪ seen = list_to_set l2 ∪ seen.
Proof. intros H. by rewrite <- (firstNew_set seen l1), H, firstNew_set. Qed.

Lemma pushLayer_layers (depth : nat) (id : string)
    (layers : list (nat * list string)) (start : nat) :
  layers.*1 = seq start (length layers) →
  (depth = start + length layers →
   (pushLayer depth id layers).*2 = layers.*2 ++ [[id]])
  ∧ (∀ pre ids, layers.*2 = pre ++ [ids] → depth = start + length pre →
       (pushLayer depth id layers).*2 = pre ++ [ids ++ [id]]).
Proof.
  revert start. induction layers as [|[d0 ids0] layers IH]; intros start Hseq.
  - split; [done|]. intros pre ids Hnil. by destruct pre.
  - rewrite fmap_cons in Hseq. cbn [length seq fst] in Hseq.
    injection Hseq as -> Hseq.
    destruct (IH (S start) Hseq) as [IH1 IH2]. cbn [pushLayer]. split.
    + intros Hd. cbn [length] in Hd. rewrite decide_False by lia.
      rewrite !fmap_cons. cbn [snd]. rewrite IH1; [done|lia].
    + intros pre ids Hpre Hd. rewrite fmap_cons in Hpre. cbn [snd] in Hpre.
      destruct pre as [|x pre].
      * simpl in Hpre, Hd. injection Hpre as -> Hrest.
        apply fmap_nil_inv in Hrest as ->.
        rewrite decide_True by lia. done.
      * simpl in Hpre, Hd. injection Hpre as -> Hrest.
        rewrite decide_False by lia.
        rewrite !fmap_cons. cbn [snd app].
        rewrite (IH2 pre ids Hrest); [done|lia].
Qed.

Lemma bind_snd_join (layers : list (nat * list string)) :
  layers ≫= snd = mjoin layers.*2.
Proof.
  induction layers as [|[d ids] layers IH]; [done|].
  rewrite bind_cons, fmap_cons. simpl. by rewrite IH.
Qed.

Lemma initLayers_order (edges : list ReactFlowEdge) (rootId : string) :
  layersOrder edges rootId (initLayers rootId) [] [] [(rootId, 0)] [].
Proof.
  split; cbn [initLayers ls_layers ls_queue ls_visited]; try done.
  by repeat constructor.
Qed.

Lemma order_visited (edges : list ReactFlowEdge) (rootId : string)
    (st : LayerState) (complete : list (list string)) (current : list string)
    (pending upcoming : list (string * nat)) :
  layersInv edges rootId st →
  layersOrder edges rootId st complete current pending upcoming →
  ls_visited st = list_to_set (mjoin (complete ++ [current])).
Proof.
  intros Hinv Hord.
  rewrite (li_visited _ _ _ Hinv), bind_snd_join, (lo_layers _ _ _ _ _ _ _ Hord).
  rewrite !join_app. destruct (decide (current = [])) as [->|]; [|done].
  simpl. by rewrite app_nil_r.
Qed.

Lemma order_shift (edges : list ReactFlowEdge) (rootId : string)
    (st : LayerState) (complete : list (list string)) (current : list string)
    (upcoming : list (string * nat)) :
  layersInv edges rootId st →
  layersOrder edges rootId st complete current [] upcoming →
  upcoming ≠ [] →
  layersOrder edges rootId st (complete ++ [current]) [] upcoming [].
Proof.
  intros Hinv Hord Hne.
  pose proof (order_visited _ _ _ _ _ _ _ Hinv Hord) as Hvis.
  destruct Hord as [Hq Hp Hu Hl Hc Hcur Hnext Hstart].
  assert (current ≠ []) as Hcurrent by (intros ?; by apply Hne, Hstart).
  simpl in Hcur. rewrite app_nil_r in Hcur.
  split.
  - by rewrite Hq, app_nil_r.
  - rewrite length_app. simpl. rewrite Nat.add_1_r. done.
  - constructor.
  - rewrite Hl, decide_False by done. simpl. by rewrite app_nil_r.
  - intros d ids Hd.
    destruct (decide (d < length complete)) as [Hlt|Hge].
    + rewrite lookup_app_l in Hd by done.
      rewrite take_app_le by lia. by apply Hc.
    + apply lookup_lt_Some in Hd as Hlen. rewrite length_app in Hlen.
      simpl in Hlen. assert (d = length complete) as -> by lia.
      rewrite list_lookup_middle in Hd by done. injection Hd as <-.
      rewrite take_app_length. done.
  - simpl. unfold layerAfter. rewrite last_snoc, <- Hvis.
    by apply Hnext.
  - done.
  - done.
Qed.

Lemma order_step (edges : list ReactFlowEdge) (rootId : string)
    (st st' : LayerState) (complete : list (list string))
    (current : list string) (k : string) (d : nat)
    (pending upcoming : list (string * nat)) :
  layersInv edges rootId st →
  layersOrder edges rootId st complete current ((k, d) :: pending) upcoming →
  layerStep (buildAdjList edges) st = Some st' →
  ∃ current' upcoming',
    layersOrder edges rootId st' complete current' pending upcoming'.
Proof.
  intros Hinv [Hq Hp Hu Hl Hc Hcur Hnext Hstart]. unfold layerStep.
  rewrite Hq. cbn [app].
  apply Forall_cons in Hp as [Hd Hp]. cbn [snd] in Hd. subst d.
  destruct (decide (k ∈ ls_visited st)) as [Hin|Hnew]; intros [= <-].
  - exists current, upcoming. split; cbn [ls_layers ls_queue ls_visited];
      try done.
    rewrite fmap_cons in Hcur. cbn [fst firstNew] in Hcur.
    by rewrite decide_True in Hcur by done.
  - exists (current ++ [k]).
    eexists (upcoming ++ map (λ childId, (childId, length complete + 1)) _).
    assert ((map (λ childId : string, (childId, length complete + 1))
               (List.filter
                  (λ childId, negb (bool_decide
                                      (childId ∈ {[k]} ∪ ls_visited st)))
                  (default [] (buildAdjList edges !! k)))).*1
            = List.filter
                (λ childId, negb (bool_decide
                                    (childId ∈ {[k]} ∪ ls_visited st)))
                (childrenOf edges k)) as Hchildren.
    { rewrite buildAdjList_lookup. unfold childrenOf.
      rewrite <- list_fmap_compose. apply list_fmap_id. }
    split; cbn [ls_layers ls_queue ls_visited].
    + by rewrite app_assoc.
    + done.
    + apply Forall_app. split; [done|]. apply Forall_forall.
      intros [c dc] (c' & [= -> ->] & _)%list_elem_of_fmap. cbn [snd]. lia.
    + rewrite decide_False by (by destruct current).
      pose proof (li_depths _ _ _ Hinv) as Hseq.
      destruct (pushLayer_layers (length complete) k (ls_layers st) 0 Hseq)
        as [Hfresh Hgrow].
      destruct (decide (current = [])) as [->|Hne].
      * rewrite app_nil_r in Hl. rewrite Hfresh, Hl; [done|].
        by rewrite <- Hl, length_fmap.
      * by apply Hgrow.
    + done.
    + rewrite <- app_assoc. cbn [app]. rewrite <- Hcur.
      rewrite fmap_cons. cbn [fst firstNew]. by rewrite decide_False by done.
    + intros seen Hseen.
      assert (ls_visited st ⊆ seen) as Hold by set_solver.
      rewrite fmap_app, Hchildren, firstNew_app, bind_app, firstNew_app.
      rewrite (Hnext seen Hold).
      rewrite (firstNew_same_set _ _ _ (Hnext seen Hold)).
      f_equal. rewrite firstNew_filter by set_solver.
      rewrite bind_cons. simpl. by rewrite app_nil_r.
    + intros Hnil. by destruct current.
Qed.

Lemma layerStep_order (edges : list ReactFlowEdge) (rootId : string)
    (st st' : LayerState) (complete : list (list string))
    (current : list string) (pending upcoming : list (string * nat)) :
  layersInv edges rootId st →
  layersOrder edges rootId st complete current pending upcoming →
  layerStep (buildAdjList edges) st = Some st' →
  ∃ complete' current' pending' upcoming',
    layersOrder edges rootId st' complete' current' pending' upcoming'.
Proof.
  intros Hinv Hord Hstep.
  destruct pending as [|[k d] pending].
  - destruct upcoming as [|[k d] upcoming].
    + unfold layerStep in Hstep.
      by rewrite (lo_queue _ _ _ _ _ _ _ Hord) in Hstep.
    + apply order_shift in Hord; [|done..].
      destruct (order_step _ _ _ _ _ _ _ _ _ _ Hinv Hord Hstep)
        as (current' & upcoming' & Hord').
      by eexists _, _, _, _.
  - destruct (order_step _ _ _ _ _ _ _ _ _ _ Hinv Hord Hstep)
      as (current' & upcoming' & Hord').
    by eexists _, _, _, _.
Qed.

Lemma assignLayers_order (fuel : nat) (edges : list ReactFlowEdge)
    (rootId : string) (st st' : LayerState) (complete : list (list string))
    (current : list string) (pending upcoming : list (string * nat)) :
  layersInv edges rootId st →
  layersOrder edges rootId st complete current pending upcoming →
  assignLayers fuel (buildAdjList edges) st = Some st' →
  ∃ complete' current', layersOrder edges rootId st' complete' current' [] [].
Proof.
  revert st complete current pending upcoming.
  induction fuel as [|fuel IH];
    intros st complete current pending upcoming Hinv Hord; [done|]. simpl.
  destruct (layerStep (buildAdjList edges) st) as [st1|] eqn:Hstep.
  - destruct (layerStep_order _ _ _ _ _ _ _ _ Hinv Hord Hstep)
      as (c1 & cur1 & p1 & u1 & Hord1).
    apply (IH st1 c1 cur1 p1 u1); [by eapply layerStep_inv|done].
  - intros [= <-]. exists complete, current.
    unfold layerStep in Hstep.
    destruct (ls_queue st) as [|[id depth] rest] eqn:Hq.
    + pose proof (lo_queue _ _ _ _ _ _ _ Hord) as Hq'. rewrite Hq in Hq'.
      symmetry in Hq'. apply app_eq_nil in Hq' as [-> ->]. done.
    + by destruct (decide (id ∈ ls_visited st)).
Qed.

Lemma order_isLayering (edges : list ReactFlowEdge) (rootId : string)
    (st : LayerState) (complete : list (list string)) (current : list string) :
  layersInv edges rootId st →
  layersOrder edges rootId st complete current [] [] →
  isLayering edges rootId (ls_layers st).*2.
Proof.
  intros Hinv Hord.
  pose proof (order_visited _ _ _ _ _ _ _ Hinv Hord) as Hvis.
  destruct Hord as [Hq Hp Hu Hl Hc Hcur Hnext Hstart].
  simpl in Hcur. rewrite app_nil_r in Hcur. rewrite Hl.
  destruct (decide (current = [])) as [->|Hne].
  - rewrite app_nil_r. by split.
  - split.
    + intros d ids Hd.
      destruct (decide (d < length complete)) as [Hlt|Hge].
      * rewrite lookup_app_l in Hd by done.
        rewrite take_app_le by lia. by apply Hc.
      * apply lookup_lt_Some in Hd as Hlen. rewrite length_app in Hlen.
        simpl in Hlen. assert (d = length complete) as -> by lia.
        rewrite list_lookup_middle in Hd by done. injection Hd as <-.
        rewrite take_app_length. done.
    + unfold layerAfter. rewrite last_snoc, <- Hvis.
      by rewrite <- (Hnext (ls_visited st)).
Qed.

Lemma hierarchicalLayout_layers (fuel : nat) (random : nat → Q)
    (nodes : list ReactFlowNode) (edges : list ReactFlowEdge)
    (rootId : string) (out : list ReactFlowNode) :
  hierarchicalLayout fuel random nodes edges rootId = Some out →
  ∃ st, layersInv edges rootId st ∧ layersMin edges st ∧ ls_queue st = []
    ∧ isLayering edges rootId (ls_layers st).*2
    ∧ out = (ls_layers st
               ≫= (λ layer, placeLayer (buildNodeMap nodes) layer.1 layer.2))
            ++ placeUnvisited random (length (ls_layers st)) (ls_visited st)
                 nodes.
Proof.
  unfold hierarchicalLayout. cbv zeta.
  destruct (assignLayers fuel (buildAdjList edges) (initLayers rootId))
    as [st|] eqn:Hst; [|done].
  intros [= <-]. exists st.
  destruct (assignLayers_inv _ _ _ _ _ (initLayers_inv edges rootId) Hst)
    as [Hinv Hq].
  destruct (assignLayers_order _ _ _ _ _ _ _ _ _ (initLayers_inv edges rootId)
              (initLayers_order edges rootId) Hst) as (c & cur & Hord).
  split_and!; try done.
  - eapply assignLayers_min; [apply initLayers_inv|apply initLayers_min|done].
  - by eapply order_isLayering.
Qed.

Lemma layer_at_depth (layers : list (nat * list string)) (d : nat)
    (ids : list string) :
  layers.*1 = seq 0 (length layers) →
  layers.*2 !! d = Some ids ↔ (d, ids) ∈ layers.
Proof.
  intros Hseq. split.
  - rewrite list_lookup_fmap. intros ([d' ids'] & Hd & [= ->])%fmap_Some.
    assert (layers.*1 !! d = Some d') as Hfst.
    { by rewrite list_lookup_fmap, Hd. }
    rewrite Hseq in Hfst. apply lookup_seq in Hfst as [Heq _].
    simpl in Heq. subst d'. by apply list_elem_of_lookup_2 in Hd.
  - intros [i Hi]%list_elem_of_lookup_1.
    assert (layers.*1 !! i = Some d) as Hfst.
    { by rewrite list_lookup_fmap, Hi. }
    rewrite Hseq in Hfst. apply lookup_seq in Hfst as [Heq _].
    simpl in Heq. subst d. by rewrite list_lookup_fmap, Hi.
Qed.

(** The layers are determined by the edges and the root. *)
Lemma isLayering_unique (edges : list ReactFlowEdge) (rootId : string)
    (layers layers' : list (list string)) :
  isLayering edges rootId layers → isLayering edges rootId layers' →
  layers' = layers.
Proof.
  intros [Hstep Hend] [Hstep' Hend'].
  assert (∀ n, take n layers' = take n layers) as Htake.
  { induction n as [|n IH]; [done|].
    destruct (layers !! n) as [ids|] eqn:Hn,
             (layers' !! n) as [ids'|] eqn:Hn'.
    - rewrite (take_S_r _ _ _ Hn), (take_S_r _ _ _ Hn'), IH.
      destruct (Hstep n ids Hn) as [-> _].
      destruct (Hstep' n ids' Hn') as [-> _]. by rewrite IH.
    - destruct (Hstep n ids Hn) as [Hids Hne].
      apply lookup_ge_None in Hn'.
      rewrite take_ge in IH by done. rewrite <- IH, Hend' in Hids. done.
    - destruct (Hstep' n ids' Hn') as [Hids Hne].
      apply lookup_ge_None in Hn.
      rewrite (take_ge layers) in IH by done. rewrite IH, Hend in Hids. done.
    - apply lookup_ge_None in Hn, Hn'.
      rewrite !take_ge by lia. rewrite !take_ge in IH by done. done. }
  specialize (Htake (length layers `max` length layers')).
  by rewrite !take_ge in Htake by lia.
Qed.

(** X23: where [hierarchicalLayout] puts a node.  The layers are those
    that the edges determine below the root: the root alone, then layer
    after layer the targets not yet placed of the edges leaving the
    previous layer, in the order of their first occurrence; layer [d]
    holds the identifiers at distance [d] from the root.  A node whose
    identifier stands at index [i] of layer [d] lies at ordinate
    250 times [d] and at the abscissa of slot [i] of the slots of that
    layer, as many as the layer has identifiers, 300 apart and centred
    on zero.  The nodes in no layer, which are those that the edges do
    not reach, lie below all layers, the [i]-th of them at the rounded
    product of the [i]-th draw and 500. *)
Theorem hierarchicalLayout_placement (fuel : nat) (random : nat → Q)
    (nodes : list ReactFlowNode) (edges : list ReactFlowEdge)
    (rootId : string) (out : list ReactFlowNode) :
  NoDup (rfn_id <$> nodes) →
  hierarchicalLayout fuel random nodes edges rootId = Some out →
  ∃ layers : list (list string),
    isLayering edges rootId layers
    ∧ (∀ layers', isLayering edges rootId layers' → layers' = layers)
    ∧ (∀ d k, (∃ ids, layers !! d = Some ids ∧ k ∈ ids)
              ↔ distanceFrom edges rootId k d)
    ∧ (∀ k, k ∈ mjoin layers ↔ rtc (flowRel edges) rootId k)
    ∧ (∀ n d ids i,
         n ∈ nodes → layers !! d = Some ids → ids !! i = Some (rfn_id n) →
         ∃ x y,
           setPosition n x y ∈ out
           ∧ (x == inject_Z (300 * Z.of_nat i + 25
                             - 150 * Z.of_nat (length ids)))%Q
           ∧ (y == inject_Z (250 * Z.of_nat d))%Q)
    ∧ (∀ n i,
         List.filter (λ m, negb (bool_decide (rfn_id m ∈ mjoin layers))) nodes
           !! i = Some n →
         ∃ y,
           setPosition n (roundDouble (random i * 500)) y ∈ out
           ∧ (y == inject_Z (250 * (Z.of_nat (length layers) + 1)))%Q).
Proof.
  intros Hids (st & Hinv & Hmin & Hq & Hlay & ->)%hierarchicalLayout_layers.
  pose proof (li_depths _ _ _ Hinv) as Hseq.
  assert (∀ k, k ∈ mjoin (ls_layers st).*2 ↔ k ∈ ls_visited st) as Hvis.
  { intros k.
    by rewrite (li_visited _ _ _ Hinv), elem_of_list_to_set, bind_snd_join. }
  assert (∀ d k, (∃ ids, (ls_layers st).*2 !! d = Some ids ∧ k ∈ ids)
                 ↔ inLayer (ls_layers st) d k) as Hin.
  { intros d k. unfold inLayer. split; intros (ids & Hd & Hk); exists ids.
    - by rewrite <- layer_at_depth.
    - by rewrite layer_at_depth. }
  exists (ls_layers st).*2. split_and!.
  - done.
  - intros layers' Hlay'. by eapply isLayering_unique.
  - intros d k. rewrite Hin. split.
    + intros Hd. pose proof Hd as (ids & Hl & Hk). split.
      * pose proof (li_paths _ _ _ Hinv) as Hp.
        eapply Forall_forall in Hp; [|exact Hl]. cbn [fst snd] in Hp.
        by eapply Forall_forall in Hp.
      * intros m Hm.
        destruct (layers_shortest _ _ _ _ _ Hinv Hmin Hq Hm)
          as (d' & Hd' & Hle).
        assert (d = d'); [|lia].
        by eapply inLayer_unique; [exact (li_nodup _ _ _ Hinv)|..].
    + intros [Hpath Hleast].
      destruct (layers_shortest _ _ _ _ _ Hinv Hmin Hq Hpath)
        as (d' & Hd' & Hle).
      assert (d ≤ d') as Hge.
      { apply Hleast. destruct Hd' as (ids & Hl & Hk).
        pose proof (li_paths _ _ _ Hinv) as Hp.
        eapply Forall_forall in Hp; [|exact Hl]. cbn [fst snd] in Hp.
        by eapply Forall_forall in Hp. }
      by assert (d = d') as -> by lia.
  - intros k. rewrite Hvis. by apply visited_reachable.
  - intros n d ids i Hn Hd Hi. apply layer_at_depth in Hd; [|done].
    eexists _, _. split_and!.
    + apply elem_of_app. left. apply list_elem_of_bind.
      exists (d, ids). split; [|done]. apply placeLayer_elem.
      exists i, (rfn_id n), n. split; [done|]. split; [|reflexivity].
      by apply buildNodeMap_NoDup.
    + unfold Qeq. simpl. lia.
    + unfold Qeq. simpl. lia.
  - intros n i Hi. eexists. split.
    + apply elem_of_app. right. apply placeUnvisited_elem. exists i, n.
      split; [|reflexivity]. rewrite <- Hi. f_equal.
      apply List.filter_ext. intros m. f_equal.
      apply bool_decide_ext. by rewrite Hvis.
    + rewrite length_fmap. unfold Qeq. simpl. lia.
Qed.

Lemma hierarchicalLayout_placement_witness :
  ∃ layers : list (list string),
    isLayering sampleEdges "Query" layers
    ∧ (∃ x y, setPosition (plainNode "B") x y ∈ sampleLayout
         ∧ (x == 25)%Q ∧ (y == 250)%Q)
    ∧ ∃ y, setPosition (plainNode "Lost") (roundDouble (0 * 500)) y
             ∈ sampleLayout
           ∧ (y == 750)%Q.
Proof.
  destruct (hierarchicalLayout_placement 6 (λ _, 0%Q) sampleNodes sampleEdges
              "Query" sampleLayout)
    as (layers & Hlay & _ & _ & _ & Hplaced & Hrest).
  - vm_compute. repeat (constructor; [set_solver|]). constructor.
  - vm_compute. reflexivity.
  - assert (layers = [["Query"]; ["A"; "B"]]) as ->.
    { destruct Hlay as [Hstep Hend].
      destruct layers as [|l0 layers].
      { vm_compute in Hend. discriminate Hend. }
      destruct (Hstep 0 l0 eq_refl) as [H0 _]. cbn [take] in H0.
      vm_compute in H0. subst l0.
      destruct layers as [|l1 layers].
      { vm_compute in Hend. discriminate Hend. }
      destruct (Hstep 1 l1 eq_refl) as [H1 _]. cbn [take] in H1.
      vm_compute in H1. subst l1.
      destruct layers as [|l2 layers]; [reflexivity|].
      destruct (Hstep 2 l2 eq_refl) as [H2 Hne]. cbn [take] in H2.
      vm_compute in H2. by destruct Hne. }
    exists [["Query"]; ["A"; "B"]]. split_and!.
    + done.
    + destruct (Hplaced (plainNode "B") 1 ["A"; "B"] 1) as (x & y & H1 & Hx & Hy).
      * apply list_elem_of_further, list_elem_of_further, list_elem_of_here.
      * reflexivity.
      * reflexivity.
      * exists x, y. split_and!; [done| |].
        -- rewrite Hx. reflexivity.
        -- rewrite Hy. reflexivity.
    + destruct (Hrest (plainNode "Lost") 0) as (y & H1 & Hy).
      * vm_compute. reflexivity.
      * exists y. split; [done|]. rewrite Hy. reflexivity.
Defined.

Lemma layer_unique (layers : list (nat * list string)) (d : nat)
    (ids ids' : list string) :
  NoDup layers.*1 → (d, ids) ∈ layers → (d, ids') ∈ layers → ids = ids'.
Proof.
  induction layers as [|[d0 ids0] layers IH]; simpl;
    [by intros _ ?%elem_of_nil|].
  intros [Hd Hnd]%NoDup_cons [Ha|Ha]%elem_of_cons [Hb|Hb]%elem_of_cons.
  - congruence.
  - injection Ha as -> ->. destruct Hd.
    apply list_elem_of_fmap. by exists (d0, ids').
  - injection Hb as -> ->. destruct Hd.
    apply list_elem_of_fmap. by exists (d0, ids).
  - by apply IH.
Qed.

(** X24: a node that the edges reach from the root shares its position
    with no node of another identifier: two nodes of a layer are 300
    apart, two layers 250, and the nodes not reached lie lower still. *)
Theorem hierarchicalLayout_no_overlap (fuel : nat) (random : nat → Q)
    (nodes : list ReactFlowNode) (edges : list ReactFlowEdge)
    (rootId : string) (out : list ReactFlowNode) (m1 m2 : ReactFlowNode) :
  hierarchicalLayout fuel random nodes edges rootId = Some out →
  m1 ∈ out → m2 ∈ out →
  rfn_id m1 ≠ rfn_id m2 →
  rtc (flowRel edges) rootId (rfn_id m1) →
  ¬ ((rfn_position m1).1 == (rfn_position m2).1
     ∧ (rfn_position m1).2 == (rfn_position m2).2)%Q.
Proof.
  intros (st & Hinv & Hq & ->)%hierarchicalLayout_Some H1 H2 Hne Hreach.
  apply (visited_reachable _ _ st _ Hinv Hq) in Hreach.
  pose proof (li_depths _ _ _ Hinv) as Hseq.
  apply elem_of_app in H1 as [H1|H1].
  2:{ apply placeUnvisited_elem in H1 as (i & n & Hn & ->).
      apply list_elem_of_lookup_2, filter_elem in Hn as [_ Hn].
      apply negb_true_iff, bool_decide_eq_false in Hn. by destruct Hn. }
  apply list_elem_of_bind in H1 as ([d1 ids1] & H1 & Hl1).
  apply placeLayer_elem in H1 as (i1 & k1 & n1 & Hi1 & Hn1 & ->).
  apply buildNodeMap_lookup in Hn1 as [_ Hk1].
  assert (d1 < length (ls_layers st)) as Hd1.
  { assert (d1 ∈ (ls_layers st).*1) as Hd.
    { apply list_elem_of_fmap. by exists (d1, ids1). }
    rewrite Hseq in Hd. apply elem_of_seq in Hd. lia. }
  cbn [fst snd setPosition rfn_position rfn_id] in *.
  apply elem_of_app in H2 as [H2|H2].
  - apply list_elem_of_bind in H2 as ([d2 ids2] & H2 & Hl2).
    apply placeLayer_elem in H2 as (i2 & k2 & n2 & Hi2 & Hn2 & ->).
    apply buildNodeMap_lookup in Hn2 as [_ Hk2].
    cbn [fst snd setPosition rfn_position rfn_id] in *.
    intros [Hx Hy].
    assert (d1 = d2) as ->.
    { revert Hy. unfold Qeq. simpl. lia. }
    assert (ids1 = ids2) as ->.
    { eapply layer_unique; [|exact Hl1|exact Hl2].
      rewrite Hseq. apply NoDup_seq. }
    assert (i1 = i2) as ->.
    { revert Hx. unfold Qeq. simpl. lia. }
    congruence.
  - apply placeUnvisited_elem in H2 as (i & n & _ & ->).
    cbn [fst snd setPosition rfn_position rfn_id] in *.
    intros [_ Hy]. revert Hy. unfold Qeq. simpl. lia.
Qed.

Lemma hierarchicalLayout_no_overlap_witness :
  ¬ ((rfn_position (setPosition (plainNode "A") (-550 # 2) 250)).1
     == (rfn_position (setPosition (plainNode "B") (50 # 2) 250)).1
     ∧ (rfn_position (setPosition (plainNode "A") (-550 # 2) 250)).2
       == (rfn_position (setPosition (plainNode "B") (50 # 2) 250)).2)%Q.
Proof.
  apply (hierarchicalLayout_no_overlap 6 (λ _, 0%Q) sampleNodes sampleEdges
           "Query" sampleLayout).
  - vm_compute. reflexivity.
  - apply list_elem_of_further, list_elem_of_here.
  - apply list_elem_of_further, list_elem_of_further, list_elem_of_here.
  - discriminate.
  - apply rtc_once. exists (plainEdge "Query" "A").
    split; [|done]. apply list_elem_of_here.
Defined.
